(** * StoryStore: a model of [code/lib/preview-api/src/modules/store/StoryStore.ts]

    The store turns a story index into prepared stories.  It owns the index,
    the module loader, the normalized project annotations, the args and globals
    stores, the hook registry, two bounded memoized transforms and the
    optional map of cached CSF files.

    The development follows the class method by method.  Methods that mutate
    [this] are functions in a state-and-exception monad over the record
    [StoryStore]; a thrown exception keeps the writes made before it.  An
    [async] method is modelled by the outcome of the promise it returns
    together with the store once every load it started has settled.  The
    loader is a JavaScript function that is invoked afresh at every load: the
    store keeps the trace of its invocations, and what an invocation returns
    may depend on the ones before it. *)

From stdpp Require Import base strings list gmap sorting.

Set Warnings "-register-all,-clear-no-such-hyp".
Open Scope string_scope.
Open Scope list_scope.
Open Scope nat_scope.

(** ** JavaScript values *)

(** The fragment of JavaScript values that flows through the store.  A
    function carries its source text (what [Function.prototype.toString]
    returns); an object carries its own enumerable properties in
    [Object.entries] order.  Numbers and symbols are left out. *)
Inductive JSValue : Type :=
  | JUndefined
  | JNull
  | JBool (b : bool)
  | JStr (s : string)
  | JFun (src : string)
  | JArr (elems : list JSValue)
  | JObj (own : list (string * JSValue)).

(** A JavaScript object used as a record or as a dictionary: its own
    enumerable string-keyed properties, in insertion order.  (Keys that are
    canonical array indices, which JavaScript enumerates first, do not occur:
    story identifiers, import paths and property names are not numerals.  Nor
    is a property named [__proto__] ever assigned: that one assignment sets
    the prototype instead of adding a property.) *)
Definition Obj (V : Type) : Type := list (string * V).

Section Assoc.
Context {K V : Type} `{EqDecision K}.

(** First binding of [k]. *)
Fixpoint assoc (k : K) (l : list (K * V)) : option V :=
  match l with
  | [] => None
  | (k', v) :: l' => if decide (k = k') then Some v else assoc k l'
  end.

(** Every binding of [k] removed. *)
Fixpoint unassoc (k : K) (l : list (K * V)) : list (K * V) :=
  match l with
  | [] => []
  | (k', v) :: l' =>
      if decide (k = k') then unassoc k l' else (k', v) :: unassoc k l'
  end.

(** Position of the first binding of [k]. *)
Fixpoint key_index (k : K) (l : list (K * V)) : option nat :=
  match l with
  | [] => None
  | (k', _) :: l' => if decide (k = k') then Some 0 else S <$> key_index k l'
  end.

(** [o[k] = v]: an existing property keeps its place, a new one goes last. *)
Fixpoint assign (k : K) (v : V) (l : list (K * V)) : list (K * V) :=
  match l with
  | [] => [(k, v)]
  | (k', v') :: l' =>
      if decide (k = k') then (k, v) :: l' else (k', v') :: assign k v l'
  end.
End Assoc.

Definition obj_get {V} (k : string) (o : Obj V) : option V := assoc k o.
Definition obj_set {V} (k : string) (v : V) (o : Obj V) : Obj V := assign k v o.
Definition obj_keys {V} (o : Obj V) : list string := o.*1.

(** No object has two properties of the same name. *)
Definition obj_wf {V} (o : Obj V) : Prop := NoDup (obj_keys o).

(** [o.k] read as a value, for a name [k] that [Object.prototype] does not
    have: a missing property is [undefined]. *)
Definition prop (k : string) (o : Obj JSValue) : JSValue :=
  default JUndefined (obj_get k o).

(** JavaScript truthiness ([!!v]) on the fragment. *)
Definition truthy (v : JSValue) : bool :=
  match v with
  | JUndefined | JNull => false
  | JBool b => b
  | JStr s => if decide (s = "") then false else true
  | JFun _ | JArr _ | JObj _ => true
  end.

(** [ToString]: arrays join their elements with commas, [undefined] and
    [null] elements printing as the empty string; a plain object prints as
    [[object Object]]. *)
Fixpoint ToString (v : JSValue) : string :=
  match v with
  | JUndefined => "undefined"
  | JNull => "null"
  | JBool true => "true"
  | JBool false => "false"
  | JStr s => s
  | JFun src => src
  | JArr elems =>
      (fix join (l : list JSValue) : string :=
         match l with
         | [] => ""
         | x :: l' =>
             let sx := match x with
                       | JUndefined | JNull => ""
                       | _ => ToString x
                       end in
             match l' with
             | [] => sx
             | _ :: _ => (sx ++ "," ++ join l')%string
             end
         end) elems
  | JObj _ => "[object Object]"
  end.

(** *** Strings and their code units *)

(** A string of the model holds the UTF-8 encoding of the JavaScript
    string; JavaScript compares strings by their UTF-16 code units.
    [utf8_decode] reads the code points off the bytes, an ill-formed byte
    giving U+FFFD. *)
Definition continuation (b : N) : bool := ((128 <=? b) && (b <? 192))%N.

Fixpoint utf8_decode (bytes : list N) : list N :=
  match bytes with
  | [] => []
  | b0 :: rest0 =>
      if (b0 <? 128)%N then b0 :: utf8_decode rest0
      else
        match rest0 with
        | [] => [65533%N]
        | b1 :: rest1 =>
            if ((192 <=? b0) && (b0 <? 224) && continuation b1)%N
            then N.lor (N.shiftl (N.land b0 31) 6) (N.land b1 63)
                 :: utf8_decode rest1
            else
              match rest1 with
              | [] => 65533%N :: utf8_decode rest0
              | b2 :: rest2 =>
                  if ((224 <=? b0) && (b0 <? 240)
                      && continuation b1 && continuation b2)%N
                  then N.lor (N.shiftl (N.land b0 15) 12)
                         (N.lor (N.shiftl (N.land b1 63) 6) (N.land b2 63))
                       :: utf8_decode rest2
                  else
                    match rest2 with
                    | [] => 65533%N :: utf8_decode rest0
                    | b3 :: rest3 =>
                        if ((240 <=? b0) && (b0 <? 248) && continuation b1
                            && continuation b2 && continuation b3)%N
                        then N.lor (N.shiftl (N.land b0 7) 18)
                               (N.lor (N.shiftl (N.land b1 63) 12)
                                  (N.lor (N.shiftl (N.land b2 63) 6)
                                         (N.land b3 63)))
                             :: utf8_decode rest3
                        else 65533%N :: utf8_decode rest0
                    end
              end
        end
  end.

(** The code units of a code point: itself in the basic plane, a
    surrogate pair above it. *)
Definition utf16_encode (point : N) : list N :=
  if (point <? 65536)%N then [point]
  else [(55296 + (point - 65536) / 1024)%N; (56320 + (point - 65536) mod 1024)%N].

Definition code_units (s : string) : list N :=
  utf8_decode (Ascii.N_of_ascii <$> String.list_ascii_of_string s) ≫= utf16_encode.

(** [x <= y] on strings, as sequences of code units. *)
Fixpoint code_units_le (x y : list N) : bool :=
  match x, y with
  | [], _ => true
  | _ :: _, [] => false
  | a :: x', b :: y' =>
      if (a <? b)%N then true
      else if (b <? a)%N then false
      else code_units_le x' y'
  end.

(** The comparison [Array.prototype.sort] uses when called without a
    comparator: [undefined] goes last, everything else is ordered by the code
    units of its [ToString]. *)
Definition sort_le (x y : JSValue) : bool :=
  match x, y with
  | _, JUndefined => true
  | JUndefined, _ => false
  | _, _ => code_units_le (code_units (ToString x)) (code_units (ToString y))
  end.

Section InsertionSort.
Context {A : Type} (le : A → A → bool).

Fixpoint sort_insert (x : A) (l : list A) : list A :=
  match l with
  | [] => [x]
  | y :: l' => if le x y then x :: y :: l' else y :: sort_insert x l'
  end.

(** A stable sort: of two elements that compare equal the one that came
    first stays first. *)
Fixpoint stable_sort (l : list A) : list A :=
  match l with
  | [] => []
  | x :: l' => sort_insert x (stable_sort l')
  end.
End InsertionSort.

(** [value.slice().sort()] *)
Definition js_sort (l : list JSValue) : list JSValue := stable_sort sort_le l.

(** ** Data model *)

Abbreviation StoryId := string (only parsing).
Abbreviation Path := string (only parsing).
Abbreviation ComponentTitle := string (only parsing).

(** [type: 'story' | 'docs'] *)
Inductive EntryType : Type := type_story | type_docs.

Global Instance EntryType_eq_dec : EqDecision EntryType.
Proof. solve_decision. Defined.

Record IndexEntry : Type := {
  entry_id : StoryId;
  title : ComponentTitle;
  name : string;
  importPath : Path;
  type : EntryType;
  storiesImports : list Path
}.

Record StoryIndex : Type := { entries : Obj IndexEntry }.

(** A heap object: its identity and its own properties.  Two references are
    the same JavaScript object exactly when their [oid]s agree. *)
Record Ref : Type := { oid : nat; props : Obj JSValue }.

Abbreviation ModuleExports := Ref (only parsing).
Abbreviation NormalizedProjectAnnotations := Ref (only parsing).
Abbreviation ComponentAnnotations := Ref (only parsing).
Abbreviation StoryAnnotations := Ref (only parsing).
Abbreviation PreparedStory := Ref (only parsing).

(** *** Object.prototype *)

(** An object made by [{}] inherits the members of [Object.prototype]: a
    read [o[k]] that finds no own property [k] finds the member of that name,
    if there is one.  Each member is an object of the runtime ([constructor]
    is the function [Object], [__proto__] reads as [Object.prototype] itself,
    the others are methods), hence truthy, with an identity of its own and no
    enumerable property.  The runtime's objects are numbered first. *)
Definition Object_prototype : Obj Ref :=
  imap (λ j name, (name, {| oid := j; props := [] |}))
       ["constructor"; "__defineGetter__"; "__defineSetter__";
        "hasOwnProperty"; "__lookupGetter__"; "__lookupSetter__";
        "isPrototypeOf"; "propertyIsEnumerable"; "toString"; "valueOf";
        "__proto__"; "toLocaleString"].

(** [k in {}]: [k] names a member of [Object.prototype]. *)
Definition inherited (k : string) : bool :=
  bool_decide (is_Some (obj_get k Object_prototype)).

(** [o[k]] on an object [o] of objects made by [{}]: the own property,
    else the inherited member, else [undefined]. *)
Definition obj_read (k : string) (o : Obj Ref) : option Ref :=
  match obj_get k o with
  | Some v => Some v
  | None => obj_get k Object_prototype
  end.

Record CSFFile : Type := {
  meta : ComponentAnnotations;
  stories : Obj StoryAnnotations;
  moduleExports : ModuleExports
}.

(** [story.id], read where the store uses it: as a property key. *)
Definition story_id (story : PreparedStory) : StoryId :=
  ToString (prop "id" (props story)).

(** [story.initialArgs] *)
Definition initialArgs (story : PreparedStory) : JSValue :=
  prop "initialArgs" (props story).

Inductive Error : Type :=
  | CalledExtractOnStoreError
  | MissingStoryFromCsfFileError (storyId : StoryId)
  | EntryNotFound (storyId : StoryId)
  | UsageError (message : string)
  | TypeError
  | LoaderFailure (reason : string).

Global Instance Error_eq_dec : EqDecision Error.
Proof. solve_decision. Defined.

(** What [importFn(path)] returns: a promise, given by the tick at which it
    settles and by how it settles. *)
Record Load : Type := { settle : nat; outcome : string + ModuleExports }.

(** [importFn] is a function of the runtime: what an invocation returns
    may depend on the invocations made before it, given latest first, each
    with the promise it returned. *)
Abbreviation ModuleImportFn := (list (Path * Load) → Path → Load) (only parsing).

(** The invocations of a loader for [paths], one after the other, from the
    trace [trace] on: each path with the promise returned for it. *)
Fixpoint invocations (importFn : ModuleImportFn) (trace : list (Path * Load))
    (paths : list Path) : list (Path * Load) :=
  match paths with
  | [] => []
  | path :: rest =>
      let load := importFn trace path in
      (path, load) :: invocations importFn ((path, load) :: trace) rest
  end.

(** ** StoryIndexStore *)

(** Modelled from the spec: [StoryIndexStore.storyIdToEntry] is not part of
    this file; it "returns the Index Entry for [id]; fails with EntryNotFound
    if absent". *)
Definition StoryIndexStore_storyIdToEntry
    (index : StoryIndex) (storyId : StoryId) : Error + IndexEntry :=
  match obj_get storyId (entries index) with
  | Some entry => inr entry
  | None => inl (EntryNotFound storyId)
  end.

(** ** ArgsStore *)

(** Modelled from the spec: [ArgsStore] is not part of this file; it is a
    container of "current argument values keyed by story identifier", and
    [setInitial] "seeds the argument store with the resolved story's initial
    defaults if no value exists yet". *)
Definition ArgsStore_setInitial
    (story : PreparedStory) (args : gmap string JSValue) : gmap string JSValue :=
  match args !! story_id story with
  | Some _ => args
  | None => <[story_id story := initialArgs story]> args
  end.

(** ** memoizerific *)

(** What a memoized function remembers: its entries, most recently used
    first, and the allocation counter of the objects it creates. *)
Record Memo (K V : Type) : Type := {
  memo_entries : list (K * V);
  memo_next : nat
}.
Arguments memo_entries {K V} _.
Arguments memo_next {K V} _.

Definition memo_empty {K V} : Memo K V :=
  {| memo_entries := []; memo_next := 0 |}.

(** Modelled from the spec: [memoize] is the third-party [memoizerific]; the
    store's transforms are "bounded LRU-memoized pure-function wrappers" keyed
    by the identity of their input objects, "same inputs ⇒ same cached output
    instance", eviction on capacity.  [key] is the tuple of argument
    identities, [fn] the wrapped call, which allocates from the counter it is
    given. *)
Definition memoize {K V} `{EqDecision K}
    (limit : N) (key : K) (fn : nat → V * nat) (m : Memo K V) : V * Memo K V :=
  match assoc key (memo_entries m) with
  | Some v =>
      (v, {| memo_entries := (key, v) :: unassoc key (memo_entries m);
             memo_next := memo_next m |})
  | None =>
      let '(v, next) := fn (memo_next m) in
      (v, {| memo_entries := take (N.to_nat limit) ((key, v) :: memo_entries m);
             memo_next := next |})
  end.

(** The counter of a memoized function that makes annotation objects
    starts after the objects of the runtime. *)
Definition memo_after_runtime {K V} : Memo K V :=
  {| memo_entries := []; memo_next := length Object_prototype |}.

Definition CSF_CACHE_SIZE : N := 1000.
Definition STORY_CACHE_SIZE : N := 10000.

(** ** Collaborators *)

(** The pure annotation transforms of [./csf], [GlobalsStore] and
    [HooksContext] are imported by the store and treated as given. The
    transforms return the properties of the object they build; the store's
    model gives the object its identity. *)
Class Collaborators : Type := {
  GlobalsStore : Type;
  (** [new GlobalsStore({ globals, globalTypes })] *)
  GlobalsStore_new : JSValue → JSValue → GlobalsStore;
  (** [globals.set({ globals, globalTypes })] *)
  GlobalsStore_set : JSValue → JSValue → GlobalsStore → GlobalsStore;
  (** The mutable state of a [HooksContext], as constructed and after
      [clean()]. *)
  HooksState : Type;
  HooksState_new : HooksState;
  HooksState_clean : HooksState → HooksState;
  normalizeProjectAnnotations : Obj JSValue → Obj JSValue;
  (** [processCSFFile(moduleExports, importPath, title)]: the component
      annotations and the annotations of each story. *)
  processCSFFile :
    ModuleExports → Path → ComponentTitle → Obj JSValue * Obj (Obj JSValue);
  (** [prepareStory(storyAnnotations, componentAnnotations, projectAnnotations)] *)
  prepareStory :
    StoryAnnotations → ComponentAnnotations → NormalizedProjectAnnotations →
    Obj JSValue
}.

(** ** The store *)

Section Store.
Context `{!Collaborators}.

(** A [HooksContext]: the object created by [new HooksContext()] and its
    current state. *)
Record HooksContext : Type := { hooks_oid : nat; hooks_state : HooksState }.

(** The fields of the class.  [csf_cache] and [story_cache] are the state
    of [processCSFFileWithCache] and [prepareStoryWithCache];
    [annotations_created] and [hooks_created] count the objects made by
    [normalizeProjectAnnotations] and [new HooksContext()], and serve as
    their identities; [imports] is the trace of the invocations of the
    loader, latest first.  [hooks] holds the hooks contexts of
    [this.hooks], each under the name of its own property.
    ([prepareMetaWithCache] is read by no method modelled here and is left
    out.) *)
Record StoryStore : Type := {
  storyIndex : StoryIndex;
  importFn : ModuleImportFn;
  imports : list (Path * Load);
  projectAnnotations : NormalizedProjectAnnotations;
  annotations_created : nat;
  globals : GlobalsStore;
  args : gmap string JSValue;
  hooks : gmap string HooksContext;
  hooks_created : nat;
  cachedCSFFiles : option (gmap string CSFFile);
  csf_cache : Memo (nat * string * string) CSFFile;
  story_cache : Memo (nat * nat * nat) PreparedStory
}.

Definition set_storyIndex (x : StoryIndex) (s : StoryStore) : StoryStore :=
  {| storyIndex := x; importFn := importFn s; imports := imports s;
     projectAnnotations := projectAnnotations s;
     annotations_created := annotations_created s; globals := globals s;
     args := args s; hooks := hooks s; hooks_created := hooks_created s;
     cachedCSFFiles := cachedCSFFiles s; csf_cache := csf_cache s;
     story_cache := story_cache s |}.

Definition set_importFn (x : ModuleImportFn) (s : StoryStore) : StoryStore :=
  {| storyIndex := storyIndex s; importFn := x; imports := imports s;
     projectAnnotations := projectAnnotations s;
     annotations_created := annotations_created s; globals := globals s;
     args := args s; hooks := hooks s; hooks_created := hooks_created s;
     cachedCSFFiles := cachedCSFFiles s; csf_cache := csf_cache s;
     story_cache := story_cache s |}.

Definition set_imports (x : list (Path * Load)) (s : StoryStore) : StoryStore :=
  {| storyIndex := storyIndex s; importFn := importFn s; imports := x;
     projectAnnotations := projectAnnotations s;
     annotations_created := annotations_created s; globals := globals s;
     args := args s; hooks := hooks s; hooks_created := hooks_created s;
     cachedCSFFiles := cachedCSFFiles s; csf_cache := csf_cache s;
     story_cache := story_cache s |}.

Definition set_annotations
    (x : NormalizedProjectAnnotations) (n : nat) (g : GlobalsStore)
    (s : StoryStore) : StoryStore :=
  {| storyIndex := storyIndex s; importFn := importFn s; imports := imports s;
     projectAnnotations := x; annotations_created := n; globals := g;
     args := args s; hooks := hooks s; hooks_created := hooks_created s;
     cachedCSFFiles := cachedCSFFiles s; csf_cache := csf_cache s;
     story_cache := story_cache s |}.

Definition set_args (x : gmap string JSValue) (s : StoryStore) : StoryStore :=
  {| storyIndex := storyIndex s; importFn := importFn s; imports := imports s;
     projectAnnotations := projectAnnotations s;
     annotations_created := annotations_created s; globals := globals s;
     args := x; hooks := hooks s; hooks_created := hooks_created s;
     cachedCSFFiles := cachedCSFFiles s; csf_cache := csf_cache s;
     story_cache := story_cache s |}.

Definition set_hooks
    (x : gmap string HooksContext) (n : nat) (s : StoryStore) : StoryStore :=
  {| storyIndex := storyIndex s; importFn := importFn s; imports := imports s;
     projectAnnotations := projectAnnotations s;
     annotations_created := annotations_created s; globals := globals s;
     args := args s; hooks := x; hooks_created := n;
     cachedCSFFiles := cachedCSFFiles s; csf_cache := csf_cache s;
     story_cache := story_cache s |}.

Definition set_cachedCSFFiles
    (x : option (gmap string CSFFile)) (s : StoryStore) : StoryStore :=
  {| storyIndex := storyIndex s; importFn := importFn s; imports := imports s;
     projectAnnotations := projectAnnotations s;
     annotations_created := annotations_created s; globals := globals s;
     args := args s; hooks := hooks s; hooks_created := hooks_created s;
     cachedCSFFiles := x; csf_cache := csf_cache s;
     story_cache := story_cache s |}.

Definition set_csf_cache
    (x : Memo (nat * string * string) CSFFile) (s : StoryStore) : StoryStore :=
  {| storyIndex := storyIndex s; importFn := importFn s; imports := imports s;
     projectAnnotations := projectAnnotations s;
     annotations_created := annotations_created s; globals := globals s;
     args := args s; hooks := hooks s; hooks_created := hooks_created s;
     cachedCSFFiles := cachedCSFFiles s; csf_cache := x;
     story_cache := story_cache s |}.

Definition set_story_cache
    (x : Memo (nat * nat * nat) PreparedStory) (s : StoryStore) : StoryStore :=
  {| storyIndex := storyIndex s; importFn := importFn s; imports := imports s;
     projectAnnotations := projectAnnotations s;
     annotations_created := annotations_created s; globals := globals s;
     args := args s; hooks := hooks s; hooks_created := hooks_created s;
     cachedCSFFiles := cachedCSFFiles s; csf_cache := csf_cache s;
     story_cache := x |}.

(** *** The monad of the methods *)

(** A method run on a store ends with a value or a thrown error, and with
    the store as the method left it. *)
Definition M (A : Type) : Type := StoryStore → (Error + A) * StoryStore.

Definition ret {A} (a : A) : M A := λ s, (inr a, s).
Definition throw {A} (e : Error) : M A := λ s, (inl e, s).
Definition bind {A B} (m : M A) (k : A → M B) : M B :=
  λ s, match m s with
       | (inl e, s') => (inl e, s')
       | (inr a, s') => k a s'
       end.

Notation "'let!' x ':=' m 'in' k" := (bind m (λ x, k))
  (at level 10, x name, m at level 100, k at level 200, only parsing).

(** [l.map(f)] for an [f] that may throw: left to right, stopping at the
    first throw. *)
Fixpoint mapM {A B} (f : A → M B) (l : list A) : M (list B) :=
  match l with
  | [] => ret []
  | x :: l' => let! y := f x in let! ys := mapM f l' in ret (y :: ys)
  end.

(** *** constructor *)

Definition new_StoryStore
    (storyIndex : StoryIndex) (importFn : ModuleImportFn)
    (projectAnnotations : Obj JSValue) : StoryStore :=
  {| storyIndex := storyIndex;
     importFn := importFn;
     imports := [];
     projectAnnotations :=
       {| oid := 0; props := normalizeProjectAnnotations projectAnnotations |};
     annotations_created := 1;
     globals := GlobalsStore_new (prop "globals" projectAnnotations)
                                 (prop "globalTypes" projectAnnotations);
     args := ∅;
     hooks := ∅;
     hooks_created := 0;
     cachedCSFFiles := None;
     csf_cache := memo_after_runtime;
     story_cache := memo_empty |}.

(** The CSF file made of what [processCSFFile] returned: the component
    annotations and the annotations of each story are new objects, numbered
    from [next]. *)
Definition new_CSFFile (next : nat) (moduleExports : ModuleExports)
    (processed : Obj JSValue * Obj (Obj JSValue)) : CSFFile :=
  {| meta := {| oid := next; props := processed.1 |};
     stories := imap (λ j kv, (kv.1, {| oid := S next + j; props := kv.2 |}))
                     processed.2;
     moduleExports := moduleExports |}.

(** [this.processCSFFileWithCache(moduleExports, importPath, title)] *)
Definition processCSFFileWithCache
    (moduleExports : ModuleExports) (importPath : Path) (title : ComponentTitle)
    (cache : Memo (nat * string * string) CSFFile)
    : CSFFile * Memo (nat * string * string) CSFFile :=
  memoize CSF_CACHE_SIZE (oid moduleExports, importPath, title)
    (λ next,
       let processed := processCSFFile moduleExports importPath title in
       (new_CSFFile next moduleExports processed, S next + length processed.2))
    cache.

(** The caches that calls of [processCSFFileWithCache] lead to. *)
Inductive cache_steps (cache0 : Memo (nat * string * string) CSFFile)
    : Memo (nat * string * string) CSFFile → Prop :=
  | cache_steps_refl : cache_steps cache0 cache0
  | cache_steps_call cache moduleExports importPath title :
      cache_steps cache0 cache →
      cache_steps cache0
        (processCSFFileWithCache moduleExports importPath title cache).2.

(** A CSF file that [processCSFFile] made of a module of the identity, the
    path and the title in [key]. *)
Definition processed_from (key : nat * string * string) (csfFile : CSFFile)
    : Prop :=
  ∃ moduleExports next,
    oid moduleExports = key.1.1
    ∧ csfFile = new_CSFFile next moduleExports
                  (processCSFFile moduleExports key.1.2 key.2).

(** Every CSF file in the cache was made of a module of the identity it is
    cached under. *)
Definition csf_cache_ok (cache : Memo (nat * string * string) CSFFile) : Prop :=
  ∀ key csfFile, (key, csfFile) ∈ memo_entries cache → processed_from key csfFile.

(** [this.prepareStoryWithCache(storyAnnotations, componentAnnotations,
    projectAnnotations)]: on a miss the prepared story is a new object. *)
Definition prepareStoryWithCache
    (storyAnnotations : StoryAnnotations)
    (componentAnnotations : ComponentAnnotations)
    (projectAnnotations : NormalizedProjectAnnotations)
    (cache : Memo (nat * nat * nat) PreparedStory)
    : PreparedStory * Memo (nat * nat * nat) PreparedStory :=
  memoize STORY_CACHE_SIZE
    (oid storyAnnotations, oid componentAnnotations, oid projectAnnotations)
    (λ next,
       ({| oid := next;
           props := prepareStory storyAnnotations componentAnnotations
                                 projectAnnotations |},
        S next))
    cache.

(** The caches that [n] calls of [prepareStoryWithCache] lead to. *)
Inductive story_calls (cache0 : Memo (nat * nat * nat) PreparedStory)
    : nat → Memo (nat * nat * nat) PreparedStory → Prop :=
  | story_calls_0 : story_calls cache0 0 cache0
  | story_calls_S n cache sa ca pa :
      story_calls cache0 n cache →
      story_calls cache0 (S n) (prepareStoryWithCache sa ca pa cache).2.

(** *** setProjectAnnotations *)

Definition setProjectAnnotations (projectAnnotations : Obj JSValue) : M unit :=
  λ s,
    (inr (),
     set_annotations
       {| oid := annotations_created s;
          props := normalizeProjectAnnotations projectAnnotations |}
       (S (annotations_created s))
       (GlobalsStore_set (prop "globals" projectAnnotations)
                         (prop "globalTypes" projectAnnotations) (globals s))
       s).

(** *** onStoriesChanged, storyIdToEntry and the loads *)

(** [async storyIdToEntry(storyId)] *)
Definition storyIdToEntry (storyId : StoryId) : M IndexEntry :=
  λ s, (StoryIndexStore_storyIdToEntry (storyIndex s) storyId, s).

(** The promise returned by one call of [loadCSFFileByStoryId]: rejected
    at some tick; suspended at [await this.importFn(importPath)], to resume
    at [tick] with the module; or fulfilled with the CSF file. *)
Inductive LoadPromise : Type :=
  | LoadRejected (tick : nat) (reason : Error)
  | LoadAwaiting (tick : nat) (moduleExports : ModuleExports)
                 (importPath : Path) (title : ComponentTitle)
  | LoadFulfilled (csfFile : CSFFile).

(** A call of [loadCSFFileByStoryId] at its [await], the loader having
    returned [load]: it rejects once the module has failed to load, and
    otherwise resumes with the module. *)
Definition at_await (load : Load) (importPath : Path) (title : ComponentTitle)
    : LoadPromise :=
  match outcome load with
  | inl reason => LoadRejected (S (settle load)) (LoaderFailure reason)
  | inr moduleExports =>
      LoadAwaiting (S (settle load)) moduleExports importPath title
  end.

(** [this.importFn(path)]: the invocation joins the trace. *)
Definition call_importFn (path : Path) (s : StoryStore) : Load * StoryStore :=
  let load := importFn s (imports s) path in
  (load, set_imports ((path, load) :: imports s) s).

(** [loadCSFFileByStoryId(storyId)] up to its [await]: the index lookup and
    the call of the loader.  A throw of the lookup rejects at tick 0, before
    any load settles. *)
Definition loadCSFFileByStoryId_call (storyId : StoryId) (s : StoryStore)
    : LoadPromise * StoryStore :=
  match StoryIndexStore_storyIdToEntry (storyIndex s) storyId with
  | inl e => (LoadRejected 0 e, s)
  | inr entry =>
      let started := call_importFn (importPath entry) s in
      (at_await started.1 (importPath entry) (title entry), started.2)
  end.

(** [loadCSFFileByStoryId] called on its own and awaited. *)
Definition loadCSFFileByStoryId (storyId : StoryId) : M CSFFile :=
  λ s,
    let started := loadCSFFileByStoryId_call storyId s in
    match started.1 with
    | LoadRejected _ e => (inl e, started.2)
    | LoadAwaiting _ moduleExports importPath title =>
        let '(csfFile, cache) :=
          processCSFFileWithCache moduleExports importPath title
                                  (csf_cache started.2) in
        (inr csfFile, set_csf_cache cache started.2)
    | LoadFulfilled csfFile => (inr csfFile, started.2)
    end.

(** The suspended load that settles first: its position and tick.  Of two
    loads settling at the same tick the one started first resumes first. *)
Fixpoint earliest (l : list (Path * LoadPromise)) : option (nat * nat) :=
  match l with
  | [] => None
  | (_, p) :: l' =>
      let later := prod_map S id <$> earliest l' in
      match p with
      | LoadAwaiting t _ _ _ =>
          match later with
          | Some (i, t') => if decide (t ≤ t') then Some (0, t) else Some (i, t')
          | None => Some (0, t)
          end
      | _ => later
      end
  end.

(** The load at position [i] resumes after its [await] and runs to its
    end. *)
Definition resume (i : nat) (l : list (Path * LoadPromise))
    (cache : Memo (nat * string * string) CSFFile)
    : list (Path * LoadPromise) * Memo (nat * string * string) CSFFile :=
  match l !! i with
  | Some (path, LoadAwaiting _ moduleExports importPath title) =>
      let '(csfFile, cache') :=
        processCSFFileWithCache moduleExports importPath title cache in
      (<[i := (path, LoadFulfilled csfFile)]> l, cache')
  | _ => (l, cache)
  end.

(** The event loop: the suspended loads resume one at a time, in the order
    in which their modules arrive. *)
Fixpoint settle_loads (fuel : nat) (l : list (Path * LoadPromise))
    (cache : Memo (nat * string * string) CSFFile)
    : list (Path * LoadPromise) * Memo (nat * string * string) CSFFile :=
  match fuel with
  | 0 => (l, cache)
  | S fuel' =>
      match earliest l with
      | None => (l, cache)
      | Some (i, _) =>
          let '(l', cache') := resume i l cache in
          settle_loads fuel' l' cache'
      end
  end.

Definition is_awaiting (p : LoadPromise) : bool :=
  match p with
  | LoadAwaiting _ _ _ _ => true
  | _ => false
  end.

(** How an entry of the promise list can differ once the event loop has
    run from [cache0]: not at all, or a suspended load has become a fulfilled
    one, with the CSF file that [processCSFFileWithCache] returned for its
    module when it resumed. *)
Definition resumed (cache0 : Memo (nat * string * string) CSFFile)
    (before after : Path * LoadPromise) : Prop :=
  before.1 = after.1
  ∧ (after.2 = before.2
     ∨ ∃ t moduleExports importPath title cache,
         before.2 = LoadAwaiting t moduleExports importPath title
         ∧ cache_steps cache0 cache
         ∧ after.2
           = LoadFulfilled
               (processCSFFileWithCache moduleExports importPath title cache).1).

(** The number of loads still suspended. *)
Fixpoint awaiting_count (l : list (Path * LoadPromise)) : nat :=
  match l with
  | [] => 0
  | (_, p) :: l' => (if is_awaiting p then 1 else 0) + awaiting_count l'
  end.

(** The rejection that happens first, with its tick. *)
Fixpoint first_rejection (l : list (Path * LoadPromise)) : option (nat * Error) :=
  match l with
  | [] => None
  | (_, p) :: l' =>
      let later := first_rejection l' in
      match p with
      | LoadRejected t e =>
          match later with
          | Some (t', e') => if decide (t ≤ t') then Some (t, e) else Some (t', e')
          | None => Some (t, e)
          end
      | _ => later
      end
  end.

(** [Promise.all(csfFilePromiseList)]: rejected with the reason of the
    first promise to reject, else fulfilled with the values in the order of
    the list. *)
Definition Promise_all (l : list (Path * LoadPromise))
    : Error + list (Path * CSFFile) :=
  match first_rejection l with
  | Some (_, e) => inl e
  | None =>
      inr (omap (λ pp, match pp.2 with
                       | LoadFulfilled csfFile => Some (pp.1, csfFile)
                       | _ => None
                       end) l)
  end.

(** The [importPaths] object built by [loadAllCSFFiles]. *)
Definition importPaths_of (index : StoryIndex) : Obj StoryId :=
  foldl (λ importPaths kv, obj_set (importPath kv.2) kv.1 importPaths)
        [] (entries index).

(** [entries.map(([importPath, storyId]) =>
    this.loadCSFFileByStoryId(storyId).then(...))]: the calls are made in
    order, each up to its [await], and each promise is paired with its path by
    [.then]. *)
Fixpoint start_loads (importPaths : list (Path * StoryId)) (s : StoryStore)
    : list (Path * LoadPromise) * StoryStore :=
  match importPaths with
  | [] => ([], s)
  | (importPath, storyId) :: rest =>
      let started := loadCSFFileByStoryId_call storyId s in
      let others := start_loads rest started.2 in
      ((importPath, started.1) :: others.1, others.2)
  end.

(** The promise list of [loadAllCSFFiles]: one call of
    [loadCSFFileByStoryId] per entry of [importPaths]. *)
Definition csfFilePromiseList (s : StoryStore)
    : list (Path * LoadPromise) * StoryStore :=
  start_loads (importPaths_of (storyIndex s)) s.

Definition loadAllCSFFiles : M (gmap string CSFFile) :=
  λ s,
    let started := csfFilePromiseList s in
    let '(settled, cache) :=
      settle_loads (length started.1) started.1 (csf_cache started.2) in
    match Promise_all settled with
    | inl e => (inl e, set_csf_cache cache started.2)
    | inr list =>
        (inr (foldl (λ acc pc, <[pc.1 := pc.2]> acc) ∅ list),
         set_csf_cache cache started.2)
    end.

Definition cacheAllCSFFiles : M unit :=
  let! files := loadAllCSFFiles in
  λ s, (inr (), set_cachedCSFFiles (Some files) s).

(** The first two lines of [onStoriesChanged]: the loader and the entries
    of the index are replaced when given. *)
Definition replaced (importFn : option ModuleImportFn)
    (storyIndex : option StoryIndex) (s : StoryStore) : StoryStore :=
  let s1 := match importFn with
            | Some f => set_importFn f s
            | None => s
            end in
  match storyIndex with
  | Some index => set_storyIndex {| entries := entries index |} s1
  | None => s1
  end.

Definition onStoriesChanged
    (importFn : option ModuleImportFn) (storyIndex : option StoryIndex) : M unit :=
  λ s,
    let s2 := replaced importFn storyIndex s in
    match cachedCSFFiles s2 with
    | Some _ => cacheAllCSFFiles s2
    | None => (inr (), s2)
    end.

(** *** storyFromCSFFile and its callers *)

(** [this.hooks[story.id] = this.hooks[story.id] || new HooksContext()].
    Where the registry has no property of the name and the name is one
    inherited from [Object.prototype], the read finds that member, which is
    truthy: no context is made, and the member is what is assigned back. *)
Definition ensure_HooksContext (story : PreparedStory) (s : StoryStore)
    : StoryStore :=
  match hooks s !! story_id story with
  | Some context =>
      set_hooks (<[story_id story := context]> (hooks s)) (hooks_created s) s
  | None =>
      if inherited (story_id story) then s
      else
        set_hooks
          (<[story_id story :=
               {| hooks_oid := hooks_created s; hooks_state := HooksState_new |}]>
             (hooks s))
          (S (hooks_created s)) s
  end.

(** [csfFile.stories[storyId]] is read through the prototype chain: a
    name inherited from [Object.prototype] passes the guard. *)
Definition storyFromCSFFile (storyId : StoryId) (csfFile : CSFFile)
    : M PreparedStory :=
  λ s,
    match obj_read storyId (stories csfFile) with
    | None => (inl (MissingStoryFromCsfFileError storyId), s)
    | Some storyAnnotations =>
        let componentAnnotations := meta csfFile in
        let '(story, cache) :=
          prepareStoryWithCache storyAnnotations componentAnnotations
                                (projectAnnotations s) (story_cache s) in
        let s1 := set_story_cache cache s in
        let s2 := set_args (ArgsStore_setInitial story (args s1)) s1 in
        (inr story, ensure_HooksContext story s2)
    end.

Definition loadStory (storyId : StoryId) : M PreparedStory :=
  let! csfFile := loadCSFFileByStoryId storyId in
  storyFromCSFFile storyId csfFile.

Definition componentStoriesFromCSFFile (csfFile : CSFFile)
    : M (list PreparedStory) :=
  λ s,
    mapM (λ storyId, storyFromCSFFile storyId csfFile)
         (filter (λ storyId, is_Some (obj_read storyId (stories csfFile)))
                 (obj_keys (entries (storyIndex s))))
         s.

(** [this.hooks[story.id].clean()]: without a context of the name the
    call is a [TypeError], for [undefined] has no properties and a member of
    [Object.prototype] has no method [clean]. *)
Definition cleanupStory (story : PreparedStory) : M unit :=
  λ s,
    match hooks s !! story_id story with
    | Some context =>
        (inr (),
         set_hooks
           (<[story_id story :=
                {| hooks_oid := hooks_oid context;
                   hooks_state := HooksState_clean (hooks_state context) |}]>
              (hooks s))
           (hooks_created s) s)
    | None => (inl TypeError, s)
    end.

(** *** extract *)

Record ExtractOptions : Type := { includeDocsOnly : option bool }.

(** [story.parameters.docsOnly]: reading a property of [undefined] or
    [null] throws; on any other value without that property it is
    [undefined]. *)
Definition parameters_docsOnly (story : PreparedStory) : Error + JSValue :=
  match prop "parameters" (props story) with
  | JUndefined | JNull => inl TypeError
  | JObj parameters => inr (prop "docsOnly" parameters)
  | _ => inr JUndefined
  end.

(** [typeof value === 'function'] *)
Definition is_function (value : JSValue) : bool :=
  match value with
  | JFun _ => true
  | _ => false
  end.

(** The inner [reduce] of [extract], over [Object.entries(story)]. *)
Definition extract_story (story : PreparedStory) : Obj JSValue :=
  foldl (λ storyAcc kv,
           if decide (kv.1 = "moduleExport") then storyAcc
           else match kv.2 with
                | JFun _ => storyAcc
                | JArr value => obj_set kv.1 (JArr (js_sort value)) storyAcc
                | value => obj_set kv.1 value storyAcc
                end)
        [("args", initialArgs story)] (props story).

(** The outer [reduce] of [extract], over the entries of the index that
    are left.  Where [cachedCSFFiles] has no property of the path,
    [cachedCSFFiles[importPath]] is [undefined] or a member of
    [Object.prototype], and reading a key of its [stories], which is
    [undefined], is a [TypeError]. *)
Fixpoint extract_reduce (options : ExtractOptions)
    (cachedCSFFiles : gmap string CSFFile)
    (rest : list (StoryId * IndexEntry)) (acc : Obj (Obj JSValue))
    : M (Obj (Obj JSValue)) :=
  match rest with
  | [] => ret acc
  | (storyId, entry) :: rest' =>
      match type entry with
      | type_docs => extract_reduce options cachedCSFFiles rest' acc
      | type_story =>
          match cachedCSFFiles !! importPath entry with
          | None => throw TypeError
          | Some csfFile =>
              let! story := storyFromCSFFile storyId csfFile in
              match includeDocsOnly options with
              | Some true =>
                  extract_reduce options cachedCSFFiles rest'
                                 (obj_set storyId (extract_story story) acc)
              | _ =>
                  match parameters_docsOnly story with
                  | inl e => throw e
                  | inr docsOnly =>
                      if truthy docsOnly
                      then extract_reduce options cachedCSFFiles rest' acc
                      else extract_reduce options cachedCSFFiles rest'
                             (obj_set storyId (extract_story story) acc)
                  end
              end
          end
      end
  end.

Definition extract (options : option ExtractOptions) : M (Obj (Obj JSValue)) :=
  λ s,
    let options := default {| includeDocsOnly := Some false |} options in
    match cachedCSFFiles s with
    | None => (inl CalledExtractOnStoreError, s)
    | Some cachedCSFFiles =>
        extract_reduce options cachedCSFFiles (entries (storyIndex s)) [] s
    end.


(** *** fromId *)

(** The [storyFn] closure of a bound story. *)
Definition storyFn : JSValue :=
  JFun "(update) => story.unboundStoryFn({ ...context, ...update })".

(** [fromId(storyId)]: [None] is [null], [Some] the own properties of the
    bound story. *)
Definition fromId (storyId : StoryId) : M (option (Obj JSValue)) :=
  λ s,
    match cachedCSFFiles s with
    | None =>
        (inl (UsageError
                "Cannot call fromId/raw() unless you call cacheAllCSFFiles() first."),
         s)
    | Some cachedCSFFiles =>
        match StoryIndexStore_storyIdToEntry (storyIndex s) storyId with
        | inl _ => (inr None, s)
        | inr entry =>
            match cachedCSFFiles !! importPath entry with
            | None => (inl TypeError, s)
            | Some csfFile =>
                (let! story := storyFromCSFFile storyId csfFile in
                 ret (Some (obj_set "storyFn" storyFn (props story)))) s
            end
        end
    end.

(** *** Calls *)

(** The calls a client can make on a store.  The remaining public methods
    write nothing these do not: [loadEntry] resumes
    [loadCSFFileByStoryId] calls, [getSetStoriesPayload] and
    [getStoriesJsonData] read [extract({ includeDocsOnly: true })], [raw]
    runs [extract()] and then [fromId], [getStoryContext] only reads. *)
Inductive Call : Type :=
  | CallSetProjectAnnotations (projectAnnotations : Obj JSValue)
  | CallOnStoriesChanged (importFn : option ModuleImportFn)
                         (storyIndex : option StoryIndex)
  | CallStoryIdToEntry (storyId : StoryId)
  | CallLoadCSFFileByStoryId (storyId : StoryId)
  | CallLoadAllCSFFiles
  | CallCacheAllCSFFiles
  | CallLoadStory (storyId : StoryId)
  | CallStoryFromCSFFile (storyId : StoryId) (csfFile : CSFFile)
  | CallComponentStoriesFromCSFFile (csfFile : CSFFile)
  | CallCleanupStory (story : PreparedStory)
  | CallExtract (options : option ExtractOptions)
  | CallFromId (storyId : StoryId).

(** How a method ended, its value forgotten. *)
Definition ended {A} (r : (Error + A) * StoryStore) : option Error * StoryStore :=
  (match r.1 with inl e => Some e | inr _ => None end, r.2).

(** A call run on a store: the error it threw, if any, and the store
    after it. *)
Definition exec (c : Call) (s : StoryStore) : option Error * StoryStore :=
  match c with
  | CallSetProjectAnnotations pa => ended (setProjectAnnotations pa s)
  | CallOnStoriesChanged f index => ended (onStoriesChanged f index s)
  | CallStoryIdToEntry storyId => ended (storyIdToEntry storyId s)
  | CallLoadCSFFileByStoryId storyId => ended (loadCSFFileByStoryId storyId s)
  | CallLoadAllCSFFiles => ended (loadAllCSFFiles s)
  | CallCacheAllCSFFiles => ended (cacheAllCSFFiles s)
  | CallLoadStory storyId => ended (loadStory storyId s)
  | CallStoryFromCSFFile storyId csfFile =>
      ended (storyFromCSFFile storyId csfFile s)
  | CallComponentStoriesFromCSFFile csfFile =>
      ended (componentStoriesFromCSFFile csfFile s)
  | CallCleanupStory story => ended (cleanupStory story s)
  | CallExtract options => ended (extract options s)
  | CallFromId storyId => ended (fromId storyId s)
  end.

(** The stores a client can reach from a new one. *)
Inductive reachable : StoryStore → Prop :=
  | reachable_new storyIndex importFn projectAnnotations :
      reachable (new_StoryStore storyIndex importFn projectAnnotations)
  | reachable_exec c s :
      reachable s → reachable (exec c s).2.

(** Every story in the cache of [prepareStoryWithCache] was made by
    [prepareStory]. *)
Definition prepared_stories (s : StoryStore) : Prop :=
  ∀ key story,
    (key, story) ∈ memo_entries (story_cache s) →
    ∃ sa ca pa, props story = prepareStory sa ca pa.

(** What the type [PreparedStory] says of a story, as far as [extract]
    depends on it: an object has no property twice, [initialArgs] is an
    object, and a prepared story has no [args] of its own. *)
Definition PreparedStory_typed (story : PreparedStory) : Prop :=
  obj_wf (props story)
  ∧ obj_get "args" (props story) = None
  ∧ ∃ own, initialArgs story = JObj own.

(** The registry holds every hooks context ever created, each under one
    identifier: as many entries as contexts created, and no context under
    two identifiers. *)
Definition single_handles (s : StoryStore) : Prop :=
  size (hooks s) = hooks_created s
  ∧ (∀ id context, hooks s !! id = Some context →
                   hooks_oid context < hooks_created s)
  ∧ (∀ id1 id2 context1 context2,
       hooks s !! id1 = Some context1 → hooks s !! id2 = Some context2 →
       hooks_oid context1 = hooks_oid context2 → id1 = id2).

(** Under a name inherited from [Object.prototype] the registry holds no
    context. *)
Definition no_inherited_handles (s : StoryStore) : Prop :=
  ∀ id, inherited id = true → hooks s !! id = None.

End Store.

(** ** The remaining methods *)

(** [loadEntry], [getSetStoriesPayload], [getStoriesJsonData] and [raw],
    built from the methods above.  ([deprecate] only logs a warning.) *)

(** Modelled from the spec: [StoryIndexStore.importPathToEntry] is not part
    of this file; "given a backing-module path, returns the first entry that
    uses it".  The spec leaves open what happens when no entry uses the
    path; the accessor is taken to throw, as its other lookup does, a plain
    error naming the path. *)
Definition StoryIndexStore_importPathToEntry
    (index : StoryIndex) (importPath0 : Path) : Error + IndexEntry :=
  match list_find (λ kv, importPath kv.2 = importPath0) (entries index) with
  | Some (_, (_, entry)) => inr entry
  | None => inl (UsageError importPath0)
  end.

(** lodash [pick(object, paths)] for paths that are plain property names:
    the properties of [object] named in [paths], in the order of [paths]. *)
Definition pick (paths : list string) (object : Obj JSValue) : Obj JSValue :=
  omap (λ path, (λ value, (path, value)) <$> obj_get path object) paths.

(** [const allowedParameters = [...]] in [getStoriesJsonData] *)
Definition allowedParameters : list string :=
  ["fileName"; "docsOnly"; "framework"; "__id"; "__isArgsStory"].

(** [pick(story.parameters, allowedParameters)]: nothing is picked from
    [undefined] or [null], and none of the allowed names is a property of a
    string, a boolean, an array or a function. *)
Definition pick_parameters (parameters : JSValue) : Obj JSValue :=
  match parameters with
  | JObj own => pick allowedParameters own
  | _ => []
  end.

(** [this.storyIndex.entries[id].importPath], the entry read through the
    prototype chain: a member of [Object.prototype] has no [importPath];
    [None] is the [TypeError] of destructuring [undefined]. *)
Definition entries_importPath (index : StoryIndex) (id : string)
    : option JSValue :=
  match obj_get id (entries index) with
  | Some entry => Some (JStr (importPath entry))
  | None => if inherited id then Some JUndefined else None
  end.

(** The iteratee of [mapValues] in [getStoriesJsonData], for one extracted
    story. *)
Definition V3CompatIndexEntry_of (index : StoryIndex) (story : Obj JSValue)
    : Error + Obj JSValue :=
  match entries_importPath index (ToString (prop "id" story)) with
  | None => inl TypeError
  | Some importPath =>
      inr (obj_set "parameters"
             (JObj (obj_set "fileName" importPath
                      (pick_parameters (prop "parameters" story))))
             (obj_set "story" (prop "name" story)
                (obj_set "kind" (prop "title" story)
                   (obj_set "importPath" importPath
                      (pick ["id"; "name"; "title"] story)))))
  end.

(** lodash [mapValues(object, iteratee)] for an iteratee that may throw:
    the same keys in the same order, stopping at the first throw. *)
Fixpoint mapValues {A B} (iteratee : A → Error + B) (object : Obj A)
    : Error + Obj B :=
  match object with
  | [] => inr []
  | (key, value) :: rest =>
      match iteratee value with
      | inl e => inl e
      | inr value' =>
          match mapValues iteratee rest with
          | inl e => inl e
          | inr rest' => inr ((key, value') :: rest')
          end
      end
  end.

(** The [reduce] of [getSetStoriesPayload] over [Object.values(stories)]:
    [acc[title] = {}]. *)
Definition kindParameters_of (stories : Obj (Obj JSValue)) : Obj (Obj JSValue) :=
  foldl (λ acc story, obj_set (ToString (prop "title" story)) [] acc)
        [] stories.*2.

(** What [getSetStoriesPayload] returns. *)
Record SetStoriesPayload : Type := {
  payload_v : nat;
  payload_globals : JSValue;
  payload_globalParameters : Obj JSValue;
  payload_kindParameters : Obj (Obj JSValue);
  payload_stories : Obj (Obj JSValue)
}.

(** What [getStoriesJsonData] returns. *)
Record StoryIndexV3 : Type := {
  index_v : nat;
  index_stories : Obj (Obj JSValue)
}.

(** What [loadEntry] resolves to. *)
Record EntryExports : Type := {
  entryExports : ModuleExports;
  csfFiles : list CSFFile
}.

Section Remaining.
Context `{!Collaborators}.

(** [globals.get()], of the collaborator [GlobalsStore]. *)
Variable GlobalsStore_get : GlobalsStore → JSValue.

Notation "'let!' x ':=' m 'in' k" := (bind m (λ x, k))
  (at level 10, x name, m at level 100, k at level 200, only parsing).

(** *** loadEntry *)

(** The [map] over [storyImports] in [loadEntry]: the promises of the
    calls of [loadCSFFileByStoryId] made until a lookup throws, each with the
    import it is for, and the error thrown, if any. *)
Fixpoint storyImports_calls (storyImports : list Path) (s : StoryStore)
    : list (Path * LoadPromise) * option Error * StoryStore :=
  match storyImports with
  | [] => ([], None, s)
  | storyImportPath :: rest =>
      match StoryIndexStore_importPathToEntry (storyIndex s) storyImportPath with
      | inl e => ([], Some e, s)
      | inr firstStoryEntry =>
          let started :=
            loadCSFFileByStoryId_call (entry_id firstStoryEntry) s in
          let others := storyImports_calls rest started.2 in
          ((storyImportPath, started.1) :: others.1.1, others.1.2, others.2)
      end
  end.

(** [loadEntry(id)].  The loader is invoked for the entry's own module
    before the [map] runs.  A throw inside the [map] rejects the call at
    once; the loads started before it still run to their end.  Otherwise
    [Promise.all] races the promise of [importFn], first in the list, with
    the promises of the CSF files.  A call of [loadCSFFileByStoryId] whose
    module settles at tick [t] rejects at [S t], after its [await]; the
    promise of [importFn] itself, which settles at [settle load], is ahead
    of every rejection at [S (settle load)] or later and behind the
    rejections before that, those of failed lookups (tick 0) included. *)
Definition loadEntry (id : StoryId) : M EntryExports :=
  λ s,
    match StoryIndexStore_storyIdToEntry (storyIndex s) id with
    | inl e => (inl e, s)
    | inr entry =>
        let storyImports := match type entry with
                            | type_docs => storiesImports entry
                            | type_story => []
                            end in
        let own := call_importFn (importPath entry) s in
        let load := own.1 in
        let calls := storyImports_calls storyImports own.2 in
        let promises := calls.1.1 in
        let '(settled, cache) :=
          settle_loads (length promises) promises (csf_cache calls.2) in
        let s' := set_csf_cache cache calls.2 in
        match calls.1.2 with
        | Some e => (inl e, s')
        | None =>
            match outcome load, first_rejection settled with
            | inl reason, Some (t, e) =>
                if decide (S (settle load) ≤ t)
                then (inl (LoaderFailure reason), s')
                else (inl e, s')
            | inl reason, None => (inl (LoaderFailure reason), s')
            | inr _, Some (_, e) => (inl e, s')
            | inr moduleExports, None =>
                (inr {| entryExports := moduleExports;
                        csfFiles :=
                          omap (λ pp, match pp.2 with
                                      | LoadFulfilled csfFile => Some csfFile
                                      | _ => None
                                      end) settled |},
                 s')
            end
        end
    end.

(** *** getSetStoriesPayload, getStoriesJsonData and raw *)

Definition getSetStoriesPayload : M SetStoriesPayload :=
  let! stories := extract (Some {| includeDocsOnly := Some true |}) in
  λ s,
    (inr {| payload_v := 2;
            payload_globals := GlobalsStore_get (globals s);
            payload_globalParameters := [];
            payload_kindParameters := kindParameters_of stories;
            payload_stories := stories |},
     s).

Definition getStoriesJsonData : M StoryIndexV3 :=
  let! value := getSetStoriesPayload in
  λ s,
    match mapValues (V3CompatIndexEntry_of (storyIndex s))
                    (payload_stories value) with
    | inl e => (inl e, s)
    | inr stories => (inr {| index_v := 3; index_stories := stories |}, s)
    end.

(** [raw()]: [.filter(Boolean)] drops the [null]s of [fromId]. *)
Definition raw : M (list (Obj JSValue)) :=
  let! stories := extract None in
  let! bound := mapM (λ story, fromId (ToString (prop "id" story))) stories.*2 in
  ret (omap id bound).

(** *** Stores over time *)

(** The stores that further calls lead to from [s]. *)
Inductive later (s : StoryStore) : StoryStore → Prop :=
  | later_refl : later s s
  | later_exec c s' : later s s' → later s (exec c s').2.

(** The project annotations in use were made by the store, every story
    in the cache was prepared for project annotations made so far, and is an
    object the cache made. *)
Definition story_cache_fresh (s : StoryStore) : Prop :=
  oid (projectAnnotations s) < annotations_created s
  ∧ ∀ key story,
      (key, story) ∈ memo_entries (story_cache s) →
      key.2 < annotations_created s ∧ oid story < memo_next (story_cache s).

(** Neither cache holds a key twice or more entries than its size. *)
Definition caches_bounded (s : StoryStore) : Prop :=
  NoDup (memo_entries (csf_cache s)).*1
  ∧ length (memo_entries (csf_cache s)) ≤ N.to_nat CSF_CACHE_SIZE
  ∧ NoDup (memo_entries (story_cache s)).*1
  ∧ length (memo_entries (story_cache s)) ≤ N.to_nat STORY_CACHE_SIZE.

(** What [storyFromCSFFile] leaves alone and what it only adds to: [s']
    differs from [s] in the story cache, in args entries that [s] does not
    have and in hooks contexts that [s] does not have. *)
Definition extends (s s' : StoryStore) : Prop :=
  storyIndex s' = storyIndex s
  ∧ importFn s' = importFn s
  ∧ imports s' = imports s
  ∧ projectAnnotations s' = projectAnnotations s
  ∧ annotations_created s' = annotations_created s
  ∧ globals s' = globals s
  ∧ cachedCSFFiles s' = cachedCSFFiles s
  ∧ csf_cache s' = csf_cache s
  ∧ (∀ id value, args s !! id = Some value → args s' !! id = Some value)
  ∧ (∀ id context, hooks s !! id = Some context →
                   hooks s' !! id = Some context).


(** The calls of the remaining public methods, and the stores a client
    can reach with every public method of the class. *)
Inductive RemainingCall : Type :=
  | CallLoadEntry (id : StoryId)
  | CallGetSetStoriesPayload
  | CallGetStoriesJsonData
  | CallRaw.

Definition exec_remaining (c : RemainingCall) (s : StoryStore)
    : option Error * StoryStore :=
  match c with
  | CallLoadEntry id => ended (loadEntry id s)
  | CallGetSetStoriesPayload => ended (getSetStoriesPayload s)
  | CallGetStoriesJsonData => ended (getStoriesJsonData s)
  | CallRaw => ended (raw s)
  end.

Inductive reachable_public : StoryStore → Prop :=
  | public_new storyIndex importFn projectAnnotations :
      reachable_public (new_StoryStore storyIndex importFn projectAnnotations)
  | public_exec c s :
      reachable_public s → reachable_public (exec c s).2
  | public_exec_remaining c s :
      reachable_public s → reachable_public (exec_remaining c s).2.
End Remaining.

(** ** A concrete project *)

(** One instance of the collaborators and a small project, used to run the
    model. *)
Module Example.
(** Each named export of a module is a story, identified by its export
    name; the component annotations carry the title. *)
Definition example_processCSFFile
    (moduleExports : ModuleExports) (importPath : Path) (title : ComponentTitle)
    : Obj JSValue * Obj (Obj JSValue) :=
  ([("title", JStr title)],
   omap (λ kv, if decide (kv.1 = "default") then None
               else Some (kv.1,
                          ("id", JStr kv.1) ::
                          match kv.2 with JObj own => own | _ => [] end))
        (props moduleExports)).

Definition object_or_empty (v : JSValue) : JSValue :=
  match v with JObj own => JObj own | _ => JObj [] end.

Definition array_or_empty (v : JSValue) : JSValue :=
  match v with JArr elems => JArr elems | _ => JArr [] end.

Definition example_prepareStory
    (storyAnnotations : StoryAnnotations)
    (componentAnnotations : ComponentAnnotations)
    (projectAnnotations : NormalizedProjectAnnotations) : Obj JSValue :=
  [("id", prop "id" (props storyAnnotations));
   ("title", prop "title" (props componentAnnotations));
   ("name", prop "name" (props storyAnnotations));
   ("parameters", object_or_empty (prop "parameters" (props storyAnnotations)));
   ("initialArgs", object_or_empty (prop "args" (props storyAnnotations)));
   ("tags", array_or_empty (prop "tags" (props storyAnnotations)));
   ("moduleExport", JObj (props storyAnnotations));
   ("unboundStoryFn", JFun "(context) => render(context.args)")].

Definition example_collaborators : Collaborators := {|
  GlobalsStore := JSValue * JSValue;
  GlobalsStore_new globals globalTypes := (globals, globalTypes);
  GlobalsStore_set globals globalTypes _ := (globals, globalTypes);
  HooksState := list string;
  HooksState_new := [];
  HooksState_clean _ := [];
  normalizeProjectAnnotations projectAnnotations := projectAnnotations;
  processCSFFile := example_processCSFFile;
  prepareStory := example_prepareStory
|}.

#[local] Existing Instance example_collaborators.

(** The index of the spec's scenario, with a docs entry and a second
    file added. *)
Definition button_entry : IndexEntry :=
  {| entry_id := "s1"; title := "Button"; name := "Primary";
     importPath := "Button.stories"; type := type_story; storiesImports := [] |}.

Definition button2_entry : IndexEntry :=
  {| entry_id := "s2"; title := "Button"; name := "Secondary";
     importPath := "Button.stories"; type := type_story; storiesImports := [] |}.

Definition intro_entry : IndexEntry :=
  {| entry_id := "intro"; title := "Intro"; name := "Docs";
     importPath := "Intro.mdx"; type := type_docs;
     storiesImports := ["Button.stories"] |}.

Definition example_index : StoryIndex :=
  {| entries := [("s1", button_entry); ("s2", button2_entry);
                 ("intro", intro_entry)] |}.

Definition button_module : ModuleExports :=
  {| oid := 0;
     props := [("default", JObj [("component", JFun "function Button() {}")]);
               ("s1", JObj [("name", JStr "Primary");
                            ("args", JObj [("label", JStr "Hello")]);
                            ("tags", JArr [JStr "b"; JUndefined; JStr "a"])]);
               ("s2", JObj [("name", JStr "Secondary");
                            ("parameters", JObj [("docsOnly", JBool true)])])] |}.

Definition intro_module : ModuleExports :=
  {| oid := 1; props := [("default", JFun "function MDXContent() {}")] |}.

Definition example_importFn : ModuleImportFn :=
  λ _ path,
    if decide (path = "Button.stories")
    then {| settle := 2; outcome := inr button_module |}
    else if decide (path = "Intro.mdx")
    then {| settle := 1; outcome := inr intro_module |}
    else {| settle := 0; outcome := inl "Cannot find module" |}.

Definition example_store : StoryStore :=
  new_StoryStore example_index example_importFn [("globals", JObj [])].

(** The same project after [cacheAllCSFFiles]. *)
Definition example_cached_store : StoryStore :=
  (cacheAllCSFFiles example_store).2.

(** The CSF file of [Button.stories] and its first story, resolved on the
    new store. *)
Definition button_csfFile : CSFFile :=
  (processCSFFileWithCache button_module "Button.stories" "Button"
                           memo_after_runtime).1.

Definition primary_story : PreparedStory :=
  (prepareStoryWithCache
     {| oid := 13;
        props := [("id", JStr "s1"); ("name", JStr "Primary");
                  ("args", JObj [("label", JStr "Hello")]);
                  ("tags", JArr [JStr "b"; JUndefined; JStr "a"])] |}
     (meta button_csfFile) (projectAnnotations example_store)
     memo_empty).1.

Definition example_resolved_store : StoryStore :=
  (storyFromCSFFile "s1" button_csfFile example_store).2.

(** A loader that is offline. *)
Definition offline_importFn : ModuleImportFn :=
  λ _ _, {| settle := 0; outcome := inl "offline" |}.

Definition offline_store : StoryStore :=
  new_StoryStore example_index offline_importFn [].

(** An index that lists a story [s3] in [Button.stories], which exports
    none of that name. *)
Definition mismatched_index : StoryIndex :=
  {| entries :=
       [("s3", {| entry_id := "s3"; title := "Button"; name := "Tertiary";
                  importPath := "Button.stories"; type := type_story;
                  storiesImports := [] |})] |}.

Definition mismatched_store : StoryStore :=
  new_StoryStore mismatched_index example_importFn [].


(** The globals store of the example holds the globals and their types;
    [get()] returns the globals. *)
Definition example_get (globals : GlobalsStore) : JSValue := globals.1.



(** An index that lists, in [Button.stories], a story named as a member of
    [Object.prototype] is. *)
Definition inherited_index : StoryIndex :=
  {| entries :=
       [("toString",
         {| entry_id := "toString"; title := "Button"; name := "To String";
            importPath := "Button.stories"; type := type_story;
            storiesImports := [] |})] |}.

Definition inherited_store : StoryStore :=
  new_StoryStore inherited_index example_importFn [].

Definition inherited_cached_store : StoryStore :=
  (cacheAllCSFFiles inherited_store).2.

(** A loader that finds [Button.stories] on its first invocation only. *)
Definition flaky_importFn : ModuleImportFn :=
  λ trace path,
    match trace with
    | [] => example_importFn trace path
    | _ :: _ => {| settle := 0; outcome := inl "Failed to fetch" |}
    end.

Definition flaky_store : StoryStore :=
  new_StoryStore example_index flaky_importFn [].

(** A [prepareStory] that gives every story the identifier [other]. *)
Definition renaming_prepareStory
    (storyAnnotations : StoryAnnotations)
    (componentAnnotations : ComponentAnnotations)
    (projectAnnotations : NormalizedProjectAnnotations) : Obj JSValue :=
  [("id", JStr "other");
   ("name", prop "name" (props storyAnnotations));
   ("parameters", JObj []);
   ("initialArgs", object_or_empty (prop "args" (props storyAnnotations)))].

Definition renaming_collaborators : Collaborators := {|
  GlobalsStore := JSValue * JSValue;
  GlobalsStore_new globals globalTypes := (globals, globalTypes);
  GlobalsStore_set globals globalTypes _ := (globals, globalTypes);
  HooksState := list string;
  HooksState_new := [];
  HooksState_clean _ := [];
  normalizeProjectAnnotations projectAnnotations := projectAnnotations;
  processCSFFile := example_processCSFFile;
  prepareStory := renaming_prepareStory
|}.

Definition renaming_store : @StoryStore renaming_collaborators :=
  @new_StoryStore renaming_collaborators example_index example_importFn [].

Definition renaming_csfFile : CSFFile :=
  (@processCSFFileWithCache renaming_collaborators
     button_module "Button.stories" "Button" memo_after_runtime).1.

(** The record of [extract()] for the first story. *)
Definition primary_record : Obj JSValue :=
  [("args", JObj [("label", JStr "Hello")]);
   ("id", JStr "s1"); ("title", JStr "Button");
   ("name", JStr "Primary"); ("parameters", JObj []);
   ("initialArgs", JObj [("label", JStr "Hello")]);
   ("tags", JArr [JStr "a"; JStr "b"; JUndefined])].

(** A module that exports a story named [toString], and its CSF file. *)
Definition object_module : ModuleExports :=
  {| oid := 2; props := [("toString", JObj [("name", JStr "To String")])] |}.

Definition object_csfFile : CSFFile :=
  (processCSFFileWithCache object_module "Object.stories" "Object"
                           memo_after_runtime).1.

Definition object_resolved_store : StoryStore :=
  (storyFromCSFFile "toString" object_csfFile example_store).2.
End Example.

(** ** Properties *)

(** *** Objects and the memoizer *)

Section AssocFacts.
Context {K V : Type} `{EqDecision K}.
Implicit Types (k : K) (v : V) (l : list (K * V)).

Lemma assoc_Some_elem k v l : assoc k l = Some v → (k, v) ∈ l.
Proof.
  induction l as [|[k' v'] l IH]; simpl; [done|].
  case_decide; [intros [= ->]; subst; left | right; auto].
Qed.

Lemma assoc_None k l : assoc k l = None ↔ k ∉ l.*1.
Proof.
  induction l as [|[k' v'] l IH]; simpl.
  - split; [intros _; apply not_elem_of_nil | done].
  - rewrite not_elem_of_cons. case_decide; subst; [|rewrite IH]; naive_solver.
Qed.

Lemma assoc_NoDup k v l : NoDup l.*1 → (k, v) ∈ l → assoc k l = Some v.
Proof.
  induction l as [|[k' v'] l IH]; simpl; [by intros _ ?%elem_of_nil|].
  rewrite NoDup_cons. intros [Hk Hl] [[= -> ->]|Hin]%elem_of_cons.
  - by rewrite decide_True.
  - rewrite decide_False; [auto|]. intros ->. apply Hk.
    apply list_elem_of_fmap. by exists (k', v).
Qed.

Lemma assoc_assign k k' v l :
  assoc k (assign k' v l) = if decide (k = k') then Some v else assoc k l.
Proof.
  induction l as [|[k2 v2] l IH]; simpl.
  - repeat case_decide; congruence.
  - destruct (decide (k' = k2)) as [->|Hne]; simpl.
    + by destruct (decide (k = k2)).
    + rewrite IH. destruct (decide (k = k2)) as [->|]; [|done].
      by rewrite decide_False by congruence.
Qed.

Lemma assign_keys_old k v l : k ∈ l.*1 → (assign k v l).*1 = l.*1.
Proof.
  induction l as [|[k2 v2] l IH]; csimpl; [by intros ?%elem_of_nil|].
  intros Hin. destruct (decide (k = k2)) as [->|Hne]; csimpl; [done|].
  f_equal. apply IH. by apply elem_of_cons in Hin as [?|?].
Qed.

Lemma assign_keys_new k v l : k ∉ l.*1 → (assign k v l).*1 = l.*1 ++ [k].
Proof.
  induction l as [|[k2 v2] l IH]; csimpl; [done|].
  rewrite not_elem_of_cons. intros [Hne Hnin].
  rewrite decide_False by done. csimpl. f_equal. auto.
Qed.


Lemma elem_of_assign_keys k k' v l :
  k ∈ (assign k' v l).*1 ↔ k = k' ∨ k ∈ l.*1.
Proof.
  destruct (decide (k' ∈ l.*1)) as [Hin|Hnin].
  - rewrite assign_keys_old by done. naive_solver.
  - rewrite assign_keys_new by done.
    rewrite elem_of_app, list_elem_of_singleton. naive_solver.
Qed.

Lemma assoc_unassoc_ne k k' l : k ≠ k' → assoc k (unassoc k' l) = assoc k l.
Proof.
  intros Hne. induction l as [|[k2 v2] l IH]; simpl; [done|].
  repeat (case_decide; simpl); subst; congruence.
Qed.

Lemma assoc_take k v n l :
  assoc k l = Some v → assoc k (take n l) = Some v ∨ assoc k (take n l) = None.
Proof.
  revert n. induction l as [|[k2 v2] l IH]; intros [|n]; simpl; auto.
  case_decide; auto.
Qed.
Lemma elem_of_unassoc k (kv : K * V) l :
  kv ∈ unassoc k l → kv ∈ l.
Proof.
  induction l as [|[k' v'] l IH]; simpl; [done|].
  case_decide; [right; auto|].
  intros [->|?]%elem_of_cons; [left | right; auto].
Qed.

Lemma key_index_unassoc k k' l p :
  k ≠ k' → key_index k l = Some p →
  ∃ p', key_index k (unassoc k' l) = Some p' ∧ p' ≤ p.
Proof.
  intros Hne. revert p. induction l as [|[k2 v2] l IH]; intros p; simpl; [done|].
  destruct (decide (k = k2)) as [->|Hk].
  - intros [= <-]. rewrite decide_False by done. simpl.
    rewrite decide_True by done. by exists 0.
  - destruct (key_index k l) as [q|] eqn:Hq; [|done]. simpl. intros [= <-].
    destruct (IH q eq_refl) as (q' & Hq' & Hle).
    destruct (decide (k' = k2)); simpl.
    + exists q'. split; [done | lia].
    + rewrite decide_False by done. rewrite Hq'. exists (S q'). split; [done | lia].
Qed.

Lemma key_index_take k l p n :
  key_index k l = Some p → p < n →
  key_index k (take n l) = Some p ∧ assoc k (take n l) = assoc k l.
Proof.
  revert p n. induction l as [|[k2 v2] l IH]; intros p [|n]; simpl; try done;
    try lia.
  destruct (decide (k = k2)) as [->|Hk]; [done|].
  destruct (key_index k l) as [q|] eqn:Hq; [|done]. simpl. intros [= <-] Hlt.
  destruct (IH q n eq_refl) as [-> ->]; [lia|]. done.
Qed.

End AssocFacts.

Section MemoizeFacts.
Context {K V : Type} `{EqDecision K}.
Implicit Types (m : Memo K V) (fn : nat → V * nat).

(** A hit returns the remembered value. *)
Lemma memoize_hit limit key fn m v :
  assoc key (memo_entries m) = Some v → (memoize limit key fn m).1 = v.
Proof. unfold memoize. by intros ->. Qed.

(** With room for one entry, the value returned is remembered. *)
Lemma memoize_remembers limit key fn m :
  (0 < limit)%N →
  assoc key (memo_entries (memoize limit key fn m).2)
  = Some (memoize limit key fn m).1.
Proof.
  intros Hlimit. unfold memoize.
  destruct (assoc key (memo_entries m)) as [v|]; simpl.
  - by rewrite decide_True.
  - destruct (fn (memo_next m)) as [v next]; simpl.
    destruct (N.to_nat limit) eqn:E; [lia|]. simpl. by rewrite decide_True.
Qed.

(** A call never replaces a remembered value: it keeps it or evicts it. *)
Lemma memoize_keeps limit key fn m key' v :
  assoc key' (memo_entries m) = Some v →
  assoc key' (memo_entries (memoize limit key fn m).2) = Some v
  ∨ assoc key' (memo_entries (memoize limit key fn m).2) = None.
Proof.
  intros Hv. unfold memoize.
  destruct (assoc key (memo_entries m)) as [w|] eqn:Hkey; simpl.
  - left. destruct (decide (key' = key)) as [->|Hne]; [congruence|].
    by rewrite assoc_unassoc_ne.
  - destruct (fn (memo_next m)) as [w next]; simpl.
    apply assoc_take. simpl. rewrite decide_False; [done | congruence].
Qed.

Lemma memoize_result limit key fn m :
  ((key, (memoize limit key fn m).1) ∈ memo_entries m
   ∨ (memoize limit key fn m).1 = (fn (memo_next m)).1)
  ∧ ∀ kv, kv ∈ memo_entries (memoize limit key fn m).2 →
          kv ∈ memo_entries m ∨ kv = (key, (memoize limit key fn m).1).
Proof.
  unfold memoize. destruct (assoc key (memo_entries m)) as [v|] eqn:E; simpl.
  - split; [left; by apply assoc_Some_elem|].
    intros kv [->|Hin]%elem_of_cons; [by right|].
    left. by apply elem_of_unassoc in Hin.
  - destruct (fn (memo_next m)) as [v next]; simpl. split; [by right|].
    intros kv Hin. apply subseteq_take in Hin.
    apply elem_of_cons in Hin as [->|?]; [by right | by left].
Qed.

(** An entry at position [p] is at most one place further after a call, and
    stays while there is room. *)
Lemma memoize_index limit key fn m key' v p :
  key_index key' (memo_entries m) = Some p →
  assoc key' (memo_entries m) = Some v →
  S p < N.to_nat limit →
  ∃ p', key_index key' (memo_entries (memoize limit key fn m).2) = Some p'
        ∧ p' ≤ S p
        ∧ assoc key' (memo_entries (memoize limit key fn m).2) = Some v.
Proof.
  intros Hp Hv Hroom. unfold memoize.
  destruct (assoc key (memo_entries m)) as [w|] eqn:Hkey; simpl.
  - destruct (decide (key' = key)) as [->|Hne].
    + exists 0. split_and!; [done | lia | congruence].
    + destruct (key_index_unassoc key' key _ p Hne Hp) as (p' & -> & Hle).
      exists (S p'). split_and!; [done | lia | by rewrite assoc_unassoc_ne].
  - destruct (fn (memo_next m)) as [w next]; simpl.
    assert (key' ≠ key) as Hne by congruence.
    destruct (key_index_take key' ((key, w) :: memo_entries m) (S p)
                (N.to_nat limit)) as [-> ->]; [|done|].
    + simpl. rewrite decide_False by done. by rewrite Hp.
    + exists (S p). split_and!; [done | lia|].
      simpl. by rewrite decide_False.
Qed.

(** With room for one entry, the value returned sits in front. *)
Lemma memoize_front limit key fn m :
  (0 < limit)%N →
  key_index key (memo_entries (memoize limit key fn m).2) = Some 0.
Proof.
  intros Hlimit. unfold memoize.
  destruct (assoc key (memo_entries m)) as [v|]; simpl.
  - by rewrite decide_True.
  - destruct (fn (memo_next m)) as [v next]; simpl.
    destruct (N.to_nat limit) eqn:E; [lia|]. simpl. by rewrite decide_True.
Qed.
End MemoizeFacts.

(** *** Sorting *)

Section SortFacts.
Context {A : Type} (le : A → A → bool).
Hypothesis le_total : ∀ x y, le x y = false → le y x = true.

Lemma sort_insert_perm x l : sort_insert le x l ≡ₚ x :: l.
Proof.
  induction l as [|y l IH]; simpl; [done|].
  destruct (le x y); [done|]. rewrite IH. apply Permutation_swap.
Qed.

Lemma stable_sort_perm l : stable_sort le l ≡ₚ l.
Proof.
  induction l as [|x l IH]; simpl; [done|].
  by rewrite sort_insert_perm, IH.
Qed.

Lemma sort_insert_sorted x l :
  Sorted (λ a b, le a b = true) l →
  Sorted (λ a b, le a b = true) (sort_insert le x l).
Proof using le_total.
  induction 1 as [|y l Hl IH Hhd]; simpl.
  - by repeat constructor.
  - destruct (le x y) eqn:Hxy.
    + by repeat constructor.
    + constructor; [done|].
      destruct Hhd as [|z l Hyz]; simpl.
      * constructor. by apply le_total.
      * destruct (le x z); constructor; [by apply le_total | done].
Qed.

Lemma stable_sort_sorted l :
  Sorted (λ a b, le a b = true) (stable_sort le l).
Proof using le_total.
  induction l as [|x l IH]; simpl; [constructor|].
  by apply sort_insert_sorted.
Qed.
End SortFacts.

Lemma code_units_le_total x y :
  code_units_le x y = false → code_units_le y x = true.
Proof.
  revert y. induction x as [|a x IH]; intros [|b y]; simpl; try done.
  destruct (a <? b)%N eqn:Hab; [done|].
  destruct (b <? a)%N eqn:Hba; [done|]. apply IH.
Qed.

Lemma sort_le_total x y : sort_le x y = false → sort_le y x = true.
Proof.
  unfold sort_le. intros Hxy.
  destruct x, y; try done; by apply code_units_le_total.
Qed.

Lemma js_sort_sorted value :
  value ≡ₚ js_sort value ∧ Sorted (λ a b, sort_le a b = true) (js_sort value).
Proof.
  split.
  - symmetry. apply stable_sort_perm.
  - apply stable_sort_sorted, sort_le_total.
Qed.

(** *** The methods one by one *)

(** A read through the prototype chain finds something exactly when the
    object has the property or [Object.prototype] has a member of the
    name. *)
Lemma is_Some_obj_read k (o : Obj Ref) :
  is_Some (obj_read k o) ↔ is_Some (obj_get k o) ∨ inherited k = true.
Proof.
  unfold obj_read, inherited. rewrite bool_decide_eq_true.
  destruct (obj_get k o); naive_solver.
Qed.

Lemma obj_read_None k (o : Obj Ref) :
  obj_read k o = None ↔ obj_get k o = None ∧ inherited k = false.
Proof.
  unfold obj_read, inherited. rewrite bool_decide_eq_false.
  destruct (obj_get k o); [naive_solver|].
  rewrite <- eq_None_not_Some. naive_solver.
Qed.

Section StoreFacts.
Context `{!Collaborators}.
Implicit Types (s : StoryStore) (story : PreparedStory) (csfFile : CSFFile).

Lemma storyFromCSFFile_missing storyId csfFile s :
  obj_read storyId (stories csfFile) = None →
  storyFromCSFFile storyId csfFile s
  = (inl (MissingStoryFromCsfFileError storyId), s).
Proof. unfold storyFromCSFFile. by intros ->. Qed.

Lemma storyFromCSFFile_found storyId csfFile s storyAnnotations :
  obj_read storyId (stories csfFile) = Some storyAnnotations →
  storyFromCSFFile storyId csfFile s
  = let pc := prepareStoryWithCache storyAnnotations (meta csfFile)
                (projectAnnotations s) (story_cache s) in
    (inr pc.1,
     ensure_HooksContext pc.1
       (set_args (ArgsStore_setInitial pc.1 (args s)) (set_story_cache pc.2 s))).
Proof.
  unfold storyFromCSFFile. intros ->.
  by destruct (prepareStoryWithCache _ _ _ _).
Qed.

Lemma storyFromCSFFile_ok storyId csfFile s story s' :
  storyFromCSFFile storyId csfFile s = (inr story, s') →
  ∃ storyAnnotations,
    obj_read storyId (stories csfFile) = Some storyAnnotations
    ∧ story = (prepareStoryWithCache storyAnnotations (meta csfFile)
                 (projectAnnotations s) (story_cache s)).1
    ∧ s' = ensure_HooksContext story
             (set_args (ArgsStore_setInitial story (args s))
                (set_story_cache
                   (prepareStoryWithCache storyAnnotations (meta csfFile)
                      (projectAnnotations s) (story_cache s)).2 s)).
Proof.
  destruct (obj_read storyId (stories csfFile)) as [sa|] eqn:E.
  - rewrite (storyFromCSFFile_found _ _ _ _ E). simpl.
    intros [= <- <-]. by exists sa.
  - by rewrite (storyFromCSFFile_missing _ _ _ E).
Qed.

Lemma storyFromCSFFile_error storyId csfFile s e s' :
  storyFromCSFFile storyId csfFile s = (inl e, s') →
  obj_read storyId (stories csfFile) = None
  ∧ e = MissingStoryFromCsfFileError storyId ∧ s' = s.
Proof.
  destruct (obj_read storyId (stories csfFile)) as [sa|] eqn:E.
  - by rewrite (storyFromCSFFile_found _ _ _ _ E).
  - rewrite (storyFromCSFFile_missing _ _ _ E). by intros [= <- <-].
Qed.

Lemma hooks_ensure_HooksContext story s :
  hooks (ensure_HooksContext story s)
  = match hooks s !! story_id story with
    | Some _ => hooks s
    | None =>
        if inherited (story_id story) then hooks s
        else
          <[story_id story :=
              {| hooks_oid := hooks_created s; hooks_state := HooksState_new |}]>
            (hooks s)
    end.
Proof.
  unfold ensure_HooksContext.
  destruct (hooks s !! story_id story) eqn:E; simpl;
    [by apply insert_id | by destruct (inherited _)].
Qed.

Lemma hooks_created_ensure_HooksContext story s :
  hooks_created (ensure_HooksContext story s)
  = match hooks s !! story_id story with
    | Some _ => hooks_created s
    | None =>
        if inherited (story_id story) then hooks_created s
        else S (hooks_created s)
    end.
Proof.
  unfold ensure_HooksContext.
  by destruct (hooks s !! story_id story); [|destruct (inherited _)].
Qed.

Lemma story_cache_ensure_HooksContext story s :
  story_cache (ensure_HooksContext story s) = story_cache s.
Proof.
  unfold ensure_HooksContext.
  by destruct (hooks s !! story_id story); [|destruct (inherited _)].
Qed.

Lemma args_ensure_HooksContext story s :
  args (ensure_HooksContext story s) = args s.
Proof.
  unfold ensure_HooksContext.
  by destruct (hooks s !! story_id story); [|destruct (inherited _)].
Qed.

(** *** fromId *)

(** C9: with the cached CSF files present, [fromId] of an identifier that
    is not in the index returns [null] and leaves the store alone, the
    lookup failure being caught; the usage error is thrown exactly when the
    cached files are missing, whatever the identifier, before the index is
    consulted. *)
Theorem fromId_unknown_story s storyId :
  (cachedCSFFiles s = None →
   fromId storyId s
   = (inl (UsageError
             "Cannot call fromId/raw() unless you call cacheAllCSFFiles() first."),
      s))
  ∧ (is_Some (cachedCSFFiles s) →
     obj_get storyId (entries (storyIndex s)) = None →
     fromId storyId s = (inr None, s))
  ∧ (is_Some (cachedCSFFiles s) →
     ∀ message, (fromId storyId s).1 ≠ inl (UsageError message)).
Proof.
  unfold fromId. split_and!.
  - by intros ->.
  - intros [files ->] Hnone.
    unfold StoryIndexStore_storyIdToEntry. by rewrite Hnone.
  - intros [files ->] message.
    destruct (StoryIndexStore_storyIdToEntry _ _) as [e|entry]; [done|].
    destruct (files !! importPath entry) as [csfFile|]; [|done].
    unfold bind.
    destruct (storyFromCSFFile storyId csfFile s) as [[e|story] s'] eqn:E;
      [|done].
    apply storyFromCSFFile_error in E as (_ & -> & _). done.
Qed.

(** *** The loads and the trace *)

Lemma set_imports_same s : set_imports (imports s) s = s.
Proof. by destruct s. Qed.

Lemma set_imports_twice trace trace' s :
  set_imports trace' (set_imports trace s) = set_imports trace' s.
Proof. done. Qed.

(** Starting a load writes the trace and nothing else. *)
Lemma loadCSFFileByStoryId_call_store storyId s :
  (loadCSFFileByStoryId_call storyId s).2
  = set_imports (imports (loadCSFFileByStoryId_call storyId s).2) s.
Proof.
  unfold loadCSFFileByStoryId_call.
  destruct (StoryIndexStore_storyIdToEntry _ _); simpl;
    [by rewrite set_imports_same | done].
Qed.

Lemma start_loads_store (l : list (string * string)) s :
  (start_loads l s).2 = set_imports (imports (start_loads l s).2) s.
Proof.
  revert s. induction l as [|[path storyId] l IH]; intros s; simpl.
  - by rewrite set_imports_same.
  - rewrite IH at 1. by rewrite (loadCSFFileByStoryId_call_store storyId s).
Qed.

Lemma csfFilePromiseList_store s :
  (csfFilePromiseList s).2
  = set_imports (imports (csfFilePromiseList s).2) s.
Proof. apply start_loads_store. Qed.

(** *** onStoriesChanged *)

Lemma cacheAllCSFFiles_error s e :
  (cacheAllCSFFiles s).1 = inl e ↔ (loadAllCSFFiles s).1 = inl e.
Proof.
  unfold cacheAllCSFFiles, bind.
  destruct (loadAllCSFFiles s) as [[e'|files] s']; simpl; naive_solver.
Qed.

Lemma cachedCSFFiles_loadAllCSFFiles s :
  cachedCSFFiles (loadAllCSFFiles s).2 = cachedCSFFiles s.
Proof.
  unfold loadAllCSFFiles. rewrite csfFilePromiseList_store.
  destruct (settle_loads _ _ _) as [settled cache].
  by destruct (Promise_all settled).
Qed.

Lemma cacheAllCSFFiles_failed s e :
  (cacheAllCSFFiles s).1 = inl e →
  (cacheAllCSFFiles s).2 = (loadAllCSFFiles s).2.
Proof.
  unfold cacheAllCSFFiles, bind.
  by destruct (loadAllCSFFiles s) as [[e'|files] s'].
Qed.

(** C3, as the code has it: [onStoriesChanged] replaces the loader and
    the index it is given and completes normally, unless cached CSF files
    exist and the reload fails; it then rejects with the failure of
    [loadAllCSFFiles], the loader and the index staying replaced and the
    cached files staying as they were. *)
Theorem onStoriesChanged_outcome newImportFn newIndex s :
  let s2 := replaced newImportFn newIndex s in
  (cachedCSFFiles s = None →
   onStoriesChanged newImportFn newIndex s = (inr (), s2))
  ∧ (∀ e, (onStoriesChanged newImportFn newIndex s).1 = inl e
          ↔ is_Some (cachedCSFFiles s) ∧ (loadAllCSFFiles s2).1 = inl e)
  ∧ (∀ e, (onStoriesChanged newImportFn newIndex s).1 = inl e →
          cachedCSFFiles (onStoriesChanged newImportFn newIndex s).2
          = cachedCSFFiles s)
  ∧ importFn (onStoriesChanged newImportFn newIndex s).2
    = importFn s2
  ∧ storyIndex (onStoriesChanged newImportFn newIndex s).2
    = storyIndex s2.
Proof.
  intros s2.
  assert (Hcached : cachedCSFFiles s2 = cachedCSFFiles s).
  { unfold s2, replaced. by destruct newImportFn, newIndex. }
  unfold onStoriesChanged. fold s2. rewrite Hcached.
  destruct (cachedCSFFiles s) as [files|] eqn:Hs; split_and!.
  - done.
  - intros e. rewrite cacheAllCSFFiles_error. naive_solver.
  - intros e He. rewrite (cacheAllCSFFiles_failed _ _ He).
    by rewrite cachedCSFFiles_loadAllCSFFiles.
  - unfold cacheAllCSFFiles, bind, loadAllCSFFiles.
    rewrite csfFilePromiseList_store.
    destruct (settle_loads _ _ _) as [settled cache].
    by destruct (Promise_all settled).
  - unfold cacheAllCSFFiles, bind, loadAllCSFFiles.
    rewrite csfFilePromiseList_store.
    destruct (settle_loads _ _ _) as [settled cache].
    by destruct (Promise_all settled).
  - done.
  - intros e. split; [done|]. by intros [[? [=]] _].
  - done.
  - done.
  - done.
Qed.
(** *** cleanupStory *)

(** C10: [cleanupStory] cleans the story's hooks context where it sits in
    the registry and touches nothing else; a [storyFromCSFFile] that
    follows for the same identifier finds that same, cleaned context and
    creates none. *)
Theorem cleanupStory_keeps_context s story context :
  hooks s !! story_id story = Some context →
  let cleaned := {| hooks_oid := hooks_oid context;
                    hooks_state := HooksState_clean (hooks_state context) |} in
  ∃ s',
    cleanupStory story s = (inr (), s')
    ∧ hooks s' !! story_id story = Some cleaned
    ∧ (∀ id, id ≠ story_id story → hooks s' !! id = hooks s !! id)
    ∧ s' = set_hooks (hooks s') (hooks_created s) s
    ∧ ∀ storyId csfFile story' s'',
        storyFromCSFFile storyId csfFile s' = (inr story', s'') →
        story_id story' = story_id story →
        hooks s'' = hooks s' ∧ hooks_created s'' = hooks_created s.
Proof.
  intros Hcontext cleaned. unfold cleanupStory. rewrite Hcontext.
  eexists. split; [reflexivity|]. simpl. split_and!.
  - apply lookup_insert_eq.
  - intros id Hne. by apply lookup_insert_ne.
  - done.
  - intros storyId csfFile story' s'' Hcall Hid.
    apply storyFromCSFFile_ok in Hcall as (sa & _ & _ & ->).
    rewrite hooks_ensure_HooksContext, hooks_created_ensure_HooksContext.
    simpl. rewrite Hid, lookup_insert_eq. done.
Qed.

(** *** storyFromCSFFile *)

(** C5, as the code has it: [storyFromCSFFile] of an identifier that the
    CSF file has a story for succeeds, and seeds the args store under the
    identifier of the story it resolved, [story.id], which it does not
    compare with the identifier it was given.  The args store then holds the
    story's initial args under [story.id] if it held nothing there, keeps the
    value it held otherwise, and is unchanged under every other identifier,
    the one given included when the two differ. *)
Theorem storyFromCSFFile_seeds_args s storyId csfFile :
  is_Some (obj_read storyId (stories csfFile)) →
  ∃ story s',
    storyFromCSFFile storyId csfFile s = (inr story, s')
    ∧ (args s !! story_id story = None →
       args s' !! story_id story = Some (initialArgs story))
    ∧ (∀ value, args s !! story_id story = Some value →
                args s' !! story_id story = Some value)
    ∧ (∀ id, id ≠ story_id story → args s' !! id = args s !! id)
    ∧ (story_id story ≠ storyId → args s' !! storyId = args s !! storyId).
Proof.
  intros [sa Hsa]. rewrite (storyFromCSFFile_found _ _ _ _ Hsa). simpl.
  eexists _, _. split; [reflexivity|].
  rewrite args_ensure_HooksContext. simpl.
  unfold ArgsStore_setInitial.
  set (story := (prepareStoryWithCache sa (meta csfFile) (projectAnnotations s)
                   (story_cache s)).1).
  destruct (args s !! story_id story) as [v|] eqn:Hargs.
  - split_and!; [done | by rewrite Hargs | done | done].
  - split_and!; [|done|..].
    + intros _. apply lookup_insert_eq.
    + intros id' Hne. by apply lookup_insert_ne.
    + intros Hne. by apply lookup_insert_ne.
Qed.

Lemma story_calls_remembers cache0 n cache key story :
  key_index key (memo_entries cache0) = Some 0 →
  assoc key (memo_entries cache0) = Some story →
  story_calls cache0 n cache →
  n < N.to_nat STORY_CACHE_SIZE →
  ∃ p, p ≤ n
       ∧ key_index key (memo_entries cache) = Some p
       ∧ assoc key (memo_entries cache) = Some story.
Proof.
  intros Hfront Hstory. induction 1 as [|n cache sa ca pa Hcalls IH].
  - intros _. by exists 0.
  - intros Hn. destruct IH as (p & Hp & Hindex & Hassoc); [lia|].
    destruct (memoize_index STORY_CACHE_SIZE (oid sa, oid ca, oid pa)
                (λ next, ({| oid := next; props := prepareStory sa ca pa |},
                          S next))
                cache key story p Hindex Hassoc)
      as (p' & Hindex' & Hp' & Hassoc'); [lia|].
    exists p'. split_and!; [lia | done..].
Qed.

(** C4: a [storyFromCSFFile] that succeeds leaves its story in the cache
    under the identities of the three annotation objects; on any store
    whose cache still holds that entry, a call with the same three
    identities returns that very story; the entry is still held after fewer
    than [STORY_CACHE_SIZE] further calls of [prepareStoryWithCache]; and no
    such call replaces a cached story by another, it can only evict it. *)
Theorem storyFromCSFFile_same_instance
    s storyId csfFile storyAnnotations story s1 :
  obj_read storyId (stories csfFile) = Some storyAnnotations →
  storyFromCSFFile storyId csfFile s = (inr story, s1) →
  let key := (oid storyAnnotations, oid (meta csfFile),
              oid (projectAnnotations s)) in
  assoc key (memo_entries (story_cache s1)) = Some story
  ∧ (∀ s2 storyId' csfFile' storyAnnotations',
       obj_read storyId' (stories csfFile') = Some storyAnnotations' →
       oid storyAnnotations' = oid storyAnnotations →
       oid (meta csfFile') = oid (meta csfFile) →
       oid (projectAnnotations s2) = oid (projectAnnotations s) →
       assoc key (memo_entries (story_cache s2)) = Some story →
       (storyFromCSFFile storyId' csfFile' s2).1 = inr story)
  ∧ (∀ n cache,
       story_calls (story_cache s1) n cache →
       n < N.to_nat STORY_CACHE_SIZE →
       assoc key (memo_entries cache) = Some story)
  ∧ (∀ sa ca pa cache,
       assoc key (memo_entries cache) = Some story →
       let cache' := (prepareStoryWithCache sa ca pa cache).2 in
       assoc key (memo_entries cache') = Some story
       ∨ assoc key (memo_entries cache') = None).
Proof.
  intros Hsa Hcall key. rewrite (storyFromCSFFile_found _ _ _ _ Hsa) in Hcall.
  simpl in Hcall. injection Hcall as Hstory Hs1. subst story s1.
  assert (Hcached : assoc key
                      (memo_entries
                         (prepareStoryWithCache storyAnnotations (meta csfFile)
                            (projectAnnotations s) (story_cache s)).2)
                    = Some (prepareStoryWithCache storyAnnotations
                              (meta csfFile) (projectAnnotations s)
                              (story_cache s)).1)
    by by apply memoize_remembers.
  split_and!.
  - by rewrite story_cache_ensure_HooksContext.
  - intros s2 storyId' csfFile' sa' Hsa' Hoid1 Hoid2 Hoid3 Hhit.
    rewrite (storyFromCSFFile_found _ _ _ _ Hsa'). simpl.
    unfold prepareStoryWithCache at 1. rewrite Hoid1, Hoid2, Hoid3.
    f_equal. by apply memoize_hit.
  - rewrite story_cache_ensure_HooksContext. simpl. intros n cache Hcalls Hn.
    destruct (story_calls_remembers _ n cache key _
                (memoize_front STORY_CACHE_SIZE key _ (story_cache s) eq_refl)
                Hcached Hcalls Hn) as (p & _ & _ & Hassoc).
    exact Hassoc.
  - intros sa ca pa cache Hhit. by apply memoize_keeps.
Qed.
End StoreFacts.

(** *** The loads *)

Section Loads.
Context `{!Collaborators}.
Implicit Types (s : StoryStore) (l : list (string * LoadPromise)).

Lemma elem_of_assign {K V} `{EqDecision K} (k k' : K) (v v' : V) o :
  (k, v) ∈ assign k' v' o → (k = k' ∧ v = v') ∨ (k, v) ∈ o.
Proof.
  induction o as [|[k2 v2] o IH]; simpl.
  - intros [= -> ->]%list_elem_of_singleton. by left.
  - case_decide; subst.
    + intros [[= -> ->]|Hin]%elem_of_cons; [by left | right; by right].
    + intros [[= -> ->]|Hin]%elem_of_cons; [right; left|].
      destruct (IH Hin) as [?|?]; [by left | right; by right].
Qed.



Lemma importPaths_fold_elem (rest : list (string * IndexEntry)) acc path storyId :
  (path, storyId)
    ∈ foldl (λ importPaths kv, obj_set (importPath kv.2) kv.1 importPaths)
            acc rest →
  (path, storyId) ∈ acc
  ∨ ∃ entry, (storyId, entry) ∈ rest ∧ importPath entry = path.
Proof.
  revert acc. induction rest as [|[id entry] rest IH]; intros acc; simpl.
  - by left.
  - intros [Hin|(e & Hin & <-)]%IH.
    + apply elem_of_assign in Hin as [[-> ->]|Hin]; [|by left].
      right. exists entry. split; [left | done].
    + right. exists e. split; [by right | done].
Qed.



Lemma importPaths_of_elem index path storyId :
  obj_wf (entries index) →
  (path, storyId) ∈ importPaths_of index →
  ∃ entry, obj_get storyId (entries index) = Some entry
           ∧ importPath entry = path.
Proof.
  intros Hwf [[]%elem_of_nil|(entry & Hin & <-)]%importPaths_fold_elem.
  exists entry. split; [|done]. by apply assoc_NoDup.
Qed.

(** **** Starting the loads *)

Lemma invocations_keys f trace (paths : list string) :
  (invocations f trace paths).*1 = paths.
Proof.
  revert trace. induction paths as [|path paths IH]; intros trace; csimpl;
    [done|]. by rewrite IH.
Qed.

(** A call for an identifier of the index invokes the loader for the path
    of its entry. *)
Lemma loadCSFFileByStoryId_call_entry storyId s entry :
  obj_get storyId (entries (storyIndex s)) = Some entry →
  let load := importFn s (imports s) (importPath entry) in
  loadCSFFileByStoryId_call storyId s
  = (at_await load (importPath entry) (title entry),
     set_imports ((importPath entry, load) :: imports s) s).
Proof.
  intros Hentry. unfold loadCSFFileByStoryId_call, StoryIndexStore_storyIdToEntry.
  by rewrite Hentry.
Qed.

(** The calls made for representatives that the index places at their
    paths: the loader is invoked once for each path, in order, and each call
    waits for the promise its invocation returned. *)
Lemma start_loads_invocations (l : list (string * string)) s :
  (∀ path storyId, (path, storyId) ∈ l →
     ∃ entry, obj_get storyId (entries (storyIndex s)) = Some entry
              ∧ importPath entry = path) →
  let loads := invocations (importFn s) (imports s) l.*1 in
  imports (start_loads l s).2 = reverse loads ++ imports s
  ∧ ∀ i path storyId,
      l !! i = Some (path, storyId) →
      ∃ entry load,
        obj_get storyId (entries (storyIndex s)) = Some entry
        ∧ importPath entry = path
        ∧ loads !! i = Some (path, load)
        ∧ (start_loads l s).1 !! i
          = Some (path, at_await load path (title entry)).
Proof.
  revert s. induction l as [|[path storyId] l IH]; intros s Hl; simpl.
  { split; [done|]. by intros i ? ? ?. }
  destruct (Hl path storyId) as (entry & Hentry & <-); [left|].
  rewrite (loadCSFFileByStoryId_call_entry _ _ _ Hentry). simpl.
  set (load := importFn s (imports s) (importPath entry)).
  set (s1 := set_imports ((importPath entry, load) :: imports s) s).
  destruct (IH s1) as [Htrace Hcalls].
  { intros path' storyId' Hin. apply (Hl path' storyId'). by right. }
  split.
  - rewrite Htrace. simpl. rewrite reverse_cons, <- app_assoc. done.
  - intros [|i] path' storyId' Hi; simpl in *.
    + injection Hi as <- <-. by exists entry, load.
    + by apply Hcalls.
Qed.

Lemma start_loads_length (l : list (string * string)) s :
  length (start_loads l s).1 = length l.
Proof.
  revert s. induction l as [|[path storyId] l IH]; intros s; simpl; [done|].
  by rewrite IH.
Qed.


(** The representatives of a well-formed index are placed at their
    paths. *)
Lemma importPaths_of_placed s path storyId :
  obj_wf (entries (storyIndex s)) →
  (path, storyId) ∈ importPaths_of (storyIndex s) →
  ∃ entry, obj_get storyId (entries (storyIndex s)) = Some entry
           ∧ importPath entry = path.
Proof. apply importPaths_of_elem. Qed.

(** The loads that [loadAllCSFFiles] starts. *)
Lemma csfFilePromiseList_invocations s :
  obj_wf (entries (storyIndex s)) →
  let importPaths := importPaths_of (storyIndex s) in
  let loads := invocations (importFn s) (imports s) (obj_keys importPaths) in
  imports (csfFilePromiseList s).2 = reverse loads ++ imports s
  ∧ (∀ path p,
       (path, p) ∈ (csfFilePromiseList s).1 →
       ∃ storyId entry load,
         (path, storyId) ∈ importPaths
         ∧ obj_get storyId (entries (storyIndex s)) = Some entry
         ∧ importPath entry = path
         ∧ (path, load) ∈ loads
         ∧ p = at_await load path (title entry))
  ∧ (∀ path load,
       (path, load) ∈ loads →
       ∃ storyId entry,
         (path, storyId) ∈ importPaths
         ∧ obj_get storyId (entries (storyIndex s)) = Some entry
         ∧ importPath entry = path
         ∧ (path, at_await load path (title entry)) ∈ (csfFilePromiseList s).1).
Proof.
  intros Hwf importPaths loads.
  destruct (start_loads_invocations importPaths s) as [Htrace Hcalls].
  { intros path storyId. by apply importPaths_of_placed. }
  split_and!; [done|..].
  - intros path p [i Hi]%list_elem_of_lookup.
    destruct (importPaths !! i) as [[path' storyId]|] eqn:Hi'.
    + destruct (Hcalls _ _ _ Hi') as (entry & load & He & Hp & Hload & Hcall).
      unfold csfFilePromiseList in Hi. fold importPaths in Hi.
      rewrite Hcall in Hi. injection Hi as -> <-.
      exists storyId, entry, load.
      split_and!; eauto using list_elem_of_lookup_2.
    + apply lookup_ge_None in Hi'. apply lookup_lt_Some in Hi.
      unfold csfFilePromiseList in Hi. rewrite start_loads_length in Hi.
      fold importPaths in Hi. lia.
  - intros path load [i Hi]%list_elem_of_lookup.
    destruct (importPaths !! i) as [[path' storyId]|] eqn:Hi'.
    + destruct (Hcalls _ _ _ Hi') as (entry & load' & He & Hp & Hload & Hcall).
      unfold loads, obj_keys in Hi. rewrite Hload in Hi.
      injection Hi as -> ->.
      exists storyId, entry.
      split_and!; eauto using list_elem_of_lookup_2.
    + apply lookup_ge_None in Hi'. apply lookup_lt_Some in Hi.
      unfold loads in Hi.
      rewrite <- (length_fmap fst), invocations_keys in Hi.
      unfold obj_keys in Hi. rewrite length_fmap in Hi. lia.
Qed.

(** **** The event loop *)

Lemma earliest_Some l i t :
  earliest l = Some (i, t) →
  ∃ path moduleExports importPath title,
    l !! i = Some (path, LoadAwaiting t moduleExports importPath title).
Proof.
  revert i t. induction l as [|[path p] l IH]; intros i t; simpl; [done|].
  destruct (earliest l) as [[j t']|] eqn:E; simpl.
  - destruct p as [t0 e|t0 m ip ti|c]; simpl.
    + intros [= <- <-]. by apply IH.
    + case_decide; intros [= <- <-]; [by eexists _, _, _, _|]. by apply IH.
    + intros [= <- <-]. by apply IH.
  - destruct p as [t0 e|t0 m ip ti|c]; simpl; try done.
    intros [= <- <-]. by eexists _, _, _, _.
Qed.

Lemma earliest_None l : earliest l = None → awaiting_count l = 0.
Proof.
  induction l as [|[path p] l IH]; simpl; [done|].
  destruct (earliest l) as [[j t']|] eqn:E; simpl.
  - destruct p as [t0 e|t0 m ip ti|c]; simpl; try done. by case_decide.
  - destruct p as [t0 e|t0 m ip ti|c]; simpl; auto. done.
Qed.

Lemma awaiting_count_resume l i path p path' csfFile :
  l !! i = Some (path, p) → is_awaiting p = true →
  S (awaiting_count (<[i := (path', LoadFulfilled csfFile)]> l))
  = awaiting_count l.
Proof.
  revert i. induction l as [|[path0 p0] l IH]; intros [|i]; simpl; try done.
  - intros [= -> ->] ->. done.
  - intros Hi Hp. rewrite <- (IH i Hi Hp). lia.
Qed.

Lemma cache_steps_trans cache0 cache1 cache2 :
  cache_steps cache0 cache1 → cache_steps cache1 cache2 →
  cache_steps cache0 cache2.
Proof. intros H01 H12. induction H12; [done | by constructor]. Qed.

Lemma resumed_refl cache0 pp : resumed cache0 pp pp.
Proof. split; [done | by left]. Qed.

Lemma resumed_mono cache0 cache1 pp pp' :
  cache_steps cache0 cache1 → resumed cache1 pp pp' → resumed cache0 pp pp'.
Proof.
  intros Hsteps [Hpath [?|(t & m & ip & ti & c & Hbefore & Hc & Hafter)]];
    (split; [done|]); [by left|].
  right. exists t, m, ip, ti, c. eauto using cache_steps_trans.
Qed.

Lemma resumed_trans cache0 pp1 pp2 pp3 :
  resumed cache0 pp1 pp2 → resumed cache0 pp2 pp3 → resumed cache0 pp1 pp3.
Proof.
  intros [Hpath1 H1] [Hpath2 H2]. split; [congruence|].
  destruct H2 as [->|(t & m & ip & ti & c & Hbefore & Hc & ->)]; [done|].
  destruct H1 as [Heq|(? & ? & ? & ? & ? & _ & _ & Hafter)]; [|congruence].
  right. rewrite <- Heq. by exists t, m, ip, ti, c.
Qed.

Lemma Forall2_resumed_refl cache0 l : Forall2 (resumed cache0) l l.
Proof. induction l; constructor; [apply resumed_refl | done]. Qed.

Lemma Forall2_resumed_trans cache0 l1 l2 l3 :
  Forall2 (resumed cache0) l1 l2 → Forall2 (resumed cache0) l2 l3 →
  Forall2 (resumed cache0) l1 l3.
Proof.
  intros H12. revert l3. induction H12 as [|pp1 pp2 l1 l2 Hpp H12 IH];
    intros l3 H23; inversion H23; subst; constructor;
    eauto using resumed_trans.
Qed.

Lemma Forall2_resumed_mono cache0 cache1 l l' :
  cache_steps cache0 cache1 → Forall2 (resumed cache1) l l' →
  Forall2 (resumed cache0) l l'.
Proof.
  intros Hsteps. induction 1; constructor; eauto using resumed_mono.
Qed.

Lemma resume_resumed i l cache :
  Forall2 (resumed cache) l (resume i l cache).1
  ∧ cache_steps cache (resume i l cache).2.
Proof.
  unfold resume.
  destruct (l !! i) as [[path [t e|t m ip ti|c]]|] eqn:Hi;
    try (split; [apply Forall2_resumed_refl | constructor]).
  destruct (processCSFFileWithCache m ip ti cache) as [csf cache'] eqn:Hcall.
  simpl. split.
  - rewrite <- (list_insert_id l i _ Hi) at 1.
    apply Forall2_insert; [apply Forall2_resumed_refl|].
    split; [done|]. right. exists t, m, ip, ti, cache.
    split_and!; [done | constructor | by rewrite Hcall].
  - replace cache' with (processCSFFileWithCache m ip ti cache).2
      by by rewrite Hcall.
    repeat constructor.
Qed.

Lemma settle_loads_resumed fuel l cache :
  Forall2 (resumed cache) l (settle_loads fuel l cache).1
  ∧ cache_steps cache (settle_loads fuel l cache).2.
Proof.
  revert l cache. induction fuel as [|fuel IH]; intros l cache; simpl.
  - split; [apply Forall2_resumed_refl | constructor].
  - destruct (earliest l) as [[i t]|];
      [|split; [apply Forall2_resumed_refl | constructor]].
    destruct (resume_resumed i l cache) as [Hstep Hcache].
    destruct (resume i l cache) as [l' cache']. simpl in *.
    destruct (IH l' cache') as [Hrest Hcache']. split.
    + eapply Forall2_resumed_trans; [exact Hstep|].
      by apply (Forall2_resumed_mono _ cache').
    + by apply (cache_steps_trans _ cache').
Qed.

Lemma settle_loads_done fuel l cache :
  awaiting_count l ≤ fuel →
  awaiting_count (settle_loads fuel l cache).1 = 0.
Proof.
  revert l cache. induction fuel as [|fuel IH]; intros l cache Hfuel; simpl.
  - lia.
  - destruct (earliest l) as [[i t]|] eqn:E; [|by apply earliest_None].
    apply earliest_Some in E as (path & m & ip & ti & Hi).
    unfold resume. rewrite Hi.
    destruct (processCSFFileWithCache m ip ti cache) as [csf cache'].
    apply IH.
    pose proof (awaiting_count_resume l i path _ path csf Hi eq_refl). lia.
Qed.

Lemma awaiting_count_length l : awaiting_count l ≤ length l.
Proof.
  induction l as [|[path p] l IH]; simpl; [done|].
  destruct (is_awaiting p); lia.
Qed.

(** **** Promise.all *)

Lemma first_rejection_resumed cache0 l l' :
  Forall2 (resumed cache0) l l' → first_rejection l' = first_rejection l.
Proof.
  induction 1 as [|[path p] [path' p'] l l' [_ Hpp] Hl IH]; simpl; [done|].
  rewrite IH. simpl in Hpp.
  destruct Hpp as [->|(t & m & ip & ti & c & -> & _ & ->)]; done.
Qed.

Lemma first_rejection_Some l t e :
  first_rejection l = Some (t, e) →
  (∃ path, (path, LoadRejected t e) ∈ l)
  ∧ ∀ path t' e', (path, LoadRejected t' e') ∈ l → t ≤ t'.
Proof.
  revert t e. induction l as [|[path p] l IH]; intros t e; simpl; [done|].
  assert (Hskip : is_awaiting p = true ∨ (∃ c, p = LoadFulfilled c) →
                  first_rejection l = Some (t, e) →
                  (∃ path0, (path0, LoadRejected t e) ∈ (path, p) :: l)
                  ∧ ∀ path0 t' e', (path0, LoadRejected t' e') ∈ (path, p) :: l →
                                   t ≤ t').
  { intros Hp [[path0 Hin] Hmin]%IH. split; [exists path0; by right|].
    intros path1 t' e' [[= _ <-]|Hin']%elem_of_cons; [|eauto].
    destruct Hp as [?|[? ?]]; done. }
  destruct p as [t0 e0|t0 m ip ti|c]; [|apply Hskip; by left|apply Hskip; eauto].
  simpl. destruct (first_rejection l) as [[t1 e1]|] eqn:E.
  - destruct (IH t1 e1 eq_refl) as [[path1 Hin1] Hmin1].
    case_decide; intros [= <- <-].
    + split; [exists path; left|].
      intros path0 t' e' [[= -> -> ->]|Hin']%elem_of_cons; [done|].
      apply Hmin1 in Hin'. lia.
    + split; [exists path1; by right|].
      intros path0 t' e' [[= -> -> ->]|Hin']%elem_of_cons; [lia|eauto].
  - intros [= <- <-]. split; [exists path; left|].
    intros path0 t' e' [[= -> -> ->]|Hin']%elem_of_cons; [done|].
    exfalso. clear -E Hin'. induction l as [|[path2 p2] l IHl]; simpl in *.
    + by apply elem_of_nil in Hin'.
    + apply elem_of_cons in Hin' as [[= _ <-]|Hin'].
      * simpl in E.
        by destruct (first_rejection l) as [[? ?]|]; [case_decide|].
      * apply IHl; [|done].
        destruct p2 as [t2 e2|t2 m2 ip2 ti2|c2]; try done.
        by destruct (first_rejection l) as [[? ?]|]; [case_decide|].
Qed.

Lemma first_rejection_None l path t e :
  first_rejection l = None → (path, LoadRejected t e) ∉ l.
Proof.
  induction l as [|[path2 p2] l IH]; simpl; [intros _; apply not_elem_of_nil|].
  intros Hnone. rewrite not_elem_of_cons.
  destruct p2 as [t2 e2|t2 m2 ip2 ti2|c2].
  - by destruct (first_rejection l) as [[? ?]|]; [case_decide|].
  - split; [done | auto].
  - split; [done | auto].
Qed.

Lemma first_rejection_is_Some l path t e :
  (path, LoadRejected t e) ∈ l → is_Some (first_rejection l).
Proof.
  intros Hin. destruct (first_rejection l) eqn:E; [eauto|].
  by apply (first_rejection_None _ path t e) in E.
Qed.
(** **** loadAllCSFFiles and cacheAllCSFFiles *)



Lemma Promise_all_rejected l e :
  Promise_all l = inl e ↔ ∃ t, first_rejection l = Some (t, e).
Proof.
  unfold Promise_all. destruct (first_rejection l) as [[t e']|].
  - split; [intros [= ->]; eauto | by intros [t' [= _ ->]]].
  - split; [done | by intros [? ?]].
Qed.




Lemma loadAllCSFFiles_result s :
  let started := csfFilePromiseList s in
  let settled := (settle_loads (length started.1) started.1 (csf_cache s)).1 in
  (loadAllCSFFiles s).1
  = match Promise_all settled with
    | inl e => inl e
    | inr list => inr (foldl (λ acc pc, <[pc.1 := pc.2]> acc) ∅ list)
    end.
Proof.
  unfold loadAllCSFFiles. cbv zeta.
  replace (csf_cache (csfFilePromiseList s).2) with (csf_cache s)
    by by rewrite csfFilePromiseList_store.
  destruct (settle_loads _ _ _) as [settled cache].
  simpl. by destruct (Promise_all settled).
Qed.

Lemma imports_loadAllCSFFiles s :
  imports (loadAllCSFFiles s).2 = imports (csfFilePromiseList s).2.
Proof.
  unfold loadAllCSFFiles.
  destruct (settle_loads _ _ _) as [settled cache].
  by destruct (Promise_all settled).
Qed.

(** The load that fails first decides how [loadAllCSFFiles] ends. *)
Lemma loadAllCSFFiles_first_failure s path0 load0 reason0 :
  obj_wf (entries (storyIndex s)) →
  let loads := invocations (importFn s) (imports s)
                 (obj_keys (importPaths_of (storyIndex s))) in
  (path0, load0) ∈ loads →
  outcome load0 = inl reason0 →
  ∃ path load reason,
    (path, load) ∈ loads
    ∧ outcome load = inl reason
    ∧ (∀ path' load' reason',
         (path', load') ∈ loads →
         outcome load' = inl reason' →
         settle load ≤ settle load')
    ∧ (loadAllCSFFiles s).1 = inl (LoaderFailure reason).
Proof.
  intros Hwf loads Hpath0 Hfail0.
  destruct (csfFilePromiseList_invocations s Hwf)
    as (Htrace & Hpromises & Hloads).
  fold loads in Htrace, Hpromises, Hloads.
  assert (Hcalls : ∀ path load reason,
            (path, load) ∈ loads →
            outcome load = inl reason →
            (path, LoadRejected (S (settle load)) (LoaderFailure reason))
              ∈ (csfFilePromiseList s).1).
  { intros path load reason Hin Hfail.
    destruct (Hloads _ _ Hin) as (storyId & entry & _ & _ & _ & Hcall).
    unfold at_await in Hcall. by rewrite Hfail in Hcall. }
  destruct (first_rejection_is_Some _ _ _ _ (Hcalls _ _ _ Hpath0 Hfail0))
    as [[t e] Hfirst].
  destruct (first_rejection_Some _ _ _ Hfirst) as [[path Hin] Hmin].
  destruct (Hpromises _ _ Hin)
    as (storyId & entry & load & _ & _ & _ & Hload & Hcall).
  unfold at_await in Hcall.
  destruct (outcome load) as [reason|m] eqn:Hout; [|done].
  injection Hcall as -> ->.
  exists path, load, reason. split_and!; [done..| |].
  - intros path' load' reason' Hpath' Hfail'.
    specialize (Hmin _ _ _ (Hcalls _ _ _ Hpath' Hfail')). lia.
  - rewrite loadAllCSFFiles_result. simpl.
    destruct (Promise_all _) as [e|list] eqn:Hall.
    + apply Promise_all_rejected in Hall as [t Hall].
      rewrite (first_rejection_resumed _ _ _
                 (proj1 (settle_loads_resumed _ _ _))) in Hall.
      congruence.
    + unfold Promise_all in Hall.
      rewrite (first_rejection_resumed _ _ _
                 (proj1 (settle_loads_resumed _ _ _))) in Hall.
      by rewrite Hfirst in Hall.
Qed.

(** C2: when a load started by [loadAllCSFFiles] fails, the call rejects
    with the failure of the load that failed first and returns no map, and
    [cacheAllCSFFiles] rejects with it and leaves [cachedCSFFiles] as it
    was.  The loads are the invocations of the loader that the call adds to
    the trace, one for each import path in turn. *)
Theorem loadAllCSFFiles_fails_fast s path0 load0 reason0 :
  obj_wf (entries (storyIndex s)) →
  let loads := invocations (importFn s) (imports s)
                 (obj_keys (importPaths_of (storyIndex s))) in
  (path0, load0) ∈ loads →
  outcome load0 = inl reason0 →
  ∃ path load reason,
    (path, load) ∈ loads
    ∧ outcome load = inl reason
    ∧ (∀ path' load' reason',
         (path', load') ∈ loads →
         outcome load' = inl reason' →
         settle load ≤ settle load')
    ∧ (loadAllCSFFiles s).1 = inl (LoaderFailure reason)
    ∧ (cacheAllCSFFiles s).1 = inl (LoaderFailure reason)
    ∧ cachedCSFFiles (cacheAllCSFFiles s).2 = cachedCSFFiles s
    ∧ imports (loadAllCSFFiles s).2 = reverse loads ++ imports s.
Proof.
  intros Hwf loads Hpath0 Hfail0.
  destruct (loadAllCSFFiles_first_failure s _ _ _ Hwf Hpath0 Hfail0)
    as (path & load & reason & Hin & Hout & Hmin & Hresult).
  exists path, load, reason. split_and!; [done..| | |].
  - by apply cacheAllCSFFiles_error.
  - rewrite (cacheAllCSFFiles_failed s (LoaderFailure reason)).
    + apply cachedCSFFiles_loadAllCSFFiles.
    + by apply cacheAllCSFFiles_error.
  - rewrite imports_loadAllCSFFiles.
    by destruct (csfFilePromiseList_invocations s Hwf) as (-> & _).
Qed.




End Loads.

(** *** What every call preserves *)

Section Preserved.
Context `{!Collaborators}.
Variable P : StoryStore → Prop.
Hypothesis P_setProjectAnnotations :
  ∀ pa s, P s → P (setProjectAnnotations pa s).2.
Hypothesis P_set_importFn : ∀ f s, P s → P (set_importFn f s).
Hypothesis P_set_storyIndex : ∀ index s, P s → P (set_storyIndex index s).
Hypothesis P_set_imports : ∀ trace s, P s → P (set_imports trace s).
Hypothesis P_processCSFFileWithCache :
  ∀ moduleExports importPath title s,
    P s →
    P (set_csf_cache
         (processCSFFileWithCache moduleExports importPath title (csf_cache s)).2
         s).
Hypothesis P_storyFromCSFFile :
  ∀ storyId csfFile s, P s → P (storyFromCSFFile storyId csfFile s).2.
Hypothesis P_cleanupStory : ∀ story s, P s → P (cleanupStory story s).2.

Lemma set_csf_cache_same s : set_csf_cache (csf_cache s) s = s.
Proof. by destruct s. Qed.

Lemma loadCSFFileByStoryId_store storyId s :
  ∃ trace cache,
    cache_steps (csf_cache s) cache
    ∧ (loadCSFFileByStoryId storyId s).2
      = set_csf_cache cache (set_imports trace s).
Proof.
  unfold loadCSFFileByStoryId.
  rewrite (loadCSFFileByStoryId_call_store storyId s).
  set (trace := imports (loadCSFFileByStoryId_call storyId s).2).
  exists trace.
  destruct (loadCSFFileByStoryId_call storyId s).1
    as [t e|t m path ti|csfFile].
  - exists (csf_cache s). split; [constructor|].
    by rewrite <- (set_csf_cache_same (set_imports trace s)) at 1.
  - exists (processCSFFileWithCache m path ti (csf_cache s)).2.
    split; [repeat constructor|]. simpl.
    by destruct (processCSFFileWithCache m path ti (csf_cache s)).
  - exists (csf_cache s). split; [constructor|].
    by rewrite <- (set_csf_cache_same (set_imports trace s)) at 1.
Qed.

Lemma loadAllCSFFiles_store s :
  ∃ trace cache,
    cache_steps (csf_cache s) cache
    ∧ (loadAllCSFFiles s).2 = set_csf_cache cache (set_imports trace s).
Proof.
  unfold loadAllCSFFiles. cbv zeta.
  rewrite (csfFilePromiseList_store s).
  set (trace := imports (csfFilePromiseList s).2).
  pose proof (proj2 (settle_loads_resumed (length (csfFilePromiseList s).1)
                       (csfFilePromiseList s).1 (csf_cache s))) as Hsteps.
  simpl. destruct (settle_loads _ _ _) as [settled cache].
  exists trace, cache. split; [done|]. by destruct (Promise_all settled).
Qed.

Lemma cacheAllCSFFiles_store s :
  ∃ trace cache,
    cache_steps (csf_cache s) cache
    ∧ ((∃ e, cacheAllCSFFiles s
             = (inl e, set_csf_cache cache (set_imports trace s)))
       ∨ (∃ files,
            cacheAllCSFFiles s
            = (inr (),
               set_cachedCSFFiles (Some files)
                 (set_csf_cache cache (set_imports trace s))))).
Proof.
  destruct (loadAllCSFFiles_store s) as (trace & cache & Hsteps & Hcache).
  exists trace, cache. split; [done|]. unfold cacheAllCSFFiles, bind.
  destruct (loadAllCSFFiles s) as [[e|files] s']; simpl in Hcache; subst s';
    eauto.
Qed.

Lemma preserved_cache_steps s cache :
  P s → cache_steps (csf_cache s) cache → P (set_csf_cache cache s).
Proof.
  intros HP. induction 1 as [|cache m path ti Hsteps IH].
  - by rewrite set_csf_cache_same.
  - by apply (P_processCSFFileWithCache m path ti) in IH.
Qed.

Lemma preserved_loadCSFFileByStoryId storyId s :
  P s → P (loadCSFFileByStoryId storyId s).2.
Proof.
  intros HP.
  destruct (loadCSFFileByStoryId_store storyId s) as (trace & cache & ? & ->).
  apply preserved_cache_steps; [by apply P_set_imports | done].
Qed.

Lemma preserved_loadAllCSFFiles s : P s → P (loadAllCSFFiles s).2.
Proof.
  intros HP. destruct (loadAllCSFFiles_store s) as (trace & cache & ? & ->).
  apply preserved_cache_steps; [by apply P_set_imports | done].
Qed.

Lemma preserved_replaced newImportFn newIndex s :
  P s → P (replaced newImportFn newIndex s).
Proof. intros HP. unfold replaced. destruct newImportFn, newIndex; auto. Qed.

Lemma preserved_loadStory storyId s : P s → P (loadStory storyId s).2.
Proof.
  intros HP. unfold loadStory, bind.
  pose proof (preserved_loadCSFFileByStoryId storyId s HP) as HP'.
  destruct (loadCSFFileByStoryId storyId s) as [[e|csfFile] s']; [done|].
  by apply P_storyFromCSFFile.
Qed.

Lemma preserved_mapM csfFile ids s :
  P s → P (mapM (λ storyId, storyFromCSFFile storyId csfFile) ids s).2.
Proof.
  revert s. induction ids as [|storyId ids IH]; intros s HP; simpl; [done|].
  unfold bind at 1.
  pose proof (P_storyFromCSFFile storyId csfFile s HP) as HP'.
  destruct (storyFromCSFFile storyId csfFile s) as [[e|story] s']; [done|].
  unfold bind at 1. specialize (IH s' HP').
  by destruct (mapM _ ids s') as [[e|stories] s''].
Qed.

Lemma preserved_extract_reduce options files rest acc s :
  P s → P (extract_reduce options files rest acc s).2.
Proof.
  revert acc s. induction rest as [|[storyId entry] rest IH]; intros acc s HP;
    simpl; [done|].
  destruct (type entry); [|by apply IH].
  destruct (files !! importPath entry) as [csfFile|]; [|done].
  unfold bind.
  pose proof (P_storyFromCSFFile storyId csfFile s HP) as HP'.
  destruct (storyFromCSFFile storyId csfFile s) as [[e|story] s']; [done|].
  simpl in HP'.
  destruct (includeDocsOnly options) as [[]|]; try by apply IH.
  all: destruct (parameters_docsOnly story) as [e|docsOnly]; [done|].
  all: destruct (truthy docsOnly); by apply IH.
Qed.

Lemma preserved_extract options s : P s → P (extract options s).2.
Proof.
  intros HP. unfold extract. destruct (cachedCSFFiles s); [|done].
  by apply preserved_extract_reduce.
Qed.

Lemma preserved_fromId storyId s : P s → P (fromId storyId s).2.
Proof.
  intros HP. unfold fromId. destruct (cachedCSFFiles s) as [files|]; [|done].
  destruct (StoryIndexStore_storyIdToEntry _ _) as [e|entry]; [done|].
  destruct (files !! importPath entry) as [csfFile|]; [|done].
  unfold bind.
  pose proof (P_storyFromCSFFile storyId csfFile s HP) as HP'.
  by destruct (storyFromCSFFile storyId csfFile s) as [[e|story] s'].
Qed.


Hypothesis P_set_cachedCSFFiles :
  ∀ files s, P s → P (set_cachedCSFFiles (Some files) s).

Lemma preserved_cacheAllCSFFiles s : P s → P (cacheAllCSFFiles s).2.
Proof.
  intros HP.
  destruct (cacheAllCSFFiles_store s)
    as (trace & cache & Hsteps & [[e ->]|[files ->]]); simpl;
    auto using preserved_cache_steps.
Qed.

(** Every call preserves [P]. *)
Lemma preserved_exec c s : P s → P (exec c s).2.
Proof.
  intros HP.
  destruct c as [pa|f index|storyId|storyId| | |storyId|storyId csfFile|csfFile|story|options|storyId]; simpl.
  - by apply P_setProjectAnnotations.
  - unfold onStoriesChanged.
    pose proof (preserved_replaced f index s HP) as HP'.
    destruct (cachedCSFFiles _); [|done].
    by apply preserved_cacheAllCSFFiles.
  - done.
  - by apply preserved_loadCSFFileByStoryId.
  - by apply preserved_loadAllCSFFiles.
  - by apply preserved_cacheAllCSFFiles.
  - by apply preserved_loadStory.
  - by apply P_storyFromCSFFile.
  - by apply preserved_mapM.
  - by apply P_cleanupStory.
  - by apply preserved_extract.
  - by apply preserved_fromId.
Qed.
End Preserved.

(** *** The hook registry *)

Section Hooks.
Context `{!Collaborators}.
Implicit Types (s : StoryStore) (story : PreparedStory).

Lemma single_handles_same s s' :
  hooks s' = hooks s → hooks_created s' = hooks_created s →
  single_handles s → single_handles s'.
Proof. unfold single_handles. by intros -> ->. Qed.

Lemma single_handles_ensure story s :
  single_handles s → single_handles (ensure_HooksContext story s).
Proof.
  intros (Hsize & Hlt & Hinj). unfold single_handles.
  rewrite hooks_ensure_HooksContext, hooks_created_ensure_HooksContext.
  destruct (hooks s !! story_id story) as [context|] eqn:E; [done|].
  destruct (inherited (story_id story)); [done|].
  split_and!.
  - rewrite map_size_insert_None by done. by rewrite Hsize.
  - intros id context. rewrite lookup_insert_Some.
    intros [[_ <-]|[_ Hid]]; simpl; [lia|]. apply Hlt in Hid. lia.
  - intros id1 id2 c1 c2. rewrite !lookup_insert_Some.
    intros [[<- <-]|[Hne1 H1]] [[<- <-]|[Hne2 H2]]; simpl; try done.
    + intros Hoid. apply Hlt in H2. lia.
    + intros Hoid. apply Hlt in H1. lia.
    + eauto.
Qed.

Lemma single_handles_storyFromCSFFile storyId csfFile s :
  single_handles s → single_handles (storyFromCSFFile storyId csfFile s).2.
Proof.
  intros Hs.
  destruct (storyFromCSFFile storyId csfFile s) as [[e|story] s'] eqn:E.
  - by apply storyFromCSFFile_error in E as (_ & _ & ->).
  - apply storyFromCSFFile_ok in E as (sa & _ & _ & ->). simpl.
    apply single_handles_ensure. revert Hs. by apply single_handles_same.
Qed.

Lemma single_handles_cleanupStory story s :
  single_handles s → single_handles (cleanupStory story s).2.
Proof.
  intros (Hsize & Hlt & Hinj). unfold cleanupStory.
  destruct (hooks s !! story_id story) as [context|] eqn:E; [|done].
  unfold single_handles. simpl. split_and!.
  - rewrite map_size_insert_Some by eauto. done.
  - intros id c. rewrite lookup_insert_Some.
    intros [[_ <-]|[_ Hid]]; simpl; eauto.
  - intros id1 id2 c1 c2. rewrite !lookup_insert_Some.
    intros [[<- <-]|[Hne1 H1]] [[<- <-]|[Hne2 H2]]; simpl; eauto.
Qed.

Lemma single_handles_exec c s :
  single_handles s → single_handles (exec c s).2.
Proof.
  apply (preserved_exec single_handles); try done.
  - intros. by apply single_handles_storyFromCSFFile.
  - intros. by apply single_handles_cleanupStory.
Qed.

Lemma single_handles_new index f projectAnnotations :
  single_handles (new_StoryStore index f projectAnnotations).
Proof.
  unfold single_handles. simpl. split_and!; [done|..].
  - intros id c. by rewrite lookup_empty.
  - intros id1 id2 c1 c2. by rewrite lookup_empty.
Qed.

Lemma reachable_single_handles s : reachable s → single_handles s.
Proof.
  induction 1; [apply single_handles_new | by apply single_handles_exec].
Qed.

Lemma no_inherited_handles_storyFromCSFFile storyId csfFile s :
  no_inherited_handles s →
  no_inherited_handles (storyFromCSFFile storyId csfFile s).2.
Proof.
  intros Hs.
  destruct (storyFromCSFFile storyId csfFile s) as [[e|story] s'] eqn:E.
  - by apply storyFromCSFFile_error in E as (_ & _ & ->).
  - apply storyFromCSFFile_ok in E as (sa & _ & _ & ->). simpl.
    intros id Hid. rewrite hooks_ensure_HooksContext. simpl.
    destruct (hooks s !! story_id story) eqn:E; [by apply Hs|].
    destruct (inherited (story_id story)) eqn:Hstory; [by apply Hs|].
    rewrite lookup_insert_ne by congruence. by apply Hs.
Qed.

Lemma no_inherited_handles_cleanupStory story s :
  no_inherited_handles s → no_inherited_handles (cleanupStory story s).2.
Proof.
  intros Hs. unfold cleanupStory.
  destruct (hooks s !! story_id story) as [context|] eqn:E; [|done].
  intros id Hid. simpl.
  rewrite lookup_insert_ne; [by apply Hs|].
  intros <-. by rewrite (Hs _ Hid) in E.
Qed.

Lemma no_inherited_handles_exec c s :
  no_inherited_handles s → no_inherited_handles (exec c s).2.
Proof.
  apply (preserved_exec no_inherited_handles); try done.
  - intros. by apply no_inherited_handles_storyFromCSFFile.
  - intros. by apply no_inherited_handles_cleanupStory.
Qed.

Lemma reachable_no_inherited_handles s :
  reachable s → no_inherited_handles s.
Proof.
  induction 1; [|by apply no_inherited_handles_exec].
  intros id _. apply lookup_empty.
Qed.

(** C6: in every store a client can reach, the registry holds one hooks
    context per identifier, each a distinct object, and as many as were
    ever created, none of them under a name inherited from
    [Object.prototype]; a [storyFromCSFFile] that succeeds leaves a context
    registered for its story unless the story's identifier is such a name,
    and when one was registered before the call, or the identifier is such a
    name, the registry is unchanged and no context is created. *)
Theorem hooks_one_per_story s storyId csfFile story s' :
  reachable s →
  storyFromCSFFile storyId csfFile s = (inr story, s') →
  single_handles s
  ∧ single_handles s'
  ∧ (∀ id, inherited id = true → hooks s !! id = None ∧ hooks s' !! id = None)
  ∧ (inherited (story_id story) = false → is_Some (hooks s' !! story_id story))
  ∧ (is_Some (hooks s !! story_id story) ∨ inherited (story_id story) = true →
     hooks s' = hooks s ∧ hooks_created s' = hooks_created s).
Proof.
  intros Hreach Hcall.
  pose proof (reachable_single_handles s Hreach) as Hs.
  pose proof (reachable_no_inherited_handles s Hreach) as Hown.
  split_and!; [done|..].
  - pose proof (single_handles_storyFromCSFFile storyId csfFile s Hs) as Hs'.
    by rewrite Hcall in Hs'.
  - intros id Hid. split; [by apply Hown|].
    pose proof (no_inherited_handles_storyFromCSFFile storyId csfFile s Hown)
      as Hown'.
    rewrite Hcall in Hown'. by apply Hown'.
  - intros Hid. apply storyFromCSFFile_ok in Hcall as (sa & _ & _ & ->).
    rewrite hooks_ensure_HooksContext. simpl.
    destruct (hooks s !! story_id story) eqn:E; [by rewrite E|].
    rewrite Hid, lookup_insert_eq. eauto.
  - intros Hbefore.
    apply storyFromCSFFile_ok in Hcall as (sa & _ & _ & ->).
    rewrite hooks_ensure_HooksContext, hooks_created_ensure_HooksContext.
    simpl. destruct Hbefore as [[context ->]| ->]; [done|].
    by destruct (hooks s !! story_id story).
Qed.
End Hooks.

(** *** The cached CSF files *)

Section Files.
Context `{!Collaborators}.
Implicit Types (s : StoryStore).

Lemma processCSFFileWithCache_ok moduleExports path title cache :
  csf_cache_ok cache →
  csf_cache_ok (processCSFFileWithCache moduleExports path title cache).2
  ∧ processed_from (oid moduleExports, path, title)
      (processCSFFileWithCache moduleExports path title cache).1.
Proof.
  intros Hok. unfold processCSFFileWithCache.
  match goal with
  | |- context [memoize ?limit ?key ?fn cache] =>
      destruct (memoize_result limit key fn cache) as [Hvalue Hentries];
      set (call := memoize limit key fn cache) in *
  end.
  assert (Hmade : processed_from (oid moduleExports, path, title) call.1).
  { destruct Hvalue as [Hin| ->]; [by apply Hok|].
    by exists moduleExports, (memo_next cache). }
  split; [|done].
  intros key csfFile [Hin|[= -> ->]]%Hentries; [by apply Hok | done].
Qed.

Lemma cache_steps_ok cache0 cache :
  csf_cache_ok cache0 → cache_steps cache0 cache → csf_cache_ok cache.
Proof.
  intros Hok. induction 1; [done|]. by apply processCSFFileWithCache_ok.
Qed.

Lemma csf_cache_storyFromCSFFile storyId csfFile s :
  csf_cache (storyFromCSFFile storyId csfFile s).2 = csf_cache s.
Proof.
  destruct (obj_read storyId (stories csfFile)) as [sa|] eqn:Hsa.
  - rewrite (storyFromCSFFile_found _ _ _ _ Hsa). simpl.
    unfold ensure_HooksContext.
    by destruct (hooks _ !! _); [|destruct (inherited _)].
  - by rewrite (storyFromCSFFile_missing _ _ _ Hsa).
Qed.

Lemma reachable_csf_cache_ok s : reachable s → csf_cache_ok (csf_cache s).
Proof.
  induction 1 as [|c s Hs IH].
  - intros key csfFile. simpl. by intros ?%elem_of_nil.
  - revert IH. apply (preserved_exec (λ s, csf_cache_ok (csf_cache s)));
      try done.
    + intros m path title s0 Hs0. simpl.
      by apply processCSFFileWithCache_ok.
    + intros storyId csfFile s0. by rewrite csf_cache_storyFromCSFFile.
    + intros story s0. unfold cleanupStory.
      by destruct (hooks s0 !! story_id story).
Qed.

End Files.

(** *** extract *)

Section Extract.
Context `{!Collaborators}.
Implicit Types (s : StoryStore) (story : PreparedStory).

Lemma extract_fold_get (own : Obj JSValue) (acc : Obj JSValue) k :
  NoDup own.*1 →
  obj_get k
    (foldl (λ storyAcc kv,
              if decide (kv.1 = "moduleExport") then storyAcc
              else match kv.2 with
                   | JFun _ => storyAcc
                   | JArr value => obj_set kv.1 (JArr (js_sort value)) storyAcc
                   | value => obj_set kv.1 value storyAcc
                   end) acc own)
  = match obj_get k own with
    | Some v =>
        if decide (k = "moduleExport") then obj_get k acc
        else match v with
             | JFun _ => obj_get k acc
             | JArr value => Some (JArr (js_sort value))
             | _ => Some v
             end
    | None => obj_get k acc
    end.
Proof.
  revert acc. induction own as [|[k0 v0] own IH]; intros acc; [done|].
  rewrite fmap_cons, NoDup_cons. intros [Hk0 Hown]. simpl foldl.
  match goal with
  | |- obj_get k (foldl _ ?a own) = _ => set (acc' := a)
  end.
  assert (Hacc' : obj_get k acc'
                  = if decide (k = k0)
                    then if decide (k0 = "moduleExport") then obj_get k acc
                         else match v0 with
                              | JFun _ => obj_get k acc
                              | JArr value => Some (JArr (js_sort value))
                              | _ => Some v0
                              end
                    else obj_get k acc).
  { unfold acc'. simpl. destruct (decide (k0 = "moduleExport")).
    - by destruct (decide (k = k0)).
    - unfold obj_get, obj_set.
      destruct v0; rewrite ?assoc_assign; by destruct (decide (k = k0)). }
  rewrite IH by done. rewrite Hacc'. clear Hacc'. clearbody acc'.
  assert (obj_get k ((k0, v0) :: own)
          = if decide (k = k0) then Some v0 else obj_get k own) as -> by done.
  destruct (decide (k = k0)) as [->|Hne]; [|done].
  assert (obj_get k0 own = None) as -> by by apply assoc_None.
  done.
Qed.

Lemma extract_story_get story k :
  obj_wf (props story) →
  obj_get k (extract_story story)
  = match obj_get k (props story) with
    | Some v =>
        if decide (k = "moduleExport") then None
        else match v with
             | JFun _ => if decide (k = "args") then Some (initialArgs story)
                         else None
             | JArr value => Some (JArr (js_sort value))
             | _ => Some v
             end
    | None => if decide (k = "args") then Some (initialArgs story) else None
    end.
Proof.
  intros Hwf. unfold extract_story. rewrite extract_fold_get by done.
  unfold obj_get at 2 3 4. simpl.
  destruct (obj_get k (props story)) as [v|]; [|done].
  destruct (decide (k = "moduleExport")) as [->|]; [done|].
  by destruct v.
Qed.

Lemma extract_fold_keys (own : Obj JSValue) (acc : Obj JSValue) :
  NoDup (acc.*1 ++ own.*1) →
  obj_keys
    (foldl (λ storyAcc kv,
              if decide (kv.1 = "moduleExport") then storyAcc
              else match kv.2 with
                   | JFun _ => storyAcc
                   | JArr value => obj_set kv.1 (JArr (js_sort value)) storyAcc
                   | value => obj_set kv.1 value storyAcc
                   end) acc own)
  = obj_keys acc
    ++ (filter (λ kv, kv.1 ≠ "moduleExport" ∧ is_function kv.2 = false)
               own).*1.
Proof.
  revert acc. induction own as [|[k v] own IH]; intros acc Hdup.
  { simpl. by rewrite app_nil_r. }
  unfold Obj. rewrite filter_cons. simpl foldl. cbn [fst snd].
  apply NoDup_app in Hdup as (Hacc & Hdisj & Hown).
  rewrite fmap_cons in Hown. apply NoDup_cons in Hown as [Hk Hown].
  assert (Hskip : NoDup (acc.*1 ++ own.*1)).
  { apply NoDup_app. split_and!; [done| |done].
    intros x Hx Hx'. apply (Hdisj x Hx). by right. }
  assert (Hnew : k ∉ acc.*1).
  { intros Hin. apply (Hdisj k Hin). left. }
  assert (Hadd : ∀ v', NoDup ((assign k v' acc).*1 ++ own.*1)).
  { intros v'. rewrite assign_keys_new by done. rewrite <- app_assoc. simpl.
    apply NoDup_app. split_and!; [done| |by apply NoDup_cons].
    intros x Hx [->|Hx']%elem_of_cons; [done|]. apply (Hdisj x Hx). by right. }
  destruct (decide (k = "moduleExport")) as [->|Hne].
  { rewrite decide_False by (by intros [? _]). by apply IH. }
  destruct v; simpl;
    try (rewrite decide_True by done; rewrite IH by apply Hadd;
         unfold obj_keys, obj_set; rewrite assign_keys_new by done;
         by rewrite <- app_assoc).
  rewrite decide_False by (by intros [_ ?]). by apply IH.
Qed.

Lemma sort_le_spec a b :
  sort_le a b = true
  ↔ b = JUndefined
    ∨ (a ≠ JUndefined
       ∧ code_units_le (code_units (ToString a)) (code_units (ToString b))
         = true).
Proof.
  unfold sort_le. destruct a, b; naive_solver.
Qed.

Lemma Sorted_weaken {A} (R R' : A → A → Prop) l :
  (∀ x y, R x y → R' x y) → Sorted R l → Sorted R' l.
Proof.
  intros HR. induction 1 as [|x l _ IH Hhd]; constructor; [done|].
  destruct Hhd; constructor. by apply HR.
Qed.

(** What [extract] makes of a story of the type [PreparedStory]. *)
Lemma extract_story_typed story :
  PreparedStory_typed story →
  obj_keys (extract_story story)
  = "args" :: (filter (λ kv, kv.1 ≠ "moduleExport" ∧ is_function kv.2 = false)
                      (props story)).*1
  ∧ (∀ k v,
       obj_get k (props story) = Some v →
       k ≠ "moduleExport" →
       is_function v = false →
       obj_get k (extract_story story)
       = Some (match v with
               | JArr value => JArr (js_sort value)
               | _ => v
               end))
  ∧ (∀ k v, obj_get k (extract_story story) = Some v → is_function v = false)
  ∧ (∀ k elems,
       obj_get k (extract_story story) = Some (JArr elems) →
       ∃ value,
         obj_get k (props story) = Some (JArr value)
         ∧ value ≡ₚ elems
         ∧ Sorted (λ a b,
                     b = JUndefined
                     ∨ (a ≠ JUndefined
                        ∧ code_units_le (code_units (ToString a))
                                        (code_units (ToString b)) = true))
                  elems)
  ∧ obj_get "args" (extract_story story) = Some (initialArgs story).
Proof.
  intros (Hwf & Hargs & own & Hinit). split_and!.
  - unfold extract_story. rewrite extract_fold_keys; [done|].
    simpl. apply NoDup_cons. split; [|done]. by apply assoc_None.
  - intros k v Hk Hne Hfun. rewrite extract_story_get by done.
    rewrite Hk, decide_False by done. by destruct v.
  - intros k v. rewrite extract_story_get by done.
    destruct (obj_get k (props story)) as [v0|] eqn:Hk.
    + destruct (decide (k = "moduleExport")); [done|].
      destruct v0; try by intros [= <-].
      destruct (decide (k = "args")) as [->|]; [congruence | done].
    + destruct (decide (k = "args")); [|done].
      rewrite Hinit. by intros [= <-].
  - intros k elems. rewrite extract_story_get by done.
    destruct (obj_get k (props story)) as [v0|] eqn:Hk.
    + destruct (decide (k = "moduleExport")); [done|].
      destruct v0; try done.
      * destruct (decide (k = "args")) as [->|]; [congruence | done].
      * intros [= <-]. exists elems0.
        destruct (js_sort_sorted elems0) as [Hperm Hsorted].
        split_and!; [done..|].
        revert Hsorted. apply Sorted_weaken. intros a b. apply sort_le_spec.
    + destruct (decide (k = "args")); [|done].
      rewrite Hinit. done.
  - rewrite extract_story_get by done. by rewrite Hargs.
Qed.

(** Where the records of [extract] come from: each from a story entry, and
    from the story that [storyFromCSFFile] returned when the [reduce] came to
    that entry. *)
Lemma extract_reduce_records options files rest acc s r s' id rec :
  extract_reduce options files rest acc s = (inr r, s') →
  obj_get id r = Some rec →
  obj_get id acc = Some rec
  ∨ ∃ entry csfFile before after acc1 s1 s2 story,
      rest = before ++ (id, entry) :: after
      ∧ type entry = type_story
      ∧ files !! importPath entry = Some csfFile
      ∧ extract_reduce options files before acc s = (inr acc1, s1)
      ∧ storyFromCSFFile id csfFile s1 = (inr story, s2)
      ∧ rec = extract_story story
      ∧ (includeDocsOnly options = Some true
         ∨ ∃ docsOnly, parameters_docsOnly story = inr docsOnly
                       ∧ truthy docsOnly = false).
Proof.
  revert acc s. induction rest as [|[storyId entry] rest IH]; intros acc s.
  { simpl. intros [= <- <-]. by left. }
  assert (Hlater : ∀ acc' s'',
            (∀ before,
               extract_reduce options files ((storyId, entry) :: before) acc s
               = extract_reduce options files before acc' s'') →
            extract_reduce options files rest acc' s'' = (inr r, s') →
            obj_get id r = Some rec →
            obj_get id acc' = Some rec
            ∨ ∃ entry0 csfFile before after acc1 s1 s2 story,
                (storyId, entry) :: rest = before ++ (id, entry0) :: after
                ∧ type entry0 = type_story
                ∧ files !! importPath entry0 = Some csfFile
                ∧ extract_reduce options files before acc s = (inr acc1, s1)
                ∧ storyFromCSFFile id csfFile s1 = (inr story, s2)
                ∧ rec = extract_story story
                ∧ (includeDocsOnly options = Some true
                   ∨ ∃ docsOnly, parameters_docsOnly story = inr docsOnly
                                 ∧ truthy docsOnly = false)).
  { intros acc' s'' Hhead Hrun Hrec.
    destruct (IH _ _ Hrun Hrec)
      as [?|(e0 & c0 & before & after & acc1 & s1 & s2 & st & -> & ? & ? & Hbefore
             & ?)]; [by left|].
    right. exists e0, c0, ((storyId, entry) :: before), after, acc1, s1, s2, st.
    rewrite Hhead. done. }
  simpl. destruct (type entry) eqn:Htype;
    [|apply Hlater; intros before; simpl; by rewrite Htype].
  destruct (files !! importPath entry) as [csfFile|] eqn:Hfile; [|done].
  unfold bind.
  destruct (storyFromCSFFile storyId csfFile s) as [[e|story] s1] eqn:Hcall;
    [done|].
  assert (Hadded : ∀ s'',
            (∀ before,
               extract_reduce options files ((storyId, entry) :: before) acc s
               = extract_reduce options files before
                   (obj_set storyId (extract_story story) acc) s'') →
            (includeDocsOnly options = Some true
             ∨ ∃ docsOnly, parameters_docsOnly story = inr docsOnly
                           ∧ truthy docsOnly = false) →
            extract_reduce options files rest
              (obj_set storyId (extract_story story) acc) s'' = (inr r, s') →
            obj_get id r = Some rec →
            obj_get id acc = Some rec
            ∨ ∃ entry0 csfFile before after acc1 s1 s2 story,
                (storyId, entry) :: rest = before ++ (id, entry0) :: after
                ∧ type entry0 = type_story
                ∧ files !! importPath entry0 = Some csfFile
                ∧ extract_reduce options files before acc s = (inr acc1, s1)
                ∧ storyFromCSFFile id csfFile s1 = (inr story, s2)
                ∧ rec = extract_story story
                ∧ (includeDocsOnly options = Some true
                   ∨ ∃ docsOnly, parameters_docsOnly story = inr docsOnly
                                 ∧ truthy docsOnly = false)).
  { intros s'' Hhead Hdocs Hrun Hrec.
    destruct (Hlater _ _ Hhead Hrun Hrec) as [Hacc|?]; [|by right].
    unfold obj_get, obj_set in Hacc. rewrite assoc_assign in Hacc.
    destruct (decide (id = storyId)) as [->|]; [|by left].
    injection Hacc as <-. right.
    by exists entry, csfFile, [], rest, acc, s, s1, story. }
  destruct (includeDocsOnly options) as [[]|] eqn:Hinclude.
  - apply Hadded; [|by left]. intros before. simpl.
    rewrite Htype, Hfile. unfold bind. by rewrite Hcall, Hinclude.
  - destruct (parameters_docsOnly story) as [e|docsOnly] eqn:Hdocs; [done|].
    destruct (truthy docsOnly) eqn:Htruthy.
    + apply Hlater. intros before. simpl.
      rewrite Htype, Hfile. unfold bind.
      by rewrite Hcall, Hinclude, Hdocs, Htruthy.
    + apply Hadded; [|right; by exists docsOnly]. intros before. simpl.
      rewrite Htype, Hfile. unfold bind.
      by rewrite Hcall, Hinclude, Hdocs, Htruthy.
  - destruct (parameters_docsOnly story) as [e|docsOnly] eqn:Hdocs; [done|].
    destruct (truthy docsOnly) eqn:Htruthy.
    + apply Hlater. intros before. simpl.
      rewrite Htype, Hfile. unfold bind.
      by rewrite Hcall, Hinclude, Hdocs, Htruthy.
    + apply Hadded; [|right; by exists docsOnly]. intros before. simpl.
      rewrite Htype, Hfile. unfold bind.
      by rewrite Hcall, Hinclude, Hdocs, Htruthy.
Qed.

(** **** The stories that reach extract *)

Lemma prepared_stories_same s s' :
  story_cache s' = story_cache s → prepared_stories s → prepared_stories s'.
Proof. unfold prepared_stories. by intros ->. Qed.

Lemma storyFromCSFFile_prepared storyId csfFile s :
  prepared_stories s →
  prepared_stories (storyFromCSFFile storyId csfFile s).2
  ∧ ∀ story, (storyFromCSFFile storyId csfFile s).1 = inr story →
             ∃ sa ca pa, props story = prepareStory sa ca pa.
Proof.
  intros Hs.
  destruct (obj_read storyId (stories csfFile)) as [sa|] eqn:Hsa.
  - rewrite (storyFromCSFFile_found _ _ _ _ Hsa). simpl.
    pose proof (memoize_result STORY_CACHE_SIZE
                  (oid sa, oid (meta csfFile), oid (projectAnnotations s))
                  (λ next,
                     ({| oid := next;
                         props := prepareStory sa (meta csfFile)
                                               (projectAnnotations s) |},
                      S next))
                  (story_cache s)) as [Hvalue Hentries].
    fold (prepareStoryWithCache sa (meta csfFile) (projectAnnotations s)
                                (story_cache s)) in Hvalue, Hentries.
    assert (Hstory : ∃ sa' ca pa,
              props (prepareStoryWithCache sa (meta csfFile)
                       (projectAnnotations s) (story_cache s)).1
              = prepareStory sa' ca pa).
    { destruct Hvalue as [Hin| ->]; [by apply Hs in Hin|].
      simpl. by eexists _, _, _. }
    split.
    + intros key story. rewrite story_cache_ensure_HooksContext. simpl.
      intros [Hin|[= _ ->]]%Hentries; [by apply Hs in Hin | done].
    + by intros story [= <-].
  - rewrite (storyFromCSFFile_missing _ _ _ Hsa). by split.
Qed.

Lemma prepared_stories_exec c s :
  prepared_stories s → prepared_stories (exec c s).2.
Proof.
  apply (preserved_exec prepared_stories); try done.
  - intros storyId csfFile s0 Hs0. by apply storyFromCSFFile_prepared.
  - intros story s0. apply prepared_stories_same. unfold cleanupStory.
    by destruct (hooks s0 !! story_id story).
Qed.

Lemma reachable_prepared_stories s : reachable s → prepared_stories s.
Proof.
  induction 1; [|by apply prepared_stories_exec].
  intros key story. simpl. by intros ?%elem_of_nil.
Qed.

Lemma cachedCSFFiles_storyFromCSFFile storyId csfFile s :
  cachedCSFFiles (storyFromCSFFile storyId csfFile s).2 = cachedCSFFiles s.
Proof.
  destruct (obj_read storyId (stories csfFile)) as [sa|] eqn:Hsa.
  - rewrite (storyFromCSFFile_found _ _ _ _ Hsa). simpl.
    unfold ensure_HooksContext.
    by destruct (hooks _ !! _); [|destruct (inherited _)].
  - by rewrite (storyFromCSFFile_missing _ _ _ Hsa).
Qed.



Lemma prepared_stories_extract_reduce options files rest acc s :
  prepared_stories s →
  prepared_stories (extract_reduce options files rest acc s).2.
Proof.
  apply (preserved_extract_reduce prepared_stories).
  intros storyId csfFile s0 Hs0. by apply storyFromCSFFile_prepared.
Qed.

(** C8: every record in the mapping [extract] returns comes from a story
    entry of the index, and from the story that [storyFromCSFFile] resolved
    from the cached CSF file of its import path when the [reduce] came to
    that entry; that story is not marked [docsOnly] unless [includeDocsOnly]
    is set.  With [prepareStory] making stories of the type [PreparedStory],
    the record has [args], the story's [initialArgs], and after it every
    field of the story but [moduleExport] and the functions, in the story's
    order: each with the story's value, an array with a sorted copy of it,
    [undefined] last and the other elements in the order of the code units
    of their [ToString]; so no field of the record is a function. *)
Theorem extract_records s options r s' id rec :
  reachable s →
  (∀ sa ca pa story,
     props story = prepareStory sa ca pa → PreparedStory_typed story) →
  extract options s = (inr r, s') →
  obj_get id r = Some rec →
  let options' := default {| includeDocsOnly := Some false |} options in
  ∃ files entry csfFile before after acc1 s1 s2 story,
    cachedCSFFiles s = Some files
    ∧ entries (storyIndex s) = before ++ (id, entry) :: after
    ∧ type entry = type_story
    ∧ files !! importPath entry = Some csfFile
    ∧ extract_reduce options' files before [] s = (inr acc1, s1)
    ∧ storyFromCSFFile id csfFile s1 = (inr story, s2)
    ∧ (includeDocsOnly options' = Some true
       ∨ ∃ docsOnly, parameters_docsOnly story = inr docsOnly
                     ∧ truthy docsOnly = false)
    ∧ obj_keys rec
      = "args" :: (filter (λ kv, kv.1 ≠ "moduleExport"
                                 ∧ is_function kv.2 = false)
                          (props story)).*1
    ∧ (∀ k v,
         obj_get k (props story) = Some v →
         k ≠ "moduleExport" →
         is_function v = false →
         obj_get k rec = Some (match v with
                               | JArr value => JArr (js_sort value)
                               | _ => v
                               end))
    ∧ (∀ k v, obj_get k rec = Some v → is_function v = false)
    ∧ (∀ k elems,
         obj_get k rec = Some (JArr elems) →
         ∃ value,
           obj_get k (props story) = Some (JArr value)
           ∧ value ≡ₚ elems
           ∧ Sorted (λ a b,
                       b = JUndefined
                       ∨ (a ≠ JUndefined
                          ∧ code_units_le (code_units (ToString a))
                                          (code_units (ToString b)) = true))
                    elems)
    ∧ obj_get "args" rec = Some (initialArgs story).
Proof.
  intros Hreach Htyped Hrun Hrec options'. unfold extract in Hrun.
  fold options' in Hrun.
  destruct (cachedCSFFiles s) as [files|]; [|done].
  destruct (extract_reduce_records _ _ _ _ _ _ _ _ _ Hrun Hrec)
    as [?|(entry & csfFile & before & after & acc1 & s1 & s2 & story & Hin
           & Htype & Hfile & Hbefore & Hcall & -> & Hdocs)]; [done|].
  exists files, entry, csfFile, before, after, acc1, s1, s2, story.
  split_and!; try done.
  all: assert (PreparedStory_typed story) as Hstory.
  all: try (pose proof (prepared_stories_extract_reduce options' files before
                          [] s (reachable_prepared_stories s Hreach)) as Hs1;
            rewrite Hbefore in Hs1;
            destruct (storyFromCSFFile_prepared id csfFile s1 Hs1) as [_ Hmade];
            rewrite Hcall in Hmade;
            destruct (Hmade story eq_refl) as (sa & ca & pa & Hprops);
            by apply (Htyped sa ca pa)).
  all: by apply extract_story_typed.
Qed.

(** **** The gate *)

Lemma later_preserved (P : StoryStore → Prop) s s' :
  (∀ c s0, P s0 → P (exec c s0).2) → later s s' → P s → P s'.
Proof. intros Hexec Hlater HP. induction Hlater; auto. Qed.

Lemma cachedCSFFiles_exec c s :
  is_Some (cachedCSFFiles s) → is_Some (cachedCSFFiles (exec c s).2).
Proof.
  apply (preserved_exec (λ s, is_Some (cachedCSFFiles s))); try done.
  - intros storyId csfFile s0. by rewrite cachedCSFFiles_storyFromCSFFile.
  - intros story s0. unfold cleanupStory.
    by destruct (hooks s0 !! story_id story).
Qed.


Lemma extract_reduce_errors options files rest acc s e :
  (extract_reduce options files rest acc s).1 = inl e →
  e = TypeError ∨ ∃ storyId, e = MissingStoryFromCsfFileError storyId.
Proof.
  revert acc s. induction rest as [|[storyId entry] rest IH]; intros acc s;
    simpl; [done|].
  destruct (type entry); [|by apply IH].
  destruct (files !! importPath entry) as [csfFile|];
    [|intros [= <-]; by left].
  unfold bind.
  destruct (storyFromCSFFile storyId csfFile s) as [[e'|story] s1] eqn:Hcall.
  - apply storyFromCSFFile_error in Hcall as (_ & -> & _).
    intros [= <-]. right. by exists storyId.
  - destruct (includeDocsOnly options) as [[]|]; try by apply IH.
    all: destruct (parameters_docsOnly story) as [e'|docsOnly] eqn:Hdocs;
      [|destruct (truthy docsOnly); by apply IH].
    all: unfold parameters_docsOnly in Hdocs.
    all: destruct (prop "parameters" (props story)); try done.
    all: injection Hdocs as <-; intros [= <-]; by left.
Qed.



End Extract.

(** *** The caches and the registries over time *)

Section MemoizeBounds.
Context {K V : Type} `{EqDecision K}.

Lemma unassoc_sublist (k : K) (l : list (K * V)) : unassoc k l `sublist_of` l.
Proof.
  induction l as [|[k' v'] l IH]; simpl; [done|].
  case_decide; [by apply sublist_cons | by apply sublist_skip].
Qed.

Lemma not_elem_of_unassoc_keys (k : K) (l : list (K * V)) :
  k ∉ (unassoc k l).*1.
Proof.
  induction l as [|[k' v'] l IH]; csimpl; [apply not_elem_of_nil|].
  case_decide; [done|]. csimpl. by rewrite not_elem_of_cons.
Qed.

Lemma unassoc_length (k : K) (v : V) (l : list (K * V)) :
  assoc k l = Some v → length (unassoc k l) < length l.
Proof.
  induction l as [|[k' v'] l IH]; simpl; [done|].
  case_decide.
  - intros _. pose proof (sublist_length _ _ (unassoc_sublist k l)). lia.
  - intros Hl. simpl. specialize (IH Hl). lia.
Qed.

(** A memoized call keeps the keys distinct and the entries within the
    limit. *)
Lemma memoize_bounded limit (key : K) fn (m : Memo K V) :
  NoDup (memo_entries m).*1 →
  length (memo_entries m) ≤ N.to_nat limit →
  NoDup (memo_entries (memoize limit key fn m).2).*1
  ∧ length (memo_entries (memoize limit key fn m).2) ≤ N.to_nat limit.
Proof.
  intros Hdup Hlen. unfold memoize.
  destruct (assoc key (memo_entries m)) as [v|] eqn:Hkey; simpl.
  - split.
    + csimpl. apply NoDup_cons. split; [apply not_elem_of_unassoc_keys|].
      eapply sublist_NoDup; [exact Hdup|]. apply fmap_sublist, unassoc_sublist.
    + pose proof (unassoc_length _ _ _ Hkey). lia.
  - destruct (fn (memo_next m)) as [v next]; simpl. split.
    + rewrite fmap_take. eapply sublist_NoDup; [|apply sublist_take].
      csimpl. apply NoDup_cons. split; [by apply assoc_None | done].
    + rewrite length_take. lia.
Qed.
End MemoizeBounds.

Section Lifecycle.
Context `{!Collaborators}.
Implicit Types (s : StoryStore) (story : PreparedStory) (csfFile : CSFFile).

(** [storyFromCSFFile] writes the args, the hook registry and the story
    cache, and nothing else. *)
Lemma storyFromCSFFile_frame storyId csfFile s :
  let s' := (storyFromCSFFile storyId csfFile s).2 in
  storyIndex s' = storyIndex s
  ∧ importFn s' = importFn s
  ∧ projectAnnotations s' = projectAnnotations s
  ∧ annotations_created s' = annotations_created s
  ∧ globals s' = globals s
  ∧ cachedCSFFiles s' = cachedCSFFiles s
  ∧ csf_cache s' = csf_cache s.
Proof.
  destruct (obj_read storyId (stories csfFile)) as [sa|] eqn:Hsa.
  - rewrite (storyFromCSFFile_found _ _ _ _ Hsa). simpl.
    unfold ensure_HooksContext.
    by destruct (hooks _ !! _); [|destruct (inherited _)].
  - by rewrite (storyFromCSFFile_missing _ _ _ Hsa).
Qed.

Lemma imports_storyFromCSFFile storyId csfFile s :
  imports (storyFromCSFFile storyId csfFile s).2 = imports s.
Proof.
  destruct (obj_read storyId (stories csfFile)) as [sa|] eqn:Hsa.
  - rewrite (storyFromCSFFile_found _ _ _ _ Hsa). simpl.
    unfold ensure_HooksContext.
    by destruct (hooks _ !! _); [|destruct (inherited _)].
  - by rewrite (storyFromCSFFile_missing _ _ _ Hsa).
Qed.

Lemma cleanupStory_frame story s :
  let s' := (cleanupStory story s).2 in
  storyIndex s' = storyIndex s
  ∧ importFn s' = importFn s
  ∧ projectAnnotations s' = projectAnnotations s
  ∧ annotations_created s' = annotations_created s
  ∧ globals s' = globals s
  ∧ args s' = args s
  ∧ cachedCSFFiles s' = cachedCSFFiles s
  ∧ csf_cache s' = csf_cache s
  ∧ story_cache s' = story_cache s.
Proof. unfold cleanupStory. by destruct (hooks s !! story_id story). Qed.

(** **** The caches *)

Lemma caches_bounded_processCSFFileWithCache moduleExports path title s :
  caches_bounded s →
  caches_bounded
    (set_csf_cache
       (processCSFFileWithCache moduleExports path title (csf_cache s)).2 s).
Proof.
  intros (Hdup & Hlen & Hstories). unfold caches_bounded.
  simpl. split_and!; try apply Hstories.
  all: by apply memoize_bounded.
Qed.

Lemma caches_bounded_storyFromCSFFile storyId csfFile s :
  caches_bounded s → caches_bounded (storyFromCSFFile storyId csfFile s).2.
Proof.
  intros (Hdup & Hlen & Hdup' & Hlen'). unfold caches_bounded.
  destruct (storyFromCSFFile_frame storyId csfFile s)
    as (_ & _ & _ & _ & _ & _ & ->).
  split_and!; try done.
  all: destruct (obj_read storyId (stories csfFile)) as [sa|] eqn:Hsa;
    [rewrite (storyFromCSFFile_found _ _ _ _ Hsa); simpl;
     rewrite story_cache_ensure_HooksContext; simpl;
     by apply memoize_bounded
    |by rewrite (storyFromCSFFile_missing _ _ _ Hsa)].
Qed.

Lemma caches_bounded_exec c s : caches_bounded s → caches_bounded (exec c s).2.
Proof.
  apply (preserved_exec caches_bounded); try done.
  - intros. by apply caches_bounded_processCSFFileWithCache.
  - intros. by apply caches_bounded_storyFromCSFFile.
  - intros story s0 Hs0. unfold caches_bounded.
    destruct (cleanupStory_frame story s0)
      as (_ & _ & _ & _ & _ & _ & _ & -> & ->). done.
Qed.

(** X1: in every store a client can reach, the cache of
    [processCSFFileWithCache] holds at most [CSF_CACHE_SIZE] CSF files and
    the cache of [prepareStoryWithCache] at most [STORY_CACHE_SIZE] stories,
    each under a key of its own. *)
Theorem caches_stay_bounded s :
  reachable s →
  NoDup (memo_entries (csf_cache s)).*1
  ∧ length (memo_entries (csf_cache s)) ≤ N.to_nat CSF_CACHE_SIZE
  ∧ NoDup (memo_entries (story_cache s)).*1
  ∧ length (memo_entries (story_cache s)) ≤ N.to_nat STORY_CACHE_SIZE.
Proof.
  intros Hreach. change (caches_bounded s).
  induction Hreach; [|by apply caches_bounded_exec].
  unfold caches_bounded. simpl. split_and!; try apply NoDup_nil_2; lia.
Qed.

(** **** setProjectAnnotations *)

Lemma story_cache_fresh_storyFromCSFFile storyId csfFile s :
  story_cache_fresh s → story_cache_fresh (storyFromCSFFile storyId csfFile s).2.
Proof.
  intros [Hpa Hcache]. unfold story_cache_fresh.
  destruct (storyFromCSFFile_frame storyId csfFile s)
    as (_ & _ & -> & -> & _).
  split; [done|].
  destruct (obj_read storyId (stories csfFile)) as [sa|] eqn:Hsa;
    [|by rewrite (storyFromCSFFile_missing _ _ _ Hsa)].
  rewrite (storyFromCSFFile_found _ _ _ _ Hsa). simpl.
  rewrite story_cache_ensure_HooksContext.
  unfold set_args, set_story_cache, story_cache at 1, prepareStoryWithCache.
  generalize STORY_CACHE_SIZE as limit. intros limit. unfold memoize.
  destruct (assoc _ (memo_entries (story_cache s))) as [v|] eqn:Hkey; simpl.
  - intros key story [[= -> ->]|Hin]%elem_of_cons.
    + apply Hcache. by apply assoc_Some_elem.
    + apply Hcache. by apply elem_of_unassoc in Hin.
  - intros key story Hin. apply subseteq_take in Hin.
    apply elem_of_cons in Hin as [[= -> ->]|Hin]; simpl; [lia|].
    apply Hcache in Hin. lia.
Qed.

Lemma story_cache_fresh_exec c s :
  story_cache_fresh s → story_cache_fresh (exec c s).2.
Proof.
  apply (preserved_exec story_cache_fresh); try done.
  - intros pa s0 [Hpa Hcache]. unfold story_cache_fresh. simpl.
    split; [lia|]. intros key story Hin. apply Hcache in Hin. lia.
  - intros. by apply story_cache_fresh_storyFromCSFFile.
  - intros story s0 Hs0. unfold story_cache_fresh.
    destruct (cleanupStory_frame story s0)
      as (_ & _ & -> & -> & _ & _ & _ & _ & ->). done.
Qed.

Lemma reachable_story_cache_fresh s : reachable s → story_cache_fresh s.
Proof.
  induction 1; [|by apply story_cache_fresh_exec].
  unfold story_cache_fresh. simpl. split; [lia|].
  intros key story. by intros ?%elem_of_nil.
Qed.

(** X2: [setProjectAnnotations] invalidates the stories prepared so far
    without purging them: the cache is as it was, and the next
    [storyFromCSFFile] of a story of the file, on a store a client can reach,
    misses it and returns a new object, prepared by [prepareStory] from the
    new normalized annotations. *)
Theorem setProjectAnnotations_invalidates
    s newAnnotations storyId csfFile storyAnnotations :
  reachable s →
  obj_read storyId (stories csfFile) = Some storyAnnotations →
  let s1 := (setProjectAnnotations newAnnotations s).2 in
  props (projectAnnotations s1) = normalizeProjectAnnotations newAnnotations
  ∧ story_cache s1 = story_cache s
  ∧ ∃ story s2,
      storyFromCSFFile storyId csfFile s1 = (inr story, s2)
      ∧ props story
        = prepareStory storyAnnotations (meta csfFile) (projectAnnotations s1)
      ∧ ∀ key story',
          (key, story') ∈ memo_entries (story_cache s) →
          oid story' ≠ oid story.
Proof.
  intros Hreach Hsa s1. split_and!; [done..|].
  destruct (reachable_story_cache_fresh s Hreach) as [_ Hcache].
  rewrite (storyFromCSFFile_found _ _ _ _ Hsa).
  eexists _, _. split; [reflexivity|].
  unfold prepareStoryWithCache.
  generalize STORY_CACHE_SIZE as limit. intros limit. unfold memoize.
  change (story_cache s1) with (story_cache s).
  destruct (assoc _ (memo_entries (story_cache s))) as [v|] eqn:Hkey.
  { apply assoc_Some_elem, Hcache in Hkey. simpl in Hkey. lia. }
  simpl. split; [done|].
  intros key story' Hin. apply Hcache in Hin. lia.
Qed.
End Lifecycle.

Section Persistence.
Context `{!Collaborators}.
Implicit Types (s : StoryStore) (story : PreparedStory) (csfFile : CSFFile).

(** **** The args store and the hook registry *)

Lemma args_storyFromCSFFile storyId csfFile s id value :
  args s !! id = Some value →
  args (storyFromCSFFile storyId csfFile s).2 !! id = Some value.
Proof.
  intros Hid. destruct (obj_read storyId (stories csfFile)) as [sa|] eqn:Hsa;
    [|by rewrite (storyFromCSFFile_missing _ _ _ Hsa)].
  rewrite (storyFromCSFFile_found _ _ _ _ Hsa). simpl.
  rewrite args_ensure_HooksContext. simpl. unfold ArgsStore_setInitial.
  destruct (args s !! story_id _) eqn:Hstory; [done|].
  rewrite lookup_insert_ne; [done | congruence].
Qed.

Lemma args_exec c s id value :
  args s !! id = Some value → args (exec c s).2 !! id = Some value.
Proof.
  apply (preserved_exec (λ s, args s !! id = Some value)); try done.
  - intros. by apply args_storyFromCSFFile.
  - intros story s0. by destruct (cleanupStory_frame story s0)
      as (_ & _ & _ & _ & _ & -> & _).
Qed.

(** X3: no method overwrites or removes an entry of the args store: once
    [storyFromCSFFile] has returned a story, the args store holds a value for
    it, the story's initial args if it held none before, and holds that same
    value after every later call. *)
Theorem args_entry_persists s storyId csfFile story s1 s2 :
  storyFromCSFFile storyId csfFile s = (inr story, s1) →
  later s1 s2 →
  ∃ value,
    args s1 !! story_id story = Some value
    ∧ args s2 !! story_id story = Some value
    ∧ (args s !! story_id story = None → value = initialArgs story)
    ∧ ∀ id value', args s !! id = Some value' → args s2 !! id = Some value'.
Proof.
  intros Hcall Hlater.
  pose proof (args_storyFromCSFFile storyId csfFile s) as Hkept.
  rewrite Hcall in Hkept. simpl in Hkept.
  apply storyFromCSFFile_ok in Hcall as (sa & _ & _ & ->).
  assert (Hs1 : ∃ value,
            args (ensure_HooksContext story
                    (set_args (ArgsStore_setInitial story (args s))
                       (set_story_cache
                          (prepareStoryWithCache sa (meta csfFile)
                             (projectAnnotations s) (story_cache s)).2 s)))
              !! story_id story = Some value
            ∧ (args s !! story_id story = None → value = initialArgs story)).
  { rewrite args_ensure_HooksContext. simpl. unfold ArgsStore_setInitial.
    destruct (args s !! story_id story) as [value|] eqn:Hs.
    - exists value. by rewrite Hs.
    - exists (initialArgs story). by rewrite lookup_insert_eq. }
  destruct Hs1 as (value & Hs1 & Hinit).
  assert (Hlast : ∀ id value',
            args (ensure_HooksContext story
                    (set_args (ArgsStore_setInitial story (args s))
                       (set_story_cache
                          (prepareStoryWithCache sa (meta csfFile)
                             (projectAnnotations s) (story_cache s)).2 s)))
              !! id = Some value' →
            args s2 !! id = Some value').
  { intros id value'.
    apply (later_preserved (λ s, args s !! id = Some value') _ _); [|done].
    intros c s0. apply args_exec. }
  exists value. split_and!; auto.
Qed.

Lemma hooks_storyFromCSFFile storyId csfFile s id context :
  hooks s !! id = Some context →
  hooks (storyFromCSFFile storyId csfFile s).2 !! id = Some context.
Proof.
  intros Hid. destruct (obj_read storyId (stories csfFile)) as [sa|] eqn:Hsa;
    [|by rewrite (storyFromCSFFile_missing _ _ _ Hsa)].
  rewrite (storyFromCSFFile_found _ _ _ _ Hsa). simpl.
  rewrite hooks_ensure_HooksContext. simpl.
  destruct (hooks s !! story_id _) eqn:Hstory; [done|].
  destruct (inherited _); [done|].
  rewrite lookup_insert_ne; [done | congruence].
Qed.

Lemma hooks_cleanupStory story s id context :
  hooks s !! id = Some context →
  ∃ context', hooks (cleanupStory story s).2 !! id = Some context'
              ∧ hooks_oid context' = hooks_oid context.
Proof.
  intros Hid. unfold cleanupStory.
  destruct (hooks s !! story_id story) as [c|] eqn:Hstory; simpl; [|eauto].
  destruct (decide (id = story_id story)) as [->|Hne].
  - rewrite lookup_insert_eq. eexists. split; [done|]. simpl. congruence.
  - rewrite lookup_insert_ne by done. eauto.
Qed.

Lemma hooks_exec c s id context :
  hooks s !! id = Some context →
  ∃ context', hooks (exec c s).2 !! id = Some context'
              ∧ hooks_oid context' = hooks_oid context.
Proof.
  intros Hid.
  apply (preserved_exec
           (λ s, ∃ context', hooks s !! id = Some context'
                             ∧ hooks_oid context' = hooks_oid context));
    try done; [| |eauto].
  - intros storyId csfFile s0 (c0 & Hc0 & Hoid). exists c0.
    split; [by apply hooks_storyFromCSFFile | done].
  - intros story s0 (c0 & Hc0 & Hoid).
    destruct (hooks_cleanupStory story s0 id c0 Hc0) as (c1 & Hc1 & Hoid1).
    exists c1. split; [done | congruence].
Qed.

Lemma later_reachable s s' : reachable s → later s s' → reachable s'.
Proof. intros Hs. induction 1; [done | by constructor]. Qed.

(** X4: no method removes or replaces a hooks context: a context that the
    registry holds is there, the same object, after every later call.  Once
    [storyFromCSFFile] has returned a story whose identifier is not a name
    inherited from [Object.prototype], the registry holds a context for it,
    so that [cleanupStory] of the story does not fail, then or after any later
    call.  For a story whose identifier is such a name, a store that a client
    can reach holds no context, then or later, and [cleanupStory] throws a
    [TypeError]. *)
Theorem hooks_context_persists s storyId csfFile story s1 s2 :
  storyFromCSFFile storyId csfFile s = (inr story, s1) →
  later s1 s2 →
  (∀ id context,
     hooks s !! id = Some context →
     ∃ context', hooks s2 !! id = Some context'
                 ∧ hooks_oid context' = hooks_oid context)
  ∧ (inherited (story_id story) = false →
     ∃ context1 context2 s3,
       hooks s1 !! story_id story = Some context1
       ∧ hooks s2 !! story_id story = Some context2
       ∧ hooks_oid context2 = hooks_oid context1
       ∧ cleanupStory story s2 = (inr (), s3))
  ∧ (inherited (story_id story) = true →
     reachable s →
     hooks s2 !! story_id story = None
     ∧ cleanupStory story s2 = (inl TypeError, s2)).
Proof.
  intros Hcall Hlater.
  pose proof (hooks_storyFromCSFFile storyId csfFile s) as Hkept.
  rewrite Hcall in Hkept. simpl in Hkept.
  assert (Hlast : ∀ id context,
            hooks s1 !! id = Some context →
            ∃ context', hooks s2 !! id = Some context'
                        ∧ hooks_oid context' = hooks_oid context).
  { intros id context Hid.
    apply (later_preserved
             (λ s, ∃ context', hooks s !! id = Some context'
                               ∧ hooks_oid context' = hooks_oid context)
             s1 s2); [|done|eauto].
    intros c s0 (c0 & Hc0 & Hoid).
    destruct (hooks_exec c s0 id c0 Hc0) as (c1 & Hc1 & Hoid1).
    exists c1. split; [done | congruence]. }
  split_and!.
  - intros id context Hid. apply Hlast, Hkept, Hid.
  - intros Hown.
    assert (Hs1 : is_Some (hooks s1 !! story_id story)).
    { apply storyFromCSFFile_ok in Hcall as (sa & _ & _ & ->).
      rewrite hooks_ensure_HooksContext. simpl.
      destruct (hooks s !! story_id story) eqn:E; [by rewrite E|].
      rewrite Hown, lookup_insert_eq. eauto. }
    destruct Hs1 as [context1 Hs1].
    destruct (Hlast _ _ Hs1) as (context2 & Hs2 & Hoid).
    exists context1, context2. eexists. split_and!; try done.
    unfold cleanupStory. rewrite Hs2. reflexivity.
  - intros Hname Hreach.
    assert (reachable s1) as Hreach1.
    { replace s1 with (exec (CallStoryFromCSFFile storyId csfFile) s).2
        by (simpl; by rewrite Hcall).
      by constructor. }
    pose proof (reachable_no_inherited_handles s2
                  (later_reachable s1 s2 Hreach1 Hlater) _ Hname) as Hnone.
    split; [done|]. unfold cleanupStory. by rewrite Hnone.
Qed.

(** **** The cached CSF files *)

Lemma fromId_errors storyId s e :
  is_Some (cachedCSFFiles s) →
  (fromId storyId s).1 = inl e →
  e = TypeError ∨ e = MissingStoryFromCsfFileError storyId.
Proof.
  intros [files Hfiles]. unfold fromId. rewrite Hfiles.
  destruct (StoryIndexStore_storyIdToEntry _ _) as [e'|entry]; [done|].
  destruct (files !! importPath entry) as [csfFile|];
    [|intros [= <-]; by left].
  unfold bind.
  destruct (storyFromCSFFile storyId csfFile s) as [[e'|story] s1] eqn:Hcall;
    [|done].
  apply storyFromCSFFile_error in Hcall as (_ & -> & _).
  intros [= <-]. by right.
Qed.

(** X5: no method clears [cachedCSFFiles]: once they are there, they are
    there after every later call, [extract] does not throw
    [CalledExtractOnStoreError] again and [fromId] does not throw its usage
    error again. *)
Theorem cachedCSFFiles_persist s s' :
  is_Some (cachedCSFFiles s) →
  later s s' →
  is_Some (cachedCSFFiles s')
  ∧ (∀ options, (extract options s').1 ≠ inl CalledExtractOnStoreError)
  ∧ (∀ storyId message, (fromId storyId s').1 ≠ inl (UsageError message)).
Proof.
  intros Hs Hlater.
  assert (Hs' : is_Some (cachedCSFFiles s')).
  { apply (later_preserved (λ s, is_Some (cachedCSFFiles s)) s s');
      [|done..].
    intros c s0. apply cachedCSFFiles_exec. }
  split_and!; [done|..].
  - intros options Herr. destruct Hs' as [files Hfiles].
    unfold extract in Herr. rewrite Hfiles in Herr.
    apply extract_reduce_errors in Herr as [?|[? ?]]; done.
  - intros storyId message Herr.
    apply (fromId_errors _ _ _ Hs') in Herr as [?|?]; done.
Qed.

End Persistence.

(** *** Loading one story *)

Section SingleLoads.
Context `{!Collaborators}.
Implicit Types (s : StoryStore) (story : PreparedStory) (csfFile : CSFFile).

Lemma loadCSFFileByStoryId_unfold storyId s :
  loadCSFFileByStoryId storyId s
  = match obj_get storyId (entries (storyIndex s)) with
    | None => (inl (EntryNotFound storyId), s)
    | Some entry =>
        let load := importFn s (imports s) (importPath entry) in
        let s1 := set_imports ((importPath entry, load) :: imports s) s in
        match outcome load with
        | inl reason => (inl (LoaderFailure reason), s1)
        | inr moduleExports =>
            let call := processCSFFileWithCache moduleExports
                          (importPath entry) (title entry) (csf_cache s) in
            (inr call.1, set_csf_cache call.2 s1)
        end
    end.
Proof.
  unfold loadCSFFileByStoryId.
  destruct (obj_get storyId (entries (storyIndex s))) as [entry|] eqn:Hentry.
  - rewrite (loadCSFFileByStoryId_call_entry _ _ _ Hentry). simpl.
    unfold at_await.
    destruct (outcome (importFn s (imports s) (importPath entry)))
      as [reason|m]; [done|].
    by destruct (processCSFFileWithCache _ _ _ _).
  - unfold loadCSFFileByStoryId_call, StoryIndexStore_storyIdToEntry.
    by rewrite Hentry.
Qed.

(** X7: [loadCSFFileByStoryId] fails in two ways only, an identifier that is
    not in the index and a loader that fails, and a call that fails leaves
    the store, its caches included, as it was, but for the invocation of the
    loader that failed, which has joined the trace. *)
Theorem loadCSFFileByStoryId_failure storyId s e s' :
  loadCSFFileByStoryId storyId s = (inl e, s') →
  (obj_get storyId (entries (storyIndex s)) = None
   ∧ e = EntryNotFound storyId
   ∧ s' = s)
  ∨ ∃ entry reason,
      obj_get storyId (entries (storyIndex s)) = Some entry
      ∧ outcome (importFn s (imports s) (importPath entry)) = inl reason
      ∧ e = LoaderFailure reason
      ∧ s' = set_imports
               ((importPath entry,
                 importFn s (imports s) (importPath entry)) :: imports s) s.
Proof.
  rewrite loadCSFFileByStoryId_unfold.
  destruct (obj_get storyId (entries (storyIndex s))) as [entry|] eqn:Hentry.
  - simpl.
    destruct (outcome (importFn s (imports s) (importPath entry)))
      as [reason|m] eqn:Hout; [|done].
    intros [= <- <-]. right. by exists entry, reason.
  - intros [= <- <-]. by left.
Qed.

(** X8: stories that the index places in the same file under the same title
    share one CSF file for as long as the loader hands out the same module
    object: after [loadCSFFileByStoryId] of one, the call for another invokes
    the loader again, and returns the same CSF file object when that
    invocation resolves to a module of the same identity; when it fails, so
    does the call. *)
Theorem loadCSFFileByStoryId_shares_file
    s storyId1 storyId2 entry1 entry2 csfFile s1 :
  obj_get storyId1 (entries (storyIndex s)) = Some entry1 →
  obj_get storyId2 (entries (storyIndex s)) = Some entry2 →
  importPath entry2 = importPath entry1 →
  title entry2 = title entry1 →
  loadCSFFileByStoryId storyId1 s = (inr csfFile, s1) →
  let again := importFn s1 (imports s1) (importPath entry2) in
  ∃ moduleExports,
    outcome (importFn s (imports s) (importPath entry1)) = inr moduleExports
    ∧ imports s1
      = (importPath entry1, importFn s (imports s) (importPath entry1))
        :: imports s
    ∧ (∀ moduleExports',
         outcome again = inr moduleExports' →
         oid moduleExports' = oid moduleExports →
         ∃ s2, loadCSFFileByStoryId storyId2 s1 = (inr csfFile, s2)
               ∧ imports s2 = (importPath entry2, again) :: imports s1)
    ∧ (∀ reason,
         outcome again = inl reason →
         (loadCSFFileByStoryId storyId2 s1).1 = inl (LoaderFailure reason)).
Proof.
  intros Hentry1 Hentry2 Hpath Htitle Hload again.
  rewrite loadCSFFileByStoryId_unfold, Hentry1 in Hload. simpl in Hload.
  destruct (outcome (importFn s (imports s) (importPath entry1)))
    as [reason|m] eqn:Hout; [done|].
  injection Hload as <- <-. exists m. unfold again. clear again. simpl.
  split_and!; [done..| |].
  - intros m' Hagain Hoid. rewrite loadCSFFileByStoryId_unfold. simpl.
    rewrite Hentry2. simpl. rewrite Hagain.
    eexists. split.
    + f_equal. f_equal. rewrite Hpath, Htitle.
      unfold processCSFFileWithCache. rewrite Hoid.
      apply memoize_hit. by apply memoize_remembers.
    + done.
  - intros reason Hagain. rewrite loadCSFFileByStoryId_unfold. simpl.
    rewrite Hentry2. simpl. by rewrite Hagain.
Qed.

(** **** loadStory *)

Lemma loadStory_unfold storyId s :
  loadStory storyId s
  = match loadCSFFileByStoryId storyId s with
    | (inl e, s') => (inl e, s')
    | (inr csfFile, s') => storyFromCSFFile storyId csfFile s'
    end.
Proof. done. Qed.

(** X9: [loadStory] fails in three ways only: the lookup, the loader, or a
    module that has no such story.  In the first the store is as it was, in
    the second as it was but for the failed invocation in the trace; in the
    third the CSF file has been processed and cached, and in none have the
    args, the hook registry or the story cache been touched. *)
Theorem loadStory_failure storyId s e s' :
  loadStory storyId s = (inl e, s') →
  args s' = args s
  ∧ hooks s' = hooks s
  ∧ hooks_created s' = hooks_created s
  ∧ story_cache s' = story_cache s
  ∧ ((e = EntryNotFound storyId
      ∧ obj_get storyId (entries (storyIndex s)) = None ∧ s' = s)
     ∨ (∃ entry reason,
          e = LoaderFailure reason
          ∧ obj_get storyId (entries (storyIndex s)) = Some entry
          ∧ outcome (importFn s (imports s) (importPath entry)) = inl reason
          ∧ s' = set_imports
                   ((importPath entry,
                     importFn s (imports s) (importPath entry)) :: imports s)
                   s)
     ∨ (∃ csfFile,
          e = MissingStoryFromCsfFileError storyId
          ∧ loadCSFFileByStoryId storyId s = (inr csfFile, s')
          ∧ obj_read storyId (stories csfFile) = None)).
Proof.
  rewrite loadStory_unfold, loadCSFFileByStoryId_unfold.
  destruct (obj_get storyId (entries (storyIndex s))) as [entry|] eqn:Hentry;
    [|intros [= <- <-]; split_and!; try done; by left].
  simpl.
  destruct (outcome (importFn s (imports s) (importPath entry)))
    as [reason|m] eqn:Hout.
  - intros [= <- <-]. split_and!; try done. right. left. by exists entry, reason.
  - simpl. intros Hcall.
    apply storyFromCSFFile_error in Hcall as (Hnone & -> & ->).
    split_and!; try done. right. right. by eexists.
Qed.

(** X10: a [loadStory] that succeeds returns the story that
    [prepareStoryWithCache] makes of the annotations the CSF file of the
    entry's module has for the identifier; the args store then has an entry
    for the story, and so has the hook registry unless the story's
    identifier is a name inherited from [Object.prototype]; and a second
    [loadStory] of the identifier returns the same story object when the
    loader, invoked again, resolves to a module of the same identity. *)
Theorem loadStory_twice storyId s story s' :
  loadStory storyId s = (inr story, s') →
  ∃ entry moduleExports csfFile storyAnnotations,
    obj_get storyId (entries (storyIndex s)) = Some entry
    ∧ outcome (importFn s (imports s) (importPath entry)) = inr moduleExports
    ∧ csfFile = (processCSFFileWithCache moduleExports (importPath entry)
                   (title entry) (csf_cache s)).1
    ∧ obj_read storyId (stories csfFile) = Some storyAnnotations
    ∧ story = (prepareStoryWithCache storyAnnotations (meta csfFile)
                 (projectAnnotations s) (story_cache s)).1
    ∧ is_Some (args s' !! story_id story)
    ∧ (inherited (story_id story) = false →
       is_Some (hooks s' !! story_id story))
    ∧ ∀ moduleExports',
        outcome (importFn s' (imports s') (importPath entry))
        = inr moduleExports' →
        oid moduleExports' = oid moduleExports →
        ∃ s'', loadStory storyId s' = (inr story, s'').
Proof.
  rewrite !loadStory_unfold, !loadCSFFileByStoryId_unfold.
  destruct (obj_get storyId (entries (storyIndex s))) as [entry|] eqn:Hentry;
    [|done].
  simpl.
  destruct (outcome (importFn s (imports s) (importPath entry)))
    as [reason|m] eqn:Hout; [done|].
  simpl. intros Hcall.
  set (load := importFn s (imports s) (importPath entry)) in *.
  set (s0 := set_csf_cache
               (processCSFFileWithCache m (importPath entry) (title entry)
                  (csf_cache s)).2
               (set_imports ((importPath entry, load) :: imports s) s)) in *.
  destruct (storyFromCSFFile_frame storyId
              (processCSFFileWithCache m (importPath entry) (title entry)
                 (csf_cache s)).1 s0)
    as (Hindex & HimportFn & Hpa & _ & _ & _ & Hcsf).
  rewrite Hcall in Hindex, HimportFn, Hpa, Hcsf. simpl in *.
  pose proof Hcall as Hok.
  apply storyFromCSFFile_ok in Hok as (sa & Hsa & Hstory & Hs').
  simpl in Hstory, Hs'.
  eexists entry, m, _, sa. split_and!; [done..| | |].
  - rewrite Hs', args_ensure_HooksContext. simpl. unfold ArgsStore_setInitial.
    destruct (args s !! story_id story) eqn:E; [by rewrite E|].
    rewrite lookup_insert_eq. eauto.
  - intros Hown. rewrite Hs', hooks_ensure_HooksContext. simpl.
    destruct (hooks s !! story_id story) eqn:E; [by rewrite E|].
    rewrite Hown, lookup_insert_eq. eauto.
  - intros m' Hagain Hoid. rewrite Hindex, Hentry. simpl.
    rewrite Hagain, Hcsf.
    assert ((processCSFFileWithCache m' (importPath entry) (title entry)
               (processCSFFileWithCache m (importPath entry) (title entry)
                  (csf_cache s)).2).1
            = (processCSFFileWithCache m (importPath entry) (title entry)
                 (csf_cache s)).1) as ->.
    { unfold processCSFFileWithCache. rewrite Hoid.
      apply memoize_hit. by apply memoize_remembers. }
    rewrite (storyFromCSFFile_found _ _ _ _ Hsa). simpl. eexists.
    f_equal. f_equal. rewrite Hpa, Hstory.
    apply memoize_hit. rewrite Hs', story_cache_ensure_HooksContext. simpl.
    by apply memoize_remembers.
Qed.

(** **** componentStoriesFromCSFFile *)

Lemma mapM_storyFromCSFFile csfFile ids s :
  Forall (λ storyId, is_Some (obj_read storyId (stories csfFile))) ids →
  ∃ prepared s',
    mapM (λ storyId, storyFromCSFFile storyId csfFile) ids s
    = (inr prepared, s')
    ∧ length prepared = length ids
    ∧ (∀ i storyId story,
         ids !! i = Some storyId → prepared !! i = Some story →
         ∃ before s1 s2,
           mapM (λ storyId, storyFromCSFFile storyId csfFile) (take i ids) s
           = (inr before, s1)
           ∧ storyFromCSFFile storyId csfFile s1 = (inr story, s2))
    ∧ (∀ id, is_Some (args s !! id) → is_Some (args s' !! id))
    ∧ (∀ id, is_Some (hooks s !! id) → is_Some (hooks s' !! id))
    ∧ ∀ story, story ∈ prepared →
               is_Some (args s' !! story_id story)
               ∧ (inherited (story_id story) = false →
                  is_Some (hooks s' !! story_id story)).
Proof.
  intros Hids. revert s. induction Hids as [|storyId ids [sa Hsa] Hids IH];
    intros s; simpl.
  { exists [], s. split_and!; try done.
    intros story. by intros ?%elem_of_nil. }
  unfold bind at 1.
  destruct (storyFromCSFFile storyId csfFile s) as [[e|story] s1] eqn:Hcall.
  { apply storyFromCSFFile_error in Hcall as (Hnone & _). congruence. }
  pose proof (args_storyFromCSFFile storyId csfFile s) as Hargs.
  pose proof (hooks_storyFromCSFFile storyId csfFile s) as Hhooks.
  rewrite Hcall in Hargs, Hhooks. simpl in Hargs, Hhooks.
  assert (Hentries : is_Some (args s1 !! story_id story)
                     ∧ (inherited (story_id story) = false →
                        is_Some (hooks s1 !! story_id story))).
  { pose proof Hcall as Hok.
    apply storyFromCSFFile_ok in Hok as (sa' & _ & _ & Hs1). split.
    - rewrite Hs1, args_ensure_HooksContext. simpl.
      unfold ArgsStore_setInitial.
      destruct (args s !! story_id story) eqn:E; [by rewrite E|].
      rewrite lookup_insert_eq. eauto.
    - intros Hown. rewrite Hs1, hooks_ensure_HooksContext. simpl.
      destruct (hooks s !! story_id story) eqn:E; [by rewrite E|].
      rewrite Hown, lookup_insert_eq. eauto. }
  destruct (IH s1)
    as (prepared & s' & Hrun & Hlen & Hall & Hargs' & Hhooks' & Hin).
  unfold bind at 1. rewrite Hrun.
  simpl. exists (story :: prepared), s'. split_and!.
  - done.
  - simpl. by rewrite Hlen.
  - intros [|i] id st; simpl.
    + intros [= <-] [= <-]. by exists [], s, s1.
    + intros Hid Hst.
      destruct (Hall i id st Hid Hst) as (before & s2 & s3 & Hbefore & Hst').
      exists (story :: before), s2, s3. split; [|done].
      unfold bind at 1. rewrite Hcall. unfold bind at 1. by rewrite Hbefore.
  - intros id [v Hv]. apply Hargs'. eauto.
  - intros id [c Hc]. apply Hhooks'. eauto.
  - intros st [->|Hst]%elem_of_cons; [|by apply Hin].
    destruct Hentries as [? Hcontext].
    split; [by apply Hargs' | intros Hown; by apply Hhooks', Hcontext].
Qed.

(** X11: [componentStoriesFromCSFFile] does not fail: it returns one story for
    each identifier of the index that the CSF file has a story for, or that
    names a member of [Object.prototype], in the order of the index, each the
    story [storyFromCSFFile] returned when the [map] came to its identifier,
    and leaves an args entry for each, and a hooks context for each whose own
    identifier is not such a name. *)
Theorem componentStoriesFromCSFFile_resolves csfFile s :
  let storyIds :=
    filter (λ storyId, is_Some (obj_get storyId (stories csfFile))
                       ∨ inherited storyId = true)
           (obj_keys (entries (storyIndex s))) in
  ∃ prepared s',
    componentStoriesFromCSFFile csfFile s = (inr prepared, s')
    ∧ length prepared = length storyIds
    ∧ (∀ i storyId story,
         storyIds !! i = Some storyId → prepared !! i = Some story →
         ∃ before s1 s2,
           mapM (λ storyId, storyFromCSFFile storyId csfFile)
                (take i storyIds) s
           = (inr before, s1)
           ∧ storyFromCSFFile storyId csfFile s1 = (inr story, s2))
    ∧ ∀ story, story ∈ prepared →
               is_Some (args s' !! story_id story)
               ∧ (inherited (story_id story) = false →
                  is_Some (hooks s' !! story_id story)).
Proof.
  intros storyIds. unfold componentStoriesFromCSFFile.
  assert (filter (λ storyId, is_Some (obj_read storyId (stories csfFile)))
                 (obj_keys (entries (storyIndex s)))
          = storyIds) as ->.
  { apply list_filter_iff. intros storyId. apply is_Some_obj_read. }
  destruct (mapM_storyFromCSFFile csfFile storyIds s)
    as (prepared & s' & Hrun & Hlen & Hall & _ & _ & Hin).
  { apply Forall_forall. intros id [? _]%list_elem_of_filter.
    by apply is_Some_obj_read. }
  by exists prepared, s'.
Qed.
End SingleLoads.

(** *** The story that stands for a file *)

Section Representative.
Context `{!Collaborators}.
Implicit Types (s : StoryStore).



End Representative.

(** *** What extract writes and what it lists *)

Section ExtractFrame.
Context `{!Collaborators}.
Implicit Types (s : StoryStore) (story : PreparedStory) (csfFile : CSFFile).

Lemma extends_refl s : extends s s.
Proof. by repeat split. Qed.

Lemma extends_trans s1 s2 s3 : extends s1 s2 → extends s2 s3 → extends s1 s3.
Proof.
  intros (H1 & H2 & H3 & H4 & H5 & H6 & H7 & H8 & H9 & H10)
         (K1 & K2 & K3 & K4 & K5 & K6 & K7 & K8 & K9 & K10).
  unfold extends. split_and!; try congruence; eauto.
Qed.

Lemma extends_storyFromCSFFile storyId csfFile s :
  extends s (storyFromCSFFile storyId csfFile s).2.
Proof.
  destruct (storyFromCSFFile_frame storyId csfFile s)
    as (H1 & H2 & H3 & H4 & H5 & H6 & H7).
  unfold extends. split_and!; try done.
  - apply imports_storyFromCSFFile.
  - intros id value. apply args_storyFromCSFFile.
  - intros id context. apply hooks_storyFromCSFFile.
Qed.

Lemma extends_extract_reduce options files rest acc s :
  extends s (extract_reduce options files rest acc s).2.
Proof.
  apply (preserved_extract_reduce (extends s)); [|apply extends_refl].
  intros storyId csfFile s0 Hs0.
  eapply extends_trans; [exact Hs0|]. apply extends_storyFromCSFFile.
Qed.

(** X13: [extract] loads nothing and replaces nothing: whether it returns or
    throws, the index, the loader and its trace, the project annotations, the
    globals, the cached CSF files and the cache of [processCSFFileWithCache]
    are as they were, every args entry and every hooks context the store had
    is still there unchanged.  (What it does write are the args entries and hooks
    contexts that [storyFromCSFFile] adds for the stories it resolves.) *)
Theorem extract_frame options s :
  let s' := (extract options s).2 in
  storyIndex s' = storyIndex s
  ∧ importFn s' = importFn s
  ∧ imports s' = imports s
  ∧ projectAnnotations s' = projectAnnotations s
  ∧ annotations_created s' = annotations_created s
  ∧ globals s' = globals s
  ∧ cachedCSFFiles s' = cachedCSFFiles s
  ∧ csf_cache s' = csf_cache s
  ∧ (∀ id value, args s !! id = Some value → args s' !! id = Some value)
  ∧ (∀ id context, hooks s !! id = Some context →
                   hooks s' !! id = Some context).
Proof.
  simpl. change (extends s (extract options s).2). unfold extract.
  destruct (cachedCSFFiles s) as [files|]; [|apply extends_refl].
  apply extends_extract_reduce.
Qed.




End ExtractFrame.

(** *** The legacy exports *)

Section PickFacts.
Implicit Types (object : Obj JSValue).

Lemma pick_get paths object k :
  obj_get k (pick paths object)
  = if decide (k ∈ paths) then obj_get k object else None.
Proof.
  unfold obj_get. induction paths as [|path paths IH]; [done|].
  change (pick (path :: paths) object)
    with (match (λ value, (path, value)) <$> obj_get path object with
          | Some x => x :: pick paths object
          | None => pick paths object
          end).
  unfold obj_get.
  destruct (decide (k = path)) as [->|Hne].
  - rewrite (decide_True (P := path ∈ path :: paths)) by left.
    destruct (assoc path object) as [value|] eqn:Hpath; simpl.
    + by rewrite decide_True.
    + rewrite IH. by destruct (decide (path ∈ paths)).
  - assert (Hrest : assoc k
                      match (λ value, (path, value)) <$> assoc path object with
                      | Some x => x :: pick paths object
                      | None => pick paths object
                      end
                    = assoc k (pick paths object)).
    { destruct (assoc path object) as [value|]; simpl; [|done].
      by rewrite decide_False. }
    rewrite Hrest, IH.
    destruct (decide (k ∈ paths)) as [Hin|Hnin].
    + rewrite decide_True by by right. done.
    + rewrite decide_False; [done|]. by intros [?|?]%elem_of_cons.
Qed.

Lemma pick_keys paths object k : k ∈ obj_keys (pick paths object) → k ∈ paths.
Proof.
  unfold obj_keys, pick. rewrite list_elem_of_fmap.
  intros ([k' v] & -> & Hin). apply list_elem_of_omap in Hin as (path & Hin & Hv).
  destruct (obj_get path object); simplify_eq/=. done.
Qed.

Lemma obj_get_obj_set {V} k k' (v : V) (o : Obj V) :
  obj_get k (obj_set k' v o) = if decide (k = k') then Some v else obj_get k o.
Proof. apply assoc_assign. Qed.

Lemma obj_keys_obj_set {V} k k' (v : V) (o : Obj V) :
  k ∈ obj_keys (obj_set k' v o) ↔ k = k' ∨ k ∈ obj_keys o.
Proof. apply elem_of_assign_keys. Qed.

Lemma mapValues_inr {A B} (iteratee : A → Error + B)
    (object : Obj A) (object' : Obj B) :
  mapValues iteratee object = inr object' →
  obj_keys object' = obj_keys object
  ∧ ∀ i key value',
      object' !! i = Some (key, value') →
      ∃ value, object !! i = Some (key, value) ∧ iteratee value = inr value'.
Proof.
  revert object'. induction object as [|[key value] object IH];
    intros object'; simpl.
  { intros [= <-]. split; [done|]. by intros i key value'. }
  destruct (iteratee value) as [e|value'] eqn:Hvalue; [done|].
  destruct (mapValues iteratee object) as [e|rest]; [done|].
  intros [= <-]. destruct (IH rest eq_refl) as [Hkeys Hrest].
  split; [unfold obj_keys in *; csimpl; by rewrite Hkeys|].
  intros [|i] k v'; simpl; [|by apply Hrest].
  intros [= <- <-]. by exists value.
Qed.

Lemma mapValues_inl {A B} (iteratee : A → Error + B) (object : Obj A) e :
  mapValues iteratee object = inl e →
  ∃ key value, (key, value) ∈ object ∧ iteratee value = inl e.
Proof.
  induction object as [|[key value] object IH]; simpl; [done|].
  destruct (iteratee value) as [e'|value'] eqn:Hvalue.
  - intros [= <-]. exists key, value. split; [left | done].
  - destruct (mapValues iteratee object) as [e'|rest]; [|done].
    intros [= <-]. destruct (IH eq_refl) as (k & v & Hin & Hv).
    exists k, v. split; [by right | done].
Qed.

End PickFacts.

Section Legacy.
Context `{!Collaborators}.
Variable GlobalsStore_get : GlobalsStore → JSValue.
Implicit Types (s : StoryStore) (story : Obj JSValue).

Lemma getSetStoriesPayload_unfold s :
  getSetStoriesPayload GlobalsStore_get s
  = match extract (Some {| includeDocsOnly := Some true |}) s with
    | (inl e, s') => (inl e, s')
    | (inr stories, s') =>
        (inr {| payload_v := 2;
                payload_globals := GlobalsStore_get (globals s');
                payload_globalParameters := [];
                payload_kindParameters := kindParameters_of stories;
                payload_stories := stories |},
         s')
    end.
Proof. done. Qed.


Lemma getStoriesJsonData_unfold s :
  getStoriesJsonData GlobalsStore_get s
  = match extract (Some {| includeDocsOnly := Some true |}) s with
    | (inl e, s') => (inl e, s')
    | (inr stories, s') =>
        match mapValues (V3CompatIndexEntry_of (storyIndex s')) stories with
        | inl e => (inl e, s')
        | inr stories' =>
            (inr {| index_v := 3; index_stories := stories' |}, s')
        end
    end.
Proof.
  unfold getStoriesJsonData, bind. rewrite getSetStoriesPayload_unfold.
  by destruct (extract _ s) as [[e|stories] s'].
Qed.

Lemma entries_importPath_cases index id importPath0 :
  entries_importPath index id = Some importPath0 →
  (∀ indexEntry,
     obj_get id (entries index) = Some indexEntry →
     importPath0 = JStr (importPath indexEntry))
  ∧ (obj_get id (entries index) = None →
     inherited id = true ∧ importPath0 = JUndefined).
Proof.
  unfold entries_importPath.
  destruct (obj_get id (entries index)) as [indexEntry|].
  - intros [= <-]. split; [by intros ? [= <-] | done].
  - destruct (inherited id); [|done]. by intros [= <-].
Qed.

Lemma V3CompatIndexEntry_of_fields index story entry :
  V3CompatIndexEntry_of index story = inr entry →
  ∃ importPath0 parameters,
    entries_importPath index (ToString (prop "id" story)) = Some importPath0
    ∧ (∀ k, k ∈ ["id"; "name"; "title"] → obj_get k entry = obj_get k story)
    ∧ obj_get "importPath" entry = Some importPath0
    ∧ obj_get "kind" entry = Some (prop "title" story)
    ∧ obj_get "story" entry = Some (prop "name" story)
    ∧ obj_get "parameters" entry = Some (JObj parameters)
    ∧ (∀ k, k ∈ obj_keys entry →
            k ∈ ["id"; "name"; "title"; "importPath"; "kind"; "story";
                 "parameters"])
    ∧ obj_get "fileName" parameters = Some importPath0
    ∧ (∀ k, k ∈ obj_keys parameters → k ∈ allowedParameters)
    ∧ ∀ k, k ∈ allowedParameters → k ≠ "fileName" →
           obj_get k parameters
           = match prop "parameters" story with
             | JObj own => obj_get k own
             | _ => None
             end.
Proof.
  unfold V3CompatIndexEntry_of.
  destruct (entries_importPath index _) as [importPath0|] eqn:Hentry; [|done].
  set (picked := pick ["id"; "name"; "title"] story).
  assert (Hpicked : picked = pick ["id"; "name"; "title"] story) by done.
  clearbody picked.
  intros [= <-]. eexists importPath0, _.
  split; [done|]. split.
  { intros k Hk. rewrite !obj_get_obj_set, Hpicked, pick_get.
    rewrite (decide_True (P := k ∈ _)) by done.
    repeat (rewrite decide_False; [|intros ->; set_solver]).
    done. }
  split; [by rewrite !obj_get_obj_set|].
  split; [by rewrite !obj_get_obj_set|].
  split; [by rewrite !obj_get_obj_set|].
  split; [by rewrite !obj_get_obj_set|].
  split.
  { intros k. rewrite !obj_keys_obj_set, Hpicked.
    intros [->|[->|[->|[->|Hk%pick_keys]]]]; set_solver. }
  split; [by rewrite obj_get_obj_set|].
  split.
  { intros k. rewrite obj_keys_obj_set. intros [->|Hk]; [set_solver|].
    unfold pick_parameters in Hk.
    destruct (prop "parameters" story); try by apply elem_of_nil in Hk.
    by apply pick_keys in Hk. }
  intros k Hk Hne. rewrite obj_get_obj_set, decide_False by done.
  unfold pick_parameters. destruct (prop "parameters" story); try done.
  rewrite pick_get. by rewrite decide_True.
Qed.

(** X16: the version 3 index that [getStoriesJsonData] returns has an entry
    for each story of [extract({ includeDocsOnly: true })], under the same
    key and in the same order.  The entry has the story's [id], [name] and
    [title], the import path that the index has for the story's [id], the
    title again as [kind] and the name again as [story], and nothing else
    but [parameters]: those of the allowed names that the story's parameters
    have, with [fileName] forced to the import path.  (Where the index has no
    entry for the [id] and the [id] is a name inherited from
    [Object.prototype], the import path is [undefined].) *)
Theorem getStoriesJsonData_entries s json s' :
  getStoriesJsonData GlobalsStore_get s = (inr json, s') →
  ∃ stories,
    extract (Some {| includeDocsOnly := Some true |}) s = (inr stories, s')
    ∧ index_v json = 3
    ∧ obj_keys (index_stories json) = obj_keys stories
    ∧ ∀ i storyId entry,
        index_stories json !! i = Some (storyId, entry) →
        ∃ story importPath0 parameters,
          stories !! i = Some (storyId, story)
          ∧ (∀ indexEntry,
               obj_get (ToString (prop "id" story)) (entries (storyIndex s))
               = Some indexEntry →
               importPath0 = JStr (importPath indexEntry))
          ∧ (obj_get (ToString (prop "id" story)) (entries (storyIndex s))
             = None →
             inherited (ToString (prop "id" story)) = true
             ∧ importPath0 = JUndefined)
          ∧ (∀ k, k ∈ ["id"; "name"; "title"] →
                  obj_get k entry = obj_get k story)
          ∧ obj_get "importPath" entry = Some importPath0
          ∧ obj_get "kind" entry = Some (prop "title" story)
          ∧ obj_get "story" entry = Some (prop "name" story)
          ∧ obj_get "parameters" entry = Some (JObj parameters)
          ∧ (∀ k, k ∈ obj_keys entry →
                  k ∈ ["id"; "name"; "title"; "importPath"; "kind"; "story";
                       "parameters"])
          ∧ obj_get "fileName" parameters = Some importPath0
          ∧ (∀ k, k ∈ obj_keys parameters → k ∈ allowedParameters)
          ∧ ∀ k, k ∈ allowedParameters → k ≠ "fileName" →
                 obj_get k parameters
                 = match prop "parameters" story with
                   | JObj own => obj_get k own
                   | _ => None
                   end.
Proof.
  rewrite getStoriesJsonData_unfold.
  pose proof (extends_extract_reduce {| includeDocsOnly := Some true |})
    as Hframe.
  unfold extract in *. simpl.
  destruct (cachedCSFFiles s) as [files|]; [|done].
  specialize (Hframe files (entries (storyIndex s)) [] s).
  destruct (extract_reduce _ files _ _ s) as [[e|stories] s1] eqn:Hrun;
    [done|].
  simpl in Hframe. destruct Hframe as (-> & _).
  destruct (mapValues _ stories) as [e|stories'] eqn:Hmap; [done|].
  intros [= <- <-]. exists stories. simpl.
  destruct (mapValues_inr _ _ _ Hmap) as [Hkeys Hentries].
  split_and!; try done.
  intros i storyId entry Hi.
  destruct (Hentries i storyId entry Hi) as (story & Hstory & Hentry).
  destruct (V3CompatIndexEntry_of_fields _ _ _ Hentry)
    as (importPath0 & parameters & Hpath & Hfields).
  destruct (entries_importPath_cases _ _ _ Hpath) as [Hown Hinherited].
  by exists story, importPath0, parameters.
Qed.

(** X17: [getStoriesJsonData] fails when the extract fails, with its error,
    and otherwise only with a [TypeError], when the [id] of an extracted
    story is neither a key of the index nor a name inherited from
    [Object.prototype]; it then leaves the store as the extract left it. *)
Theorem getStoriesJsonData_failure s e s' :
  getStoriesJsonData GlobalsStore_get s = (inl e, s') →
  extract (Some {| includeDocsOnly := Some true |}) s = (inl e, s')
  ∨ ∃ stories storyId story,
      extract (Some {| includeDocsOnly := Some true |}) s = (inr stories, s')
      ∧ (storyId, story) ∈ stories
      ∧ obj_get (ToString (prop "id" story)) (entries (storyIndex s)) = None
      ∧ inherited (ToString (prop "id" story)) = false
      ∧ e = TypeError.
Proof.
  rewrite getStoriesJsonData_unfold.
  pose proof (extends_extract_reduce {| includeDocsOnly := Some true |})
    as Hframe.
  unfold extract in *. simpl.
  destruct (cachedCSFFiles s) as [files|]; [|intros [= <- <-]; by left].
  specialize (Hframe files (entries (storyIndex s)) [] s).
  destruct (extract_reduce _ files _ _ s) as [[e'|stories] s1] eqn:Hrun;
    [intros [= <- <-]; by left|].
  simpl in Hframe. destruct Hframe as (-> & _).
  destruct (mapValues _ stories) as [e'|stories'] eqn:Hmap; [|done].
  intros [= <- <-]. right.
  apply mapValues_inl in Hmap as (storyId & story & Hin & Hentry).
  exists stories, storyId, story. split_and!; try done.
  all: unfold V3CompatIndexEntry_of, entries_importPath in Hentry.
  all: destruct (obj_get _ (entries (storyIndex s))); [by simplify_eq|].
  all: destruct (inherited _); by simplify_eq.
Qed.
End Legacy.

(** *** Bound stories *)

Section Bound.
Context `{!Collaborators}.
Implicit Types (s : StoryStore) (csfFile : CSFFile).


Lemma fromId_bound storyId s bound s' :
  fromId storyId s = (inr (Some bound), s') →
  obj_get "storyFn" bound = Some storyFn.
Proof.
  unfold fromId. destruct (cachedCSFFiles s) as [files|]; [|done].
  destruct (StoryIndexStore_storyIdToEntry _ _) as [e|entry]; [done|].
  destruct (files !! importPath entry) as [csfFile|]; [|done].
  unfold bind.
  destruct (storyFromCSFFile storyId csfFile s) as [[e|story] s1]; [done|].
  intros [= <- <-]. unfold obj_get, obj_set. rewrite assoc_assign.
  by rewrite decide_True.
Qed.


(** **** raw *)

Lemma raw_unfold s :
  raw s
  = match extract None s with
    | (inl e, s1) => (inl e, s1)
    | (inr stories, s1) =>
        match mapM (λ story, fromId (ToString (prop "id" story)))
                   stories.*2 s1 with
        | (inl e, s2) => (inl e, s2)
        | (inr bound, s2) => (inr (omap id bound), s2)
        end
    end.
Proof.
  unfold raw, bind. destruct (extract None s) as [[e|stories] s1]; [done|].
  by destruct (mapM _ _ s1) as [[e|bound] s2].
Qed.

Lemma cachedCSFFiles_fromId storyId s :
  is_Some (cachedCSFFiles s) → is_Some (cachedCSFFiles (fromId storyId s).2).
Proof.
  apply (preserved_fromId (λ s, is_Some (cachedCSFFiles s))).
  intros id csfFile s0.
  by destruct (storyFromCSFFile_frame id csfFile s0)
    as (_ & _ & _ & _ & _ & -> & _).
Qed.

Lemma mapM_fromId (l : list (Obj JSValue)) s :
  is_Some (cachedCSFFiles s) →
  match mapM (λ story, fromId (ToString (prop "id" story))) l s with
  | (inl e, _) =>
      e = TypeError ∨ ∃ storyId, e = MissingStoryFromCsfFileError storyId
  | (inr bound, _) =>
      length bound = length l
      ∧ ∀ b, Some b ∈ bound → obj_get "storyFn" b = Some storyFn
  end.
Proof.
  revert s. induction l as [|story l IH]; intros s Hs; simpl.
  { split; [done|]. by intros b ?%elem_of_nil. }
  unfold bind at 1.
  pose proof (cachedCSFFiles_fromId (ToString (prop "id" story)) s Hs)
    as Hkept.
  destruct (fromId (ToString (prop "id" story)) s) as [[e|b] s1] eqn:Hcall.
  - apply (f_equal fst) in Hcall. simpl in Hcall.
    apply (fromId_errors _ _ _ Hs) in Hcall as [-> | ->]; [by left|].
    right. eauto.
  - simpl in Hkept. specialize (IH s1 Hkept). unfold bind at 1.
    destruct (mapM _ l s1) as [[e|bound] s2]; [done|].
    destruct IH as [Hlen Hbound]. simpl. split; [by rewrite Hlen|].
    intros b' [[= <-]|Hin]%elem_of_cons; [|by apply Hbound].
    by apply fromId_bound in Hcall.
Qed.

(** X19: [raw] called without cached CSF files throws
    [CalledExtractOnStoreError], the error of [extract], and in no store the
    usage error of [fromId]; the bound stories it returns are no more than
    the stories of [extract()], and each has a [storyFn]. *)
Theorem raw_outcome s :
  (cachedCSFFiles s = None → raw s = (inl CalledExtractOnStoreError, s))
  ∧ (∀ message, (raw s).1 ≠ inl (UsageError message))
  ∧ ∀ bound s',
      raw s = (inr bound, s') →
      ∃ stories s1,
        extract None s = (inr stories, s1)
        ∧ length bound ≤ length stories
        ∧ ∀ b, b ∈ bound → obj_get "storyFn" b = Some storyFn.
Proof.
  rewrite raw_unfold.
  pose proof (extends_extract_reduce {| includeDocsOnly := Some false |})
    as Hframe.
  pose proof (extract_reduce_errors {| includeDocsOnly := Some false |})
    as Herrors.
  unfold extract. simpl.
  destruct (cachedCSFFiles s) as [files|] eqn:Hfiles;
    [|split_and!; [done | by intros ? | by intros ? ? [=]]].
  specialize (Hframe files (entries (storyIndex s)) [] s).
  specialize (Herrors files (entries (storyIndex s)) [] s).
  destruct (extract_reduce _ files _ _ s) as [[e|stories] s1] eqn:Hrun.
  { split_and!; [done| |by intros ? ? [=]].
    intros message [= ->]. by destruct (Herrors _ eq_refl) as [?|[? ?]]. }
  simpl in Hframe. destruct Hframe as (_ & _ & _ & _ & _ & _ & Hcached & _).
  assert (Hmap : is_Some (cachedCSFFiles s1))
    by (rewrite Hcached, Hfiles; eauto).
  apply (mapM_fromId stories.*2 s1) in Hmap.
  destruct (mapM _ stories.*2 s1) as [[e|bound] s2].
  - split_and!; [done| |by intros ? ? [=]].
    intros message [= ->]. by destruct Hmap as [?|[? ?]].
  - split_and!; [done..|]. intros bound' s' [= <- <-].
    destruct Hmap as [Hlen Hbound].
    exists stories, s1. split_and!; [done| |].
    + rewrite length_fmap in Hlen. rewrite <- Hlen. clear.
      induction bound as [|[b|] bound IH]; csimpl; lia.
    + intros b Hb. apply Hbound.
      apply list_elem_of_omap in Hb as ([b'|] & Hin & Hb'); by simplify_eq/=.
Qed.
End Bound.

(** *** loadEntry *)

Section Entry.
Context `{!Collaborators}.
Implicit Types (s : StoryStore) (l : list (string * LoadPromise)).

Lemma storyImports_calls_store storyImports s :
  (storyImports_calls storyImports s).2
  = set_imports (imports (storyImports_calls storyImports s).2) s.
Proof.
  revert s. induction storyImports as [|path rest IH]; intros s; simpl.
  { by rewrite set_imports_same. }
  destruct (StoryIndexStore_importPathToEntry _ path) as [e|first]; simpl.
  { by rewrite set_imports_same. }
  rewrite IH at 1.
  by rewrite (loadCSFFileByStoryId_call_store (entry_id first) s).
Qed.

(** Every invocation of the loader that the [map] adds to the trace is
    awaited by one of the promises. *)
Lemma storyImports_calls_added storyImports s :
  ∃ added,
    imports (storyImports_calls storyImports s).2 = added ++ imports s
    ∧ ∀ path load,
        (path, load) ∈ added →
        ∃ path' title0,
          (path', at_await load path title0)
            ∈ (storyImports_calls storyImports s).1.1.
Proof.
  revert s. induction storyImports as [|path rest IH]; intros s; simpl.
  { exists []. split; [done|]. by intros ? ? ?%elem_of_nil. }
  destruct (StoryIndexStore_importPathToEntry _ path) as [e|first]; simpl.
  { exists []. split; [done|]. by intros ? ? ?%elem_of_nil. }
  destruct (IH (loadCSFFileByStoryId_call (entry_id first) s).2)
    as (added & Htrace & Hadded).
  destruct (obj_get (entry_id first) (entries (storyIndex s)))
    as [found|] eqn:Hfound.
  - rewrite (loadCSFFileByStoryId_call_entry _ _ _ Hfound) in *. simpl in *.
    eexists (added ++ [_]). split.
    + rewrite Htrace, <- app_assoc. done.
    + intros path' load [Hin|[= -> ->]%list_elem_of_singleton]%elem_of_app.
      * destruct (Hadded _ _ Hin) as (p & ti & Hp). exists p, ti. by right.
      * eexists _, _. left.
  - assert (loadCSFFileByStoryId_call (entry_id first) s
            = (LoadRejected 0 (EntryNotFound (entry_id first)), s)) as Hcall.
    { unfold loadCSFFileByStoryId_call, StoryIndexStore_storyIdToEntry.
      by rewrite Hfound. }
    rewrite Hcall in *. simpl in *. exists added. split; [done|].
    intros path' load Hin.
    destruct (Hadded _ _ Hin) as (p & ti & Hp). exists p, ti. by right.
Qed.

(** Unless a lookup throws, the [map] makes a call for each import. *)
Lemma storyImports_calls_each storyImports s path :
  (storyImports_calls storyImports s).1.2 = None →
  path ∈ storyImports →
  ∃ firstStoryEntry trace,
    StoryIndexStore_importPathToEntry (storyIndex s) path = inr firstStoryEntry
    ∧ (path,
       (loadCSFFileByStoryId_call (entry_id firstStoryEntry)
          (set_imports trace s)).1)
        ∈ (storyImports_calls storyImports s).1.1.
Proof.
  revert s. induction storyImports as [|path0 rest IH]; intros s; simpl.
  { by intros _ ?%elem_of_nil. }
  destruct (StoryIndexStore_importPathToEntry _ path0) as [e|first] eqn:Hfirst;
    [done|].
  simpl. intros Hthrown [-> | Hin]%elem_of_cons.
  - exists first, (imports s). split; [done|].
    rewrite set_imports_same. left.
  - set (s1 := (loadCSFFileByStoryId_call (entry_id first) s).2) in *.
    assert (Hs1 : s1 = set_imports (imports s1) s)
      by apply loadCSFFileByStoryId_call_store.
    destruct (IH _ Hthrown Hin) as (first' & trace & Hfirst' & Hcall).
    exists first', trace. split; [by rewrite Hs1 in Hfirst'|].
    right. replace (set_imports trace s) with (set_imports trace s1); [done|].
    by rewrite Hs1.
Qed.

Lemma storyImports_calls_length storyImports s :
  (storyImports_calls storyImports s).1.2 = None →
  length (storyImports_calls storyImports s).1.1 = length storyImports.
Proof.
  revert s. induction storyImports as [|path rest IH]; intros s; simpl; [done|].
  destruct (StoryIndexStore_importPathToEntry _ path) as [e|first]; [done|].
  simpl. intros Hthrown. by rewrite IH.
Qed.

(** When no call of the [map] is rejected by its lookup, the loader is
    invoked once for each import, in order. *)
Lemma storyImports_calls_loads storyImports s :
  (storyImports_calls storyImports s).1.2 = None →
  (∀ path e,
     (path, LoadRejected 0 e) ∉ (storyImports_calls storyImports s).1.1) →
  ∃ loads,
    imports (storyImports_calls storyImports s).2 = reverse loads ++ imports s
    ∧ length loads = length storyImports
    ∧ ∀ i path,
        storyImports !! i = Some path →
        ∃ firstStoryEntry found load,
          StoryIndexStore_importPathToEntry (storyIndex s) path
          = inr firstStoryEntry
          ∧ obj_get (entry_id firstStoryEntry) (entries (storyIndex s))
            = Some found
          ∧ loads !! i = Some (importPath found, load)
          ∧ load = importFn s (reverse (take i loads) ++ imports s)
                     (importPath found)
          ∧ (storyImports_calls storyImports s).1.1 !! i
            = Some (path, at_await load (importPath found) (title found)).
Proof.
  revert s. induction storyImports as [|path0 rest IH]; intros s; simpl.
  { intros _ _. exists []. split_and!; [done..|]. by intros i ? ?. }
  destruct (StoryIndexStore_importPathToEntry _ path0) as [e|first] eqn:Hfirst;
    [done|].
  simpl. intros Hthrown Hnone.
  destruct (obj_get (entry_id first) (entries (storyIndex s)))
    as [found|] eqn:Hfound.
  2:{ exfalso. apply (Hnone path0 (EntryNotFound (entry_id first))).
      unfold loadCSFFileByStoryId_call, StoryIndexStore_storyIdToEntry.
      rewrite Hfound. left. }
  rewrite (loadCSFFileByStoryId_call_entry _ _ _ Hfound) in *. simpl in *.
  set (load := importFn s (imports s) (importPath found)) in *.
  set (s1 := set_imports ((importPath found, load) :: imports s) s) in *.
  destruct (IH s1 Hthrown) as (loads & Htrace & Hlen & Hcalls).
  { intros path e Hin. apply (Hnone path e). by right. }
  exists ((importPath found, load) :: loads). split_and!.
  - rewrite Htrace. simpl. by rewrite reverse_cons, <- app_assoc.
  - simpl. by rewrite Hlen.
  - intros [|i] path Hi; simpl in *.
    + injection Hi as <-. by exists first, found, load.
    + destruct (Hcalls i path Hi)
        as (first' & found' & load' & ? & ? & ? & Hload' & ?).
      exists first', found', load'. split_and!; try done.
      by rewrite reverse_cons, <- app_assoc.
Qed.

Lemma at_await_not_fulfilled load path title0 csfFile :
  at_await load path title0 ≠ LoadFulfilled csfFile.
Proof. unfold at_await. by destruct (outcome load). Qed.

Lemma at_await_awaiting load path title0 t moduleExports path' title' :
  at_await load path title0 = LoadAwaiting t moduleExports path' title' →
  outcome load = inr moduleExports ∧ path' = path ∧ title' = title0.
Proof.
  unfold at_await. destruct (outcome load); [done|]. by intros [= _ <- <- <-].
Qed.

(** Once no load is suspended and none was rejected, each is fulfilled. *)
Lemma settled_fulfilled l :
  awaiting_count l = 0 → first_rejection l = None →
  Forall2 (λ pp csfFile, pp.2 = LoadFulfilled csfFile) l
    (omap (λ pp, match pp.2 with
                 | LoadFulfilled csfFile => Some csfFile
                 | _ => None
                 end) l).
Proof.
  induction l as [|[path p] l IH]; simpl; [constructor|].
  destruct p as [t e|t m ip ti|c]; simpl.
  - by destruct (first_rejection l) as [[? ?]|]; [case_decide|].
  - lia.
  - intros Hdone Hnone. csimpl. constructor; [done | by apply IH].
Qed.

Lemma loadEntry_store storyId s :
  ∃ trace cache,
    cache_steps (csf_cache s) cache
    ∧ (loadEntry storyId s).2 = set_csf_cache cache (set_imports trace s).
Proof.
  unfold loadEntry.
  destruct (StoryIndexStore_storyIdToEntry _ _) as [e|entry].
  { exists (imports s), (csf_cache s). split; [constructor | by destruct s]. }
  cbv zeta.
  match goal with
  | |- context [storyImports_calls ?l ?s0] =>
      pose proof (storyImports_calls_store l s0) as Hstore;
      destruct (storyImports_calls l s0) as [[promises thrown] s1]
  end.
  simpl in *. set (trace := imports s1) in *. clearbody trace. subst s1.
  pose proof (proj2 (settle_loads_resumed (length promises) promises
                       (csf_cache s))) as Hsteps.
  simpl. destruct (settle_loads _ promises _) as [settled cache].
  simpl in Hsteps. exists trace, cache. split; [done|].
  destruct thrown; [done|].
  destruct (outcome _) as [reason|m], (first_rejection settled) as [[t e]|];
    try done.
  by case_decide.
Qed.

(** X20: a [loadEntry] that succeeds resolves to the module that the loader
    gives for the entry's own import path and to one CSF file for each of
    the [storiesImports] of a docs entry, in their order, none for a story
    entry: the file that [processCSFFileWithCache] returned, when its load
    resumed, for the module and under the title of the first entry of the
    index that uses that import path.  The loader is invoked for the entry's
    own module first and then once for each of these imports, in order.
    Nothing but the trace and the cache of [processCSFFileWithCache] is
    written, and for a story entry not even that cache. *)
Theorem loadEntry_resolves storyId s entry result s' :
  obj_get storyId (entries (storyIndex s)) = Some entry →
  loadEntry storyId s = (inr result, s') →
  let storyImports := match type entry with
                      | type_docs => storiesImports entry
                      | type_story => []
                      end in
  let own := importFn s (imports s) (importPath entry) in
  ∃ loads,
    outcome own = inr (entryExports result)
    ∧ imports s' = reverse loads ++ (importPath entry, own) :: imports s
    ∧ (∃ cache, cache_steps (csf_cache s) cache
                ∧ s' = set_csf_cache cache (set_imports (imports s') s))
    ∧ (type entry = type_story →
       csfFiles result = [] ∧ s' = set_imports (imports s') s)
    ∧ length loads = length storyImports
    ∧ length (csfFiles result) = length storyImports
    ∧ ∀ i storyImportPath,
        storyImports !! i = Some storyImportPath →
        ∃ firstStoryEntry found load moduleExports cache csfFile,
          StoryIndexStore_importPathToEntry (storyIndex s) storyImportPath
          = inr firstStoryEntry
          ∧ importPath firstStoryEntry = storyImportPath
          ∧ obj_get (entry_id firstStoryEntry) (entries (storyIndex s))
            = Some found
          ∧ loads !! i = Some (importPath found, load)
          ∧ load = importFn s (reverse (take i loads)
                               ++ (importPath entry, own) :: imports s)
                     (importPath found)
          ∧ outcome load = inr moduleExports
          ∧ csfFiles result !! i = Some csfFile
          ∧ cache_steps (csf_cache s) cache
          ∧ csfFile
            = (processCSFFileWithCache moduleExports (importPath found)
                 (title found) cache).1
          ∧ (reachable s →
             processed_from (oid moduleExports, importPath found, title found)
                            csfFile).
Proof.
  intros Hentry Hcall storyImports own.
  revert Hcall. unfold loadEntry, StoryIndexStore_storyIdToEntry.
  rewrite Hentry. cbv zeta. fold storyImports. simpl. fold own.
  set (s0 := set_imports ((importPath entry, own) :: imports s) s).
  pose proof (storyImports_calls_loads storyImports s0) as Hloads.
  pose proof (storyImports_calls_store storyImports s0) as Hstore.
  pose proof (storyImports_calls_length storyImports s0) as Hpromises.
  assert (Hstory : type entry = type_story →
                   storyImports_calls storyImports s0 = ([], None, s0)).
  { unfold storyImports. by intros ->. }
  destruct (storyImports_calls storyImports s0)
    as [[promises thrown] s1]. simpl in *.
  assert (Hcache : csf_cache s1 = csf_cache s) by by rewrite Hstore.
  rewrite Hcache.
  pose proof (settle_loads_resumed (length promises) promises (csf_cache s))
    as [Hres Hsteps].
  pose proof (settle_loads_done (length promises) promises (csf_cache s)
                (awaiting_count_length _)) as Hdone.
  assert (Hnone : promises = [] →
                  settle_loads (length promises) promises (csf_cache s)
                  = ([], csf_cache s)) by by intros ->.
  destruct (settle_loads _ promises _) as [settled cache]. simpl in *.
  destruct thrown; [done|].
  destruct (outcome own) as [reason|m] eqn:Hout.
  { destruct (first_rejection settled) as [[t e]|]; [by case_decide | done]. }
  destruct (first_rejection settled) as [[t e]|] eqn:Hrej; [done|].
  intros [= <- <-]. simpl.
  assert (Hclean : ∀ path e, (path, LoadRejected 0 e) ∉ promises).
  { intros path e Hin.
    rewrite (first_rejection_resumed _ _ _ Hres) in Hrej.
    by apply (first_rejection_None _ path 0 e) in Hrej. }
  destruct (Hloads eq_refl Hclean) as (loads & Htrace & Hlen & Hcalls).
  pose proof (settled_fulfilled settled Hdone Hrej) as Hfulfilled.
  pose proof (Forall2_length _ _ _ Hres) as Hlen1.
  pose proof (Forall2_length _ _ _ Hfulfilled) as Hlen2.
  exists loads. split_and!; [done| | | | | |].
  - by rewrite Htrace.
  - exists cache. split; [done|]. by rewrite Hstore at 1.
  - intros Htype. specialize (Hstory Htype). injection Hstory as -> ->.
    specialize (Hnone eq_refl). injection Hnone as -> ->.
    split; [done|]. by destruct s.
  - done.
  - rewrite <- Hlen2, <- Hlen1. by apply Hpromises.
  - intros i path Hi.
    destruct (Hcalls i path Hi)
      as (first & found & load & Hfirst & Hfound & Hload & Hwhich & Hpromise).
    destruct (Forall2_lookup_l _ _ _ _ _ Hres Hpromise)
      as (pp & Hpp & _ & Hresumed).
    destruct (Forall2_lookup_l _ _ _ _ _ Hfulfilled Hpp) as (csfFile & Hc & Hful).
    simpl in Hresumed. rewrite Hful in Hresumed.
    destruct Hresumed
      as [Hsame|(t & m' & ip & ti & c & Hbefore & Hc' & Hafter)].
    { symmetry in Hsame. by apply at_await_not_fulfilled in Hsame. }
    apply at_await_awaiting in Hbefore as (Hout' & -> & ->).
    injection Hafter as ->.
    exists first, found, load, m', c. eexists. split_and!; try done.
    + unfold StoryIndexStore_importPathToEntry in Hfirst.
      destruct (list_find _ _) as [[j [k e]]|] eqn:Hfind; [|done].
      injection Hfirst as ->. by apply list_find_Some in Hfind as (_ & ? & _).
    + intros Hreach. apply processCSFFileWithCache_ok.
      apply (cache_steps_ok (csf_cache s)); [|done].
      by apply reachable_csf_cache_ok.
Qed.
(** X21: [loadEntry] fails fast.  For an identifier that is not in the index
    it rejects with the lookup's error and leaves the store as it was.  For
    an entry of the index it invokes the loader for the entry's own module
    and then for those of its imports, and rejects, resolving to nothing,
    when any of these invocations fails: that of the entry's own module, or
    any other that it has added to the trace; so it does when the loader
    fails for the module behind one of the [storiesImports] of a docs entry.
    For a story entry it rejects with the failure of the loader and leaves
    the store as it was, but for that invocation in the trace. *)
Theorem loadEntry_fails_fast storyId s :
  match obj_get storyId (entries (storyIndex s)) with
  | None => loadEntry storyId s = (inl (EntryNotFound storyId), s)
  | Some entry =>
      let own := importFn s (imports s) (importPath entry) in
      ∃ added,
        imports (loadEntry storyId s).2
        = added ++ (importPath entry, own) :: imports s
        ∧ (∀ path load reason,
             (path, load) ∈ added ++ [(importPath entry, own)] →
             outcome load = inl reason →
             ∃ e, (loadEntry storyId s).1 = inl e)
        ∧ (∀ storyImportPath firstStoryEntry found reason,
             type entry = type_docs →
             storyImportPath ∈ storiesImports entry →
             StoryIndexStore_importPathToEntry (storyIndex s) storyImportPath
             = inr firstStoryEntry →
             obj_get (entry_id firstStoryEntry) (entries (storyIndex s))
             = Some found →
             (∀ trace,
                outcome (importFn s trace (importPath found)) = inl reason) →
             ∃ e, (loadEntry storyId s).1 = inl e)
        ∧ (∀ reason,
             type entry = type_story →
             outcome own = inl reason →
             loadEntry storyId s
             = (inl (LoaderFailure reason),
                set_imports ((importPath entry, own) :: imports s) s))
  end.
Proof.
  unfold loadEntry, StoryIndexStore_storyIdToEntry.
  destruct (obj_get storyId (entries (storyIndex s))) as [entry|]; [|done].
  cbv zeta. simpl.
  set (own := importFn s (imports s) (importPath entry)).
  set (s0 := set_imports ((importPath entry, own) :: imports s) s).
  set (storyImports := match type entry with
                       | type_story => []
                       | type_docs => storiesImports entry
                       end).
  destruct (storyImports_calls_added storyImports s0) as (added & Htrace & Hadded).
  pose proof (storyImports_calls_each storyImports s0) as Heach.
  assert (Hstory : type entry = type_story →
                   storyImports_calls storyImports s0 = ([], None, s0)).
  { unfold storyImports. by intros ->. }
  destruct (storyImports_calls storyImports s0)
    as [[promises thrown] s1]. simpl in *.
  pose proof (settle_loads_resumed (length promises) promises (csf_cache s1))
    as [Hres _].
  assert (Hnone : promises = [] →
                  settle_loads (length promises) promises (csf_cache s1)
                  = ([], csf_cache s1)) by by intros ->.
  destruct (settle_loads _ promises _) as [settled cache]. simpl in *.
  assert (Hrejected : ∀ path t e,
            (path, LoadRejected t e) ∈ promises →
            is_Some (first_rejection settled)).
  { intros path t e Hin.
    apply first_rejection_is_Some in Hin as [[t' e'] Hrej].
    rewrite (first_rejection_resumed _ _ _ Hres), Hrej. eauto. }
  exists added. split_and!.
  - rewrite <- Htrace.
    destruct thrown; [done|].
    destruct (outcome own), (first_rejection settled) as [[t e]|]; try done.
    by case_decide.
  - intros path load reason Hin Hfail.
    destruct thrown as [e|]; [by exists e|].
    apply elem_of_app in Hin as [Hin|[= -> ->]%list_elem_of_singleton].
    + destruct (Hadded _ _ Hin) as (path' & ti & Hpromise).
      unfold at_await in Hpromise. rewrite Hfail in Hpromise.
      destruct (Hrejected _ _ _ Hpromise) as [[t e] ->].
      destruct (outcome own); [case_decide|]; simpl; eauto.
    + rewrite Hfail. destruct (first_rejection settled) as [[t e]|];
        [case_decide|]; simpl; eauto.
  - intros path first found reason Htype Hin Hfirst Hfound Hfail.
    destruct thrown as [e|]; [by exists e|].
    unfold storyImports in Heach. rewrite Htype in Heach.
    destruct (Heach path eq_refl Hin) as (first' & trace & Hfirst' & Hpromise).
    assert (first' = first) as -> by (simpl in *; congruence).
    rewrite (loadCSFFileByStoryId_call_entry _ _ found) in Hpromise by done.
    simpl in Hpromise. unfold at_await in Hpromise.
    rewrite Hfail in Hpromise.
    destruct (Hrejected _ _ _ Hpromise) as [[t e] ->].
    destruct (outcome own); [case_decide|]; simpl; eauto.
  - intros reason Htype Hfail.
    specialize (Hstory Htype). injection Hstory as -> -> ->.
    specialize (Hnone eq_refl). injection Hnone as -> ->.
    rewrite Hfail. unfold s0. by destruct s.
Qed.
End Entry.

(** *** Every public method *)

Section Public.
Context `{!Collaborators}.
Variable GlobalsStore_get : GlobalsStore → JSValue.
Implicit Types (s : StoryStore).

Section PreservedRemaining.
Variable P : StoryStore → Prop.
Hypothesis P_set_imports : ∀ trace s, P s → P (set_imports trace s).
Hypothesis P_processCSFFileWithCache :
  ∀ moduleExports importPath title s,
    P s →
    P (set_csf_cache
         (processCSFFileWithCache moduleExports importPath title (csf_cache s)).2
         s).
Hypothesis P_storyFromCSFFile :
  ∀ storyId csfFile s, P s → P (storyFromCSFFile storyId csfFile s).2.

Lemma preserved_mapM_fromId (l : list (Obj JSValue)) s :
  P s → P (mapM (λ story, fromId (ToString (prop "id" story))) l s).2.
Proof.
  revert s. induction l as [|story l IH]; intros s HP; simpl; [done|].
  unfold bind at 1.
  pose proof (preserved_fromId P P_storyFromCSFFile
                (ToString (prop "id" story)) s HP) as HP'.
  destruct (fromId _ s) as [[e|b] s1]; [done|].
  unfold bind at 1. specialize (IH s1 HP').
  by destruct (mapM _ l s1) as [[e|bound] s2].
Qed.

(** The remaining methods write what [processCSFFileWithCache] and
    [storyFromCSFFile] write, and nothing more. *)
Lemma preserved_exec_remaining c s :
  P s → P (exec_remaining GlobalsStore_get c s).2.
Proof.
  intros HP. destruct c; simpl.
  - destruct (loadEntry_store id s) as (trace & cache & Hsteps & ->).
    apply preserved_cache_steps; [done | by apply P_set_imports | done].
  - rewrite getSetStoriesPayload_unfold.
    pose proof (preserved_extract P P_storyFromCSFFile
                  (Some {| includeDocsOnly := Some true |}) s HP) as HP'.
    by destruct (extract _ s) as [[e|stories] s1].
  - rewrite getStoriesJsonData_unfold.
    pose proof (preserved_extract P P_storyFromCSFFile
                  (Some {| includeDocsOnly := Some true |}) s HP) as HP'.
    destruct (extract _ s) as [[e|stories] s1]; [done|].
    by destruct (mapValues _ stories).
  - rewrite raw_unfold.
    pose proof (preserved_extract P P_storyFromCSFFile None s HP) as HP'.
    destruct (extract None s) as [[e|stories] s1]; [done|].
    pose proof (preserved_mapM_fromId stories.*2 s1 HP') as HP''.
    by destruct (mapM _ stories.*2 s1) as [[e|bound] s2].
Qed.
End PreservedRemaining.

Lemma reachable_public_preserved (P : StoryStore → Prop) s :
  (∀ index f pa, P (new_StoryStore index f pa)) →
  (∀ c s0, P s0 → P (exec c s0).2) →
  (∀ trace s0, P s0 → P (set_imports trace s0)) →
  (∀ moduleExports importPath title s0,
     P s0 →
     P (set_csf_cache
          (processCSFFileWithCache moduleExports importPath title
                                   (csf_cache s0)).2 s0)) →
  (∀ storyId csfFile s0, P s0 → P (storyFromCSFFile storyId csfFile s0).2) →
  reachable_public GlobalsStore_get s → P s.
Proof.
  intros Hnew Hexec Htrace Hprocess Hstory.
  induction 1 as [|c s0 Hs0 IH|c s0 Hs0 IH];
    [apply Hnew | by apply Hexec | by apply preserved_exec_remaining].
Qed.

(** X22: what holds of every store reached with the calls of [Call] holds of
    every store reached with any public method: one hooks context per
    identifier, each a distinct object; every cached story made by
    [prepareStory]; every cached CSF file made by [processCSFFile] of the
    module it is cached under; and both caches within their sizes. *)
Theorem reachable_public_invariants s :
  reachable_public GlobalsStore_get s →
  single_handles s
  ∧ prepared_stories s
  ∧ csf_cache_ok (csf_cache s)
  ∧ caches_bounded s.
Proof.
  intros Hs. split_and!.
  - revert Hs. apply reachable_public_preserved.
    + apply single_handles_new.
    + apply single_handles_exec.
    + intros trace s0. by apply single_handles_same.
    + intros m path title s0. by apply single_handles_same.
    + apply single_handles_storyFromCSFFile.
  - revert Hs. apply reachable_public_preserved.
    + intros index f pa key story. simpl. by intros ?%elem_of_nil.
    + apply prepared_stories_exec.
    + intros trace s0. by apply prepared_stories_same.
    + intros m path title s0. by apply prepared_stories_same.
    + intros storyId csfFile s0 Hs0. by apply storyFromCSFFile_prepared.
  - revert Hs.
    apply (reachable_public_preserved (λ s, csf_cache_ok (csf_cache s))).
    + intros index f pa key csfFile. simpl. by intros ?%elem_of_nil.
    + intros c s0.
      apply (preserved_exec (λ s, csf_cache_ok (csf_cache s))); try done.
      * intros m path title s1 Hs1. simpl. by apply processCSFFileWithCache_ok.
      * intros storyId csfFile s1. by rewrite csf_cache_storyFromCSFFile.
      * intros story s1. unfold cleanupStory.
        by destruct (hooks s1 !! story_id story).
    + done.
    + intros m path title s0 Hs0. simpl. by apply processCSFFileWithCache_ok.
    + intros storyId csfFile s0. by rewrite csf_cache_storyFromCSFFile.
  - revert Hs. apply reachable_public_preserved.
    + intros index f pa. unfold caches_bounded. simpl.
      split_and!; try apply NoDup_nil_2; lia.
    + apply caches_bounded_exec.
    + done.
    + apply caches_bounded_processCSFFileWithCache.
    + apply caches_bounded_storyFromCSFFile.
Qed.
End Public.

(** ** The model at work *)

Module Checks.
Import Example.
#[local] Existing Instance example_collaborators.

Example js_sort_example :
  js_sort [JStr "b"; JUndefined; JStr "a"; JNull; JArr [JStr "a"; JStr "b"]]
  = [JStr "a"; JArr [JStr "a"; JStr "b"]; JStr "b"; JNull; JUndefined].
Proof. reflexivity. Qed.

(** The order is that of UTF-16 code units: a character outside the basic
    plane, which starts with a surrogate, sorts before a fullwidth tilde. *)
Example js_sort_code_units_example :
  js_sort [JStr "～"; JStr "😀"; JStr "z"] = [JStr "z"; JStr "😀"; JStr "～"]
  ∧ code_units "😀" = [55357%N; 56832%N]
  ∧ code_units "～" = [65374%N].
Proof. split_and!; vm_compute; reflexivity. Qed.

Example importPaths_example :
  importPaths_of example_index
  = [("Button.stories", "s2"); ("Intro.mdx", "intro")].
Proof. reflexivity. Qed.

(** [Intro.mdx] arrives first, so its file is processed first. *)
Example loadAllCSFFiles_example :
  (λ kv, oid (meta kv.2))
    <$> memo_entries (csf_cache (loadAllCSFFiles example_store).2)
  = [13; 12]
  ∧ (loadAllCSFFiles offline_store).1 = inl (LoaderFailure "offline").
Proof. split; vm_compute; reflexivity. Qed.

Example extract_example :
  (extract None example_cached_store).1 = inr [("s1", primary_record)].
Proof. vm_compute. reflexivity. Qed.

(** A story named as a member of [Object.prototype] is found in every CSF
    file: [extract] and [fromId] resolve it, and [cleanupStory] finds no
    hooks context to clean. *)
Example inherited_example :
  (extract None inherited_cached_store).1
  = inr [("toString",
          [("args", JObj []); ("id", JUndefined); ("title", JStr "Button");
           ("name", JUndefined); ("parameters", JObj []);
           ("initialArgs", JObj []); ("tags", JArr [])])]
  ∧ (∃ bound, (fromId "toString" inherited_cached_store).1
              = inr (Some bound))
  ∧ (getStoriesJsonData example_get inherited_cached_store).1 = inl TypeError.
Proof. split_and!; [|eexists|]; vm_compute; reflexivity. Qed.

(** A loader need not give the same module twice. *)
Example flaky_example :
  (loadStory "s1" flaky_store).1 = inr primary_story
  ∧ (loadStory "s1" (loadStory "s1" flaky_store).2).1
    = inl (LoaderFailure "Failed to fetch").
Proof. split; vm_compute; reflexivity. Qed.

(** A run that returned [a] returned it with the store it left. *)
Lemma returned {A} (run : (Error + A) * StoryStore) (a : A) :
  run.1 = inr a → run = (inr a, run.2).
Proof. destruct run as [r s]. simpl. by intros ->. Defined.

Lemma threw {A} (run : (Error + A) * StoryStore) (e : Error) :
  run.1 = inl e → run = (inl e, run.2).
Proof. destruct run as [r s]. simpl. by intros ->. Defined.

Lemma example_cached : is_Some (cachedCSFFiles example_cached_store).
Proof. apply (bool_decide_unpack _). vm_compute. exact I. Defined.


Lemma example_cached_reachable : reachable example_cached_store.
Proof. apply (reachable_exec CallCacheAllCSFFiles), reachable_new. Defined.

Lemma example_resolved_run :
  storyFromCSFFile "s1" button_csfFile example_store
  = (inr primary_story, example_resolved_store).
Proof. apply returned. vm_compute. reflexivity. Defined.

Lemma example_typed sa ca pa story :
  props story = prepareStory sa ca pa → PreparedStory_typed story.
Proof.
  unfold prepareStory. simpl. unfold example_prepareStory.
  intros Hprops. unfold PreparedStory_typed, initialArgs, prop.
  rewrite Hprops. split_and!.
  - unfold obj_wf. simpl. repeat constructor; set_solver.
  - reflexivity.
  - simpl. unfold object_or_empty. destruct (prop "args" (props sa)); eauto.
Defined.



Lemma onStoriesChanged_counterexample :
  reachable example_cached_store
  ∧ is_Some (cachedCSFFiles example_cached_store)
  ∧ (onStoriesChanged (Some offline_importFn) None example_cached_store).1
    = inl (LoaderFailure "offline").
Proof.
  split_and!.
  - apply (reachable_exec CallCacheAllCSFFiles), reachable_new.
  - vm_compute. eauto.
  - vm_compute. reflexivity.
Qed.


Lemma loadAllCSFFiles_fails_fast_witness :
  obj_wf (entries (storyIndex offline_store))
  ∧ ("Intro.mdx", {| settle := 0; outcome := inl "offline" |})
      ∈ invocations (importFn offline_store) (imports offline_store)
          (obj_keys (importPaths_of (storyIndex offline_store)))
  ∧ (loadAllCSFFiles offline_store).1 = inl (LoaderFailure "offline")
  ∧ (cacheAllCSFFiles offline_store).1 = inl (LoaderFailure "offline")
  ∧ cachedCSFFiles (cacheAllCSFFiles offline_store).2 = None.
Proof.
  assert (H1 : obj_wf (entries (storyIndex offline_store))).
  { unfold obj_wf. vm_compute. repeat constructor; set_solver. }
  assert (H2 : ("Intro.mdx", {| settle := 0; outcome := inl "offline" |})
               ∈ invocations (importFn offline_store) (imports offline_store)
                   (obj_keys (importPaths_of (storyIndex offline_store)))).
  { vm_compute. set_solver. }
  destruct (loadAllCSFFiles_fails_fast offline_store "Intro.mdx" _ "offline"
              H1 H2 eq_refl)
    as (path & load & reason & _ & _ & _ & Hload & Hcache & Hkept & _).
  assert (reason = "offline") as ->.
  { vm_compute in Hload. by injection Hload as <-. }
  split_and!; [exact H1 | exact H2 | exact Hload | exact Hcache | exact Hkept].
Defined.

Lemma onStoriesChanged_outcome_witness :
  cachedCSFFiles example_store = None
  ∧ onStoriesChanged (Some offline_importFn) None example_store
    = (inr (), replaced (Some offline_importFn) None example_store).
Proof.
  split; [reflexivity|].
  apply (onStoriesChanged_outcome (Some offline_importFn) None example_store).
  reflexivity.
Defined.

Lemma storyFromCSFFile_same_instance_witness :
  storyFromCSFFile "s1" button_csfFile example_store
  = (inr primary_story, example_resolved_store)
  ∧ (storyFromCSFFile "s1" button_csfFile example_resolved_store).1
    = inr primary_story.
Proof.
  assert (Hcall : storyFromCSFFile "s1" button_csfFile example_store
                  = (inr primary_story, example_resolved_store))
    by (vm_compute; reflexivity).
  split; [exact Hcall|].
  destruct (obj_read "s1" (stories button_csfFile)) as [sa|] eqn:Hsa;
    [|vm_compute in Hsa; discriminate].
  destruct (storyFromCSFFile_same_instance example_store "s1" button_csfFile
              sa primary_story example_resolved_store Hsa Hcall)
    as (Hcached & Hsame & _ & _).
  apply (Hsame example_resolved_store "s1" button_csfFile sa Hsa);
    [reflexivity..|exact Hcached].
Defined.

Lemma storyFromCSFFile_seeds_args_witness :
  is_Some (obj_read "s1" (stories button_csfFile))
  ∧ args example_store !! "s1" = None
  ∧ args example_resolved_store !! "s1"
    = Some (JObj [("label", JStr "Hello")]).
Proof.
  assert (H1 : is_Some (obj_read "s1" (stories button_csfFile)))
    by (vm_compute; eauto).
  split_and!; [exact H1 | reflexivity|].
  destruct (storyFromCSFFile_seeds_args example_store "s1" button_csfFile H1)
    as (story & s' & Hcall & Hseed & _).
  rewrite example_resolved_run in Hcall. injection Hcall as <- <-.
  apply Hseed. reflexivity.
Defined.

(** The argument store is keyed by the identifier of the story that
    [prepareStory] returns: where that is not the identifier asked for, the
    store holds no value for the latter after the call. *)
Lemma storyFromCSFFile_seeds_args_counterexample :
  is_Some (obj_get "s1" (stories renaming_csfFile))
  ∧ args renaming_store !! "s1" = None
  ∧ ∃ story s',
      storyFromCSFFile "s1" renaming_csfFile renaming_store = (inr story, s')
      ∧ initialArgs story = JObj [("label", JStr "Hello")]
      ∧ args s' !! "s1" = None
      ∧ args s' !! "other" = Some (initialArgs story).
Proof.
  split_and!; [vm_compute; eauto | reflexivity|].
  destruct (storyFromCSFFile "s1" renaming_csfFile renaming_store)
    as [[e|story] s'] eqn:Hrun; vm_compute in Hrun; [discriminate|].
  injection Hrun as <- <-. eexists _, _.
  split_and!; [reflexivity | vm_compute; reflexivity..].
Qed.

Lemma hooks_one_per_story_witness :
  reachable example_store
  ∧ storyFromCSFFile "s1" button_csfFile example_store
    = (inr primary_story, example_resolved_store)
  ∧ single_handles example_resolved_store
  ∧ is_Some (hooks example_resolved_store !! "s1")
  ∧ hooks (storyFromCSFFile "s1" button_csfFile example_resolved_store).2
    = hooks example_resolved_store.
Proof.
  assert (H1 : reachable example_store) by apply reachable_new.
  destruct (hooks_one_per_story example_store "s1" button_csfFile
              primary_story example_resolved_store H1 example_resolved_run)
    as (_ & Hsingle & _ & Hsome & _).
  assert (H2 : reachable example_resolved_store)
    by apply (reachable_exec (CallStoryFromCSFFile "s1" button_csfFile)),
             reachable_new.
  assert (Hagain : storyFromCSFFile "s1" button_csfFile example_resolved_store
                   = (inr primary_story,
                      (storyFromCSFFile "s1" button_csfFile
                         example_resolved_store).2))
    by (apply returned; vm_compute; reflexivity).
  destruct (hooks_one_per_story example_resolved_store "s1" button_csfFile
              primary_story _ H2 Hagain)
    as (_ & _ & _ & _ & Hkept).
  split_and!; [exact H1 | exact example_resolved_run | exact Hsingle
               | exact (Hsome eq_refl) |].
  apply Hkept. left. exact (Hsome eq_refl).
Defined.


Lemma extract_records_witness :
  reachable example_cached_store
  ∧ ∃ s',
      extract None example_cached_store = (inr [("s1", primary_record)], s')
      ∧ (∀ k v, obj_get k primary_record = Some v → is_function v = false)
      ∧ ∃ story,
          obj_keys primary_record
          = "args" :: (filter (λ kv, kv.1 ≠ "moduleExport"
                                     ∧ is_function kv.2 = false)
                              (props story)).*1
          ∧ obj_get "args" primary_record = Some (initialArgs story).
Proof.
  split; [exact example_cached_reachable|].
  assert (Hrun : extract None example_cached_store
                 = (inr [("s1", primary_record)],
                    (extract None example_cached_store).2))
    by (apply returned; vm_compute; reflexivity).
  destruct (extract_records example_cached_store None _ _ "s1" primary_record
              example_cached_reachable example_typed Hrun eq_refl)
    as (files & entry & csfFile & before & after & acc1 & s1 & s2 & story
        & _ & _ & _ & _ & _ & _ & _ & Hkeys & _ & Hplain & _ & Hargs).
  eexists. split_and!; [exact Hrun | exact Hplain|].
  exists story. split; [exact Hkeys | exact Hargs].
Defined.

Lemma fromId_unknown_story_witness :
  is_Some (cachedCSFFiles example_cached_store)
  ∧ obj_get "missing" (entries (storyIndex example_cached_store)) = None
  ∧ fromId "missing" example_cached_store = (inr None, example_cached_store).
Proof.
  assert (H1 : is_Some (cachedCSFFiles example_cached_store))
    by (vm_compute; eauto).
  assert (H2 : obj_get "missing" (entries (storyIndex example_cached_store))
               = None) by reflexivity.
  split_and!; [exact H1 | exact H2|].
  by apply (fromId_unknown_story example_cached_store "missing").
Defined.

Lemma cleanupStory_keeps_context_witness :
  hooks example_resolved_store !! story_id primary_story
  = Some {| hooks_oid := 0; hooks_state := HooksState_new |}
  ∧ ∃ s', cleanupStory primary_story example_resolved_store = (inr (), s')
          ∧ hooks s' !! story_id primary_story
            = Some {| hooks_oid := 0;
                      hooks_state := HooksState_clean HooksState_new |}.
Proof.
  assert (H1 : hooks example_resolved_store !! story_id primary_story
               = Some {| hooks_oid := 0; hooks_state := HooksState_new |})
    by (vm_compute; reflexivity).
  split; [exact H1|].
  destruct (cleanupStory_keeps_context example_resolved_store primary_story
              _ H1) as (s' & Hcall & Hcleaned & _).
  exists s'. split; assumption.
Defined.

(** **** The remaining methods and the store over time *)

Example getStoriesJsonData_example :
  (getStoriesJsonData example_get example_cached_store).1
  = inr {| index_v := 3;
           index_stories :=
             [("s1", [("id", JStr "s1"); ("name", JStr "Primary");
                      ("title", JStr "Button");
                      ("importPath", JStr "Button.stories");
                      ("kind", JStr "Button"); ("story", JStr "Primary");
                      ("parameters",
                       JObj [("fileName", JStr "Button.stories")])]);
              ("s2", [("id", JStr "s2"); ("name", JStr "Secondary");
                      ("title", JStr "Button");
                      ("importPath", JStr "Button.stories");
                      ("kind", JStr "Button"); ("story", JStr "Secondary");
                      ("parameters",
                       JObj [("docsOnly", JBool true);
                             ("fileName", JStr "Button.stories")])])] |}.
Proof. vm_compute. reflexivity. Qed.

Example loadEntry_example :
  (loadEntry "intro" example_store).1
  = inr {| entryExports := intro_module; csfFiles := [button_csfFile] |}
  ∧ (loadEntry "s1" example_store).1
    = inr {| entryExports := button_module; csfFiles := [] |}.
Proof. split; vm_compute; reflexivity. Qed.

Lemma caches_stay_bounded_witness :
  reachable example_cached_store
  ∧ length (memo_entries (csf_cache example_cached_store))
    ≤ N.to_nat CSF_CACHE_SIZE.
Proof.
  assert (H1 : reachable example_cached_store)
    by apply (reachable_exec CallCacheAllCSFFiles), reachable_new.
  split; [exact H1|].
  by destruct (caches_stay_bounded example_cached_store H1) as (_ & ? & _).
Defined.

Lemma setProjectAnnotations_invalidates_witness :
  reachable example_resolved_store
  ∧ is_Some (obj_read "s1" (stories button_csfFile))
  ∧ ∃ story s2,
      storyFromCSFFile "s1" button_csfFile
        (setProjectAnnotations [] example_resolved_store).2
      = (inr story, s2)
      ∧ oid primary_story ≠ oid story.
Proof.
  assert (H1 : reachable example_resolved_store)
    by apply (reachable_exec (CallStoryFromCSFFile "s1" button_csfFile)),
             reachable_new.
  destruct (obj_read "s1" (stories button_csfFile)) as [sa|] eqn:Hsa;
    [|vm_compute in Hsa; discriminate].
  split_and!; [exact H1 | eauto|].
  destruct (setProjectAnnotations_invalidates example_resolved_store []
              "s1" button_csfFile sa H1 Hsa)
    as (_ & _ & story & s2 & Hcall & _ & Hfresh).
  exists story, s2. split; [exact Hcall|].
  apply (Hfresh (13, 12, 0)). vm_compute. left.
Defined.

Lemma args_entry_persists_witness :
  storyFromCSFFile "s1" button_csfFile example_store
  = (inr primary_story, example_resolved_store)
  ∧ later example_resolved_store
      (exec (CallSetProjectAnnotations []) example_resolved_store).2
  ∧ args (exec (CallSetProjectAnnotations []) example_resolved_store).2
      !! "s1"
    = Some (JObj [("label", JStr "Hello")]).
Proof.
  assert (H2 : later example_resolved_store
                 (exec (CallSetProjectAnnotations []) example_resolved_store).2)
    by apply later_exec, later_refl.
  split_and!; [exact example_resolved_run | exact H2|].
  destruct (args_entry_persists example_store "s1" button_csfFile
              primary_story example_resolved_store _ example_resolved_run H2)
    as (value & _ & Hlater & Hinit & _).
  rewrite (Hinit eq_refl) in Hlater. exact Hlater.
Defined.

Lemma hooks_context_persists_witness :
  storyFromCSFFile "s1" button_csfFile example_store
  = (inr primary_story, example_resolved_store)
  ∧ later example_resolved_store
      (exec (CallCleanupStory primary_story) example_resolved_store).2
  ∧ (∃ s3,
       cleanupStory primary_story
         (exec (CallCleanupStory primary_story) example_resolved_store).2
       = (inr (), s3))
  ∧ ∃ story,
      storyFromCSFFile "toString" object_csfFile example_store
      = (inr story, object_resolved_store)
      ∧ story_id story = "toString"
      ∧ hooks object_resolved_store !! "toString" = None
      ∧ cleanupStory story object_resolved_store
        = (inl TypeError, object_resolved_store).
Proof.
  assert (H2 : later example_resolved_store
                 (exec (CallCleanupStory primary_story)
                       example_resolved_store).2)
    by apply later_exec, later_refl.
  split_and!; [exact example_resolved_run | exact H2 | |].
  - destruct (hooks_context_persists example_store "s1" button_csfFile
                primary_story example_resolved_store _ example_resolved_run H2)
      as (_ & Hown & _).
    destruct (Hown eq_refl) as (c1 & c2 & s3 & _ & _ & _ & Hclean).
    exists s3. exact Hclean.
  - destruct (storyFromCSFFile "toString" object_csfFile example_store)
      as [[e|story] s1] eqn:Hrun;
      [apply (f_equal fst) in Hrun; vm_compute in Hrun; discriminate|].
    assert (Hid : story_id story = "toString").
    { apply (f_equal fst) in Hrun. vm_compute in Hrun.
      by injection Hrun as <-. }
    assert (Hs1 : s1 = object_resolved_store).
    { unfold object_resolved_store. by rewrite Hrun. }
    subst s1.
    destruct (hooks_context_persists example_store "toString" object_csfFile
                story object_resolved_store object_resolved_store Hrun
                (later_refl _))
      as (_ & _ & Hinherited).
    rewrite Hid in Hinherited.
    destruct (Hinherited eq_refl (reachable_new _ _ _)) as [Hnone Hthrows].
    exists story. split_and!; [reflexivity | exact Hid | exact Hnone
                               | exact Hthrows].
Defined.

Lemma cachedCSFFiles_persist_witness :
  is_Some (cachedCSFFiles example_cached_store)
  ∧ later example_cached_store
      (exec (CallOnStoriesChanged (Some offline_importFn) None)
            example_cached_store).2
  ∧ (extract None
       (exec (CallOnStoriesChanged (Some offline_importFn) None)
             example_cached_store).2).1
    ≠ inl CalledExtractOnStoreError.
Proof.
  assert (H2 : later example_cached_store
                 (exec (CallOnStoriesChanged (Some offline_importFn) None)
                       example_cached_store).2)
    by apply later_exec, later_refl.
  split_and!; [exact example_cached | exact H2|].
  destruct (cachedCSFFiles_persist example_cached_store _ example_cached H2)
    as (_ & Hextract & _).
  apply Hextract.
Defined.


Lemma loadCSFFileByStoryId_failure_witness :
  loadCSFFileByStoryId "s1" offline_store
  = (inl (LoaderFailure "offline"),
     set_imports
       [("Button.stories", {| settle := 0; outcome := inl "offline" |})]
       offline_store).
Proof.
  assert (Hrun : loadCSFFileByStoryId "s1" offline_store
                 = (inl (LoaderFailure "offline"),
                    (loadCSFFileByStoryId "s1" offline_store).2))
    by (apply threw; vm_compute; reflexivity).
  destruct (loadCSFFileByStoryId_failure "s1" offline_store _ _ Hrun)
    as [(Hnone & _)|(entry & reason & Hentry & _ & _ & Hstore)];
    [vm_compute in Hnone; discriminate|].
  change (obj_get "s1" (entries (storyIndex offline_store)))
    with (Some button_entry) in Hentry.
  injection Hentry as <-.
  rewrite Hstore in Hrun. exact Hrun.
Defined.

Lemma loadCSFFileByStoryId_shares_file_witness :
  obj_get "s1" (entries (storyIndex example_store)) = Some button_entry
  ∧ obj_get "s2" (entries (storyIndex example_store)) = Some button2_entry
  ∧ ∃ s1 s2,
      loadCSFFileByStoryId "s1" example_store = (inr button_csfFile, s1)
      ∧ outcome (importFn s1 (imports s1) "Button.stories")
        = inr button_module
      ∧ loadCSFFileByStoryId "s2" s1 = (inr button_csfFile, s2).
Proof.
  split_and!; [reflexivity..|].
  assert (Hrun : loadCSFFileByStoryId "s1" example_store
                 = (inr button_csfFile,
                    (loadCSFFileByStoryId "s1" example_store).2))
    by (apply returned; vm_compute; reflexivity).
  set (s1 := (loadCSFFileByStoryId "s1" example_store).2) in *.
  assert (Hagain : outcome (importFn s1 (imports s1) "Button.stories")
                   = inr button_module) by (vm_compute; reflexivity).
  destruct (loadCSFFileByStoryId_shares_file example_store "s1" "s2"
              button_entry button2_entry button_csfFile s1
              eq_refl eq_refl eq_refl eq_refl Hrun)
    as (moduleExports & Hfirst & _ & Hsecond & _).
  assert (moduleExports = button_module) as ->.
  { vm_compute in Hfirst. by injection Hfirst as <-. }
  destruct (Hsecond button_module Hagain eq_refl) as (s2 & Hsecond' & _).
  exists s1, s2. split_and!; [exact Hrun | exact Hagain | exact Hsecond'].
Defined.

Lemma loadStory_failure_witness :
  ∃ s',
    loadStory "s3" mismatched_store
    = (inl (MissingStoryFromCsfFileError "s3"), s')
    ∧ args s' = args mismatched_store
    ∧ hooks s' = hooks mismatched_store.
Proof.
  assert (Hrun : loadStory "s3" mismatched_store
                 = (inl (MissingStoryFromCsfFileError "s3"),
                    (loadStory "s3" mismatched_store).2))
    by (apply threw; vm_compute; reflexivity).
  destruct (loadStory_failure "s3" mismatched_store _ _ Hrun)
    as (Hargs & Hhooks & _).
  eexists. split_and!; [exact Hrun | exact Hargs | exact Hhooks].
Defined.

Lemma loadStory_twice_witness :
  ∃ s' s'',
    loadStory "s1" example_store = (inr primary_story, s')
    ∧ outcome (importFn s' (imports s') "Button.stories") = inr button_module
    ∧ loadStory "s1" s' = (inr primary_story, s'').
Proof.
  assert (Hrun : loadStory "s1" example_store
                 = (inr primary_story, (loadStory "s1" example_store).2))
    by (apply returned; vm_compute; reflexivity).
  set (s' := (loadStory "s1" example_store).2) in *.
  assert (Hagain : outcome (importFn s' (imports s') "Button.stories")
                   = inr button_module) by (vm_compute; reflexivity).
  destruct (loadStory_twice "s1" example_store primary_story s' Hrun)
    as (entry & moduleExports & csfFile & storyAnnotations & Hentry & Hfirst
        & _ & _ & _ & _ & _ & Hsecond).
  change (obj_get "s1" (entries (storyIndex example_store)))
    with (Some button_entry) in Hentry.
  injection Hentry as <-.
  assert (moduleExports = button_module) as ->.
  { vm_compute in Hfirst. by injection Hfirst as <-. }
  destruct (Hsecond button_module Hagain eq_refl) as [s'' Hsecond'].
  exists s', s''. split_and!; [exact Hrun | exact Hagain | exact Hsecond'].
Defined.




Lemma getStoriesJsonData_entries_witness :
  ∃ json s',
    getStoriesJsonData example_get example_cached_store = (inr json, s')
    ∧ obj_keys (index_stories json) = ["s1"; "s2"]
    ∧ ∀ i storyId entry,
        index_stories json !! i = Some (storyId, entry) →
        ∃ importPath0 parameters,
          obj_get "importPath" entry = Some importPath0
          ∧ obj_get "parameters" entry = Some (JObj parameters)
          ∧ obj_get "fileName" parameters = Some importPath0.
Proof.
  destruct (getStoriesJsonData example_get example_cached_store)
    as [[e|json] s'] eqn:Hrun;
    [apply (f_equal fst) in Hrun; vm_compute in Hrun; discriminate|].
  destruct (getStoriesJsonData_entries example_get example_cached_store
              json s' Hrun) as (stories & _ & _ & _ & Hentries).
  exists json, s'. split_and!; [reflexivity| |].
  - apply (f_equal fst) in Hrun. vm_compute in Hrun.
    injection Hrun as <-. reflexivity.
  - intros i storyId entry Hentry.
    destruct (Hentries i storyId entry Hentry)
      as (story & importPath0 & parameters & _ & _ & _ & _ & Hpath & _ & _
          & Hparameters & _ & HfileName & _).
    by exists importPath0, parameters.
Defined.

Lemma getStoriesJsonData_failure_witness :
  getStoriesJsonData example_get example_store
  = (inl CalledExtractOnStoreError, example_store)
  ∧ extract (Some {| includeDocsOnly := Some true |}) example_store
    = (inl CalledExtractOnStoreError, example_store).
Proof.
  assert (H1 : getStoriesJsonData example_get example_store
               = (inl CalledExtractOnStoreError, example_store))
    by reflexivity.
  split; [exact H1|].
  destruct (getStoriesJsonData_failure example_get example_store _ _ H1)
    as [Hextract|(stories & storyId & story & Hextract & _)];
    [exact Hextract | discriminate Hextract].
Defined.


Lemma raw_outcome_witness :
  cachedCSFFiles example_store = None
  ∧ raw example_store = (inl CalledExtractOnStoreError, example_store).
Proof.
  split; [reflexivity|].
  by apply (raw_outcome example_store).
Defined.

Lemma loadEntry_resolves_witness :
  obj_get "intro" (entries (storyIndex example_store)) = Some intro_entry
  ∧ ∃ result s',
      loadEntry "intro" example_store = (inr result, s')
      ∧ outcome (importFn example_store [] "Intro.mdx")
        = inr (entryExports result)
      ∧ imports s'
        = [("Button.stories", {| settle := 2; outcome := inr button_module |});
           ("Intro.mdx", {| settle := 1; outcome := inr intro_module |})]
      ∧ length (csfFiles result) = 1.
Proof.
  split; [reflexivity|].
  destruct (loadEntry "intro" example_store) as [[e|result] s'] eqn:Hrun;
    [apply (f_equal fst) in Hrun; vm_compute in Hrun; discriminate|].
  destruct (loadEntry_resolves "intro" example_store intro_entry result s'
              eq_refl Hrun) as (loads & Hown & _ & _ & _ & _ & Hfiles & _).
  exists result, s'. split_and!; [reflexivity | exact Hown | | exact Hfiles].
  apply (f_equal snd) in Hrun. simpl in Hrun. rewrite <- Hrun.
  vm_compute. reflexivity.
Defined.

Lemma loadEntry_fails_fast_witness :
  obj_get "intro" (entries (storyIndex offline_store)) = Some intro_entry
  ∧ outcome (importFn offline_store (imports offline_store) "Intro.mdx")
    = inl "offline"
  ∧ ∃ e, (loadEntry "intro" offline_store).1 = inl e.
Proof.
  split_and!; [reflexivity..|].
  pose proof (loadEntry_fails_fast "intro" offline_store) as Hfast.
  change (obj_get "intro" (entries (storyIndex offline_store)))
    with (Some intro_entry) in Hfast.
  destruct Hfast as (added & _ & Hfails & _).
  apply (Hfails "Intro.mdx"
           (importFn offline_store (imports offline_store) "Intro.mdx")
           "offline"); [|reflexivity].
  apply elem_of_app. right. apply list_elem_of_singleton. reflexivity.
Defined.

Lemma reachable_public_invariants_witness :
  reachable_public example_get
    (exec_remaining example_get CallRaw example_cached_store).2
  ∧ single_handles (exec_remaining example_get CallRaw example_cached_store).2.
Proof.
  assert (H1 : reachable_public example_get
                 (exec_remaining example_get CallRaw example_cached_store).2).
  { apply public_exec_remaining.
    apply (public_exec example_get CallCacheAllCSFFiles), public_new. }
  split; [exact H1|].
  by destruct (reachable_public_invariants example_get _ H1) as (? & _).
Defined.
End Checks.
